(** * MidiNoteVisualizerAE: the MIDI file reader and the BPM map

    A shallow embedding of the MIDI reader of [midi_visualizer.jsx] (the
    constructor [MidiFile] and the methods that [addMidiFileMethods]
    installs) and of [createBpmMap], followed by the properties that the
    specification of the reader states, each settled against the
    embedding.  The functions that lay the notes out ([getTempo],
    [getLatestMidiNote], [getXPositionAndWidthOfNote],
    [getYPositionAndHeightOfKey], [isBlackNote],
    [createTimeSignatureMap], [addScrollerKeyframes]) are embedded after
    the reader, and further properties of the code follow those of the
    specification.  The user interface of the script (windows, progress bar,
    compositions and layers) is outside the embedding; the three values
    that the embedded code reads from it are parameters: the half-speed
    checkbox, the cancel flag of the progress bar and the BPM threshold.

    Conventions of the embedding.
    - The file is an ExtendScript string read with the BINARY encoding:
      one character per byte, hence a [string] of 8-bit [ascii].
    - A JavaScript number that is always an integer on the path at hand
      (offsets, ticks, status bytes) is a [Z]; a number read with
      [charCodeAt], which is [NaN] out of range, is an [option Z] with
      [None] for [NaN].  Integers are exact, as the doubles of the code
      are below 2^53; the loss of precision above 2^53 is not modelled.
    - Every other number (seconds, beats, BPM, the time division once it
      may have been halved) is a [JS.number]: [NaN], an infinity, or a
      finite value held as an exact rational.  Rounding of doubles is not
      modelled there, nor is the sign of zero; what is stated of such
      numbers is stated with the operations that the code performs, in
      its order.  [createBpmMap], whose comparisons with the threshold
      the rounding decides, is embedded on binary64 numbers, [Double].
    - Objects that the program shares between several arrays (notes,
      channels) live in a store and are referred to by their key.
    - Nothing in the script catches an exception of the reader: a
      [TypeError] ends the computation, [outcome].
    - A loop whose number of turns is bounded by its data is a function
      with that bound as fuel, and a lemma shows that the loop has come
      to its end within the fuel. *)

From Stdlib Require Import ZArith QArith Qcanon Qround String Ascii List Lia Bool
  Sorted Floats.SpecFloat.
From stdpp Require Import base numbers list gmap strings.

Local Open Scope Z_scope.

(* ================================================================== *)
(** * JavaScript numbers                                               *)
(* ================================================================== *)

Module JS.

Inductive number : Type :=
| NaN
| Inf (negative : bool)
| Fin (q : Qc).

Definition ofZ (z : Z) : number := Fin (Qc_of_Z z).

(** [ToNumber] of the result of [charCodeAt] or of a sum of such. *)
Definition ofInt (i : option Z) : number :=
  match i with Some z => ofZ z | None => NaN end.

Definition isNeg (q : Qc) : bool :=
  match (q ?= 0)%Qc with Lt => true | _ => false end.

Definition isZero (q : Qc) : bool :=
  match (q ?= 0)%Qc with Eq => true | _ => false end.

Definition neg (a : number) : number :=
  match a with
  | NaN => NaN
  | Inf s => Inf (negb s)
  | Fin q => Fin (- q)%Qc
  end.

Definition add (a b : number) : number :=
  match a, b with
  | NaN, _ | _, NaN => NaN
  | Inf s, Inf s' => if eqb s s' then Inf s else NaN
  | Inf s, Fin _ | Fin _, Inf s => Inf s
  | Fin p, Fin q => Fin (p + q)%Qc
  end.

Definition sub (a b : number) : number := add a (neg b).

Definition mul (a b : number) : number :=
  match a, b with
  | NaN, _ | _, NaN => NaN
  | Inf s, Inf s' => Inf (xorb s s')
  | Inf s, Fin q | Fin q, Inf s =>
      if isZero q then NaN else Inf (xorb s (isNeg q))
  | Fin p, Fin q => Fin (p * q)%Qc
  end.

Definition div (a b : number) : number :=
  match a, b with
  | NaN, _ | _, NaN => NaN
  | Inf _, Inf _ => NaN
  | Inf s, Fin q => Inf (xorb s (isNeg q))
  | Fin _, Inf _ => Fin 0%Qc
  | Fin p, Fin q =>
      if isZero q then (if isZero p then NaN else Inf (isNeg p))
      else Fin (p / q)%Qc
  end.

(** [Math.abs], [Math.floor], [Math.round] (halves go up). *)
Definition abs (a : number) : number :=
  match a with
  | NaN => NaN
  | Inf _ => Inf false
  | Fin q => Fin (if isNeg q then (- q)%Qc else q)
  end.

Definition floorQc (q : Qc) : Z := Qfloor (this q).

Definition floor (a : number) : number :=
  match a with
  | Fin q => ofZ (floorQc q)
  | _ => a
  end.

Definition round (a : number) : number :=
  match a with
  | Fin q => ofZ (floorQc (q + Q2Qc (1 # 2))%Qc)
  | _ => a
  end.

(** [a >= b], [a < b], [a === b]: false as soon as one side is [NaN]. *)
Definition ge (a b : number) : bool :=
  match a, b with
  | NaN, _ | _, NaN => false
  | Inf s, Inf s' => implb s s'
  | Inf s, Fin _ => negb s
  | Fin _, Inf s' => s'
  | Fin p, Fin q => match (p ?= q)%Qc with Lt => false | _ => true end
  end.

Definition lt (a b : number) : bool :=
  match a, b with
  | NaN, _ | _, NaN => false
  | _, _ => negb (ge a b)
  end.

Definition strictEq (a b : number) : bool :=
  match a, b with
  | Inf s, Inf s' => eqb s s'
  | Fin p, Fin q => isZero (p - q)%Qc
  | _, _ => false
  end.

(** [ToBoolean]. *)
Definition truthy (a : number) : bool :=
  match a with
  | NaN => false
  | Inf _ => true
  | Fin q => negb (isZero q)
  end.

Definition truthyInt (i : option Z) : bool :=
  match i with Some z => negb (z =? 0) | None => false end.

(** [i & mask]: [ToInt32] sends [NaN] to 0; the operands met here are
    bytes and 16-bit values, so no 32-bit wrap-around occurs. *)
Definition band (i : option Z) (mask : Z) : Z :=
  Z.land (default 0 i) mask.

(** [a == b] on numbers read from the file. *)
Definition looseEqInt (a b : option Z) : bool :=
  match a, b with
  | Some x, Some y => x =? y
  | _, _ => false
  end.

(** [1 << n]: the count is taken modulo 32 and the result is a signed
    32-bit integer. *)
Definition shl1 (n : option Z) : Z :=
  let k := Z.land (default 0 n) 31 in
  if k =? 31 then - 2 ^ 31 else 2 ^ k.

End JS.

Declare Scope js_scope.
Delimit Scope js_scope with js.
Infix "+" := JS.add : js_scope.
Infix "-" := JS.sub : js_scope.
Infix "*" := JS.mul : js_scope.
Infix "/" := JS.div : js_scope.

(* ================================================================== *)
(** * Uncaught exceptions                                              *)
(* ================================================================== *)

Inductive outcome (A : Type) : Type :=
| Returns (a : A)
| TypeError.
Arguments Returns {A} a.
Arguments TypeError {A}.

Definition obind {A B} (c : outcome A) (k : A -> outcome B) : outcome B :=
  match c with
  | Returns a => k a
  | TypeError => TypeError
  end.

Notation "'let*' x ':=' c 'in' k" := (obind c (fun x => k))
  (at level 10, x pattern, c at level 100, k at level 200).

(* ================================================================== *)
(** * Reading the byte string                                          *)
(* ================================================================== *)

(** [s.charCodeAt(offset)]: [NaN] outside the string. *)
Definition charCodeAt (s : string) (offset : Z) : option Z :=
  if offset <? 0 then None
  else match String.get (Z.to_nat offset) s with
       | Some c => Some (Z.of_N (N_of_ascii c))
       | None => None
       end.

(** [s.substring(a, b)] for [0 <= a <= b]; as in the source the end is
    clamped to the length of the string. *)
Definition substring (s : string) (a b : Z) : string :=
  String.substring (Z.to_nat a) (Z.to_nat (b - a)) s.

Definition strlen (s : string) : Z := Z.of_nat (String.length s).

Section Reader.

Variable file : string.

Definition addInt (a b : option Z) : option Z :=
  match a, b with
  | Some x, Some y => Some (x + y)
  | _, _ => None
  end.

Definition scaleInt (a : option Z) (k : Z) : option Z :=
  match a with Some x => Some (x * k) | None => None end.

Definition getShort (offset : Z) : option Z :=
  addInt (scaleInt (charCodeAt file offset) 256)
         (charCodeAt file (offset + 1)).

Definition getLong (offset : Z) : option Z :=
  addInt (addInt (addInt (scaleInt (charCodeAt file offset) (Z.shiftl 1 24))
                         (scaleInt (charCodeAt file (offset + 1)) (Z.shiftl 1 16)))
                 (scaleInt (charCodeAt file (offset + 2)) (Z.shiftl 1 8)))
         (charCodeAt file (offset + 3)).

Definition getByte (offset : Z) : option Z := charCodeAt file offset.

Definition getInt24 (offset : Z) : option Z :=
  addInt (addInt (scaleInt (charCodeAt file offset) (Z.shiftl 1 16))
                 (scaleInt (charCodeAt file (offset + 1)) (Z.shiftl 1 8)))
         (scaleInt (charCodeAt file (offset + 2)) (Z.shiftl 1 0)).

(** The two [while (1)] loops stop at the first byte whose high bit is
    clear, and a read past the end is [NaN], whose high bit is clear:
    no loop runs for more than the bytes left plus one turn.  The fuel
    is that bound; [getVarLen_fuel] and [getVarVal_fuel] show that it
    is never exhausted. *)
Fixpoint getVarLen_loop (fuel : nat) (result offset : Z) : Z :=
  match fuel with
  | O => result
  | S fuel' =>
      if negb (JS.band (charCodeAt file offset) 0x80 =? 0)
      then getVarLen_loop fuel' (result + 1) (offset + 1)
      else result
  end.

Fixpoint getVarVal_loop (fuel : nat) (result offset : Z) : Z :=
  match fuel with
  | O => result
  | S fuel' =>
      let b := charCodeAt file offset in
      let result := result * 128 + JS.band b 0x7f in
      if negb (JS.band b 0x80 =? 0)
      then getVarVal_loop fuel' result (offset + 1)
      else result
  end.

Definition varFuel (offset : Z) : nat :=
  S (Z.to_nat (strlen file - offset)).

Definition getVarLen (offset : Z) : Z :=
  getVarLen_loop (varFuel offset) 1 offset.

Definition getVarVal (offset : Z) : Z :=
  getVarVal_loop (varFuel offset) 0 offset.

Definition getVarString (offset : Z) : string :=
  let len := getVarVal offset in
  let lenlen := getVarLen offset in
  substring file (offset + lenlen) (offset + lenlen + len).

(** [undefined] (here [None]) for a status that no branch covers. *)
Definition getEventLength (status offset : Z) : option Z :=
  let statusTop := Z.shiftr (Z.land status 0xf0) 4 in
  if (statusTop =? 0x8) || (statusTop =? 0x9) || (statusTop =? 0xa)
     || (statusTop =? 0xb) || (statusTop =? 0xe) then Some 2
  else if (statusTop =? 0xc) || (statusTop =? 0xd) then Some 1
  else if (status =? 0xff) || (status =? 0xf0) then
    let result := getVarVal (offset + 1) in
    let result := result + getVarLen (offset + 1) in
    let result := result + 1 in
    Some result
  else None.

End Reader.

(* ================================================================== *)
(** * The objects of the reader                                        *)
(* ================================================================== *)

(** [Note]: [durTime] and [durBeats] are absent until [addNote] assigns
    them. *)
Record Note := mkNote {
  note_time : JS.number;
  note_beats : JS.number;
  note_channel : Z;
  note_pitch : option Z;
  note_vel : option Z;
  note_durTime : option JS.number;
  note_durBeats : option JS.number
}.

Definition new_Note (time beats : JS.number) (channel : Z)
    (pitch vel : option Z) : Note :=
  mkNote time beats channel pitch vel None None.

(** [Channel]: [notes] holds references into the note store. *)
Record Channel := mkChannel {
  ch_index : Z;
  ch_trackIndex : Z;
  ch_midiChannel : Z;
  ch_notes : list nat;
  ch_insrument : option string
}.

Definition new_Channel (index : Z) : Channel :=
  mkChannel index (index / 16) (Z.rem index 16) [] None.

(** [Track]: the constructor is always called without an argument, so
    [index] stays undefined; [channels] holds the keys of the channels in
    [this.channels]. *)
Record Track := mkTrack {
  tr_index : option Z;
  tr_channels : list Z;
  tr_name : option string
}.

Definition new_Track : Track := mkTrack None [] None.

Record Tempo := mkTempo {
  tempo_tick : Z;
  tempo_microsecondsPerQuarterNote : option Z
}.

Record TimeSignature := mkTimeSignature {
  ts_tick : Z;
  ts_numerator : option Z;
  ts_denominator : Z;
  ts_metronomeInterval : option Z;
  ts_hemiDemiSemiNotesPerQuarterNote : option Z;
  ts_second : JS.number
}.

Record BPM := mkBPM {
  bpm_second : JS.number;
  bpm_bpm : JS.number;
  bpm_microsecondsPerQuarterNote : option Z
}.

(** The [MidiFile] object.  [store] is the heap of [Note] objects in
    allocation order; [notes] and the channels' [ch_notes] refer to it.
    [framesPerSecond] and [ticksPerBeat] are [None] while the property
    does not exist. *)
Record MidiFile := mkMidiFile {
  microsecondsPerQuarterNote : option Z;
  timeSignatureNumerator : option Z;
  timeSignatureDenominator : Z;
  timeSignatureMetronomeInterval : option Z;
  timeSignatureHemiDemiSemiNotesPerQuarterNote : option Z;
  file : string;
  fileLength : Z;
  isMidiFlag : bool;
  format : option Z;
  trackCount : option Z;
  timeDivision : JS.number;
  framesPerSecond : option Z;
  ticksPerBeat : option JS.number;
  chunkCount : Z;
  noteOns : Z;
  noteOffs : Z;
  store : list Note;
  notes : list nat;
  channels : gmap Z Channel;
  tracks : list Track;
  tempoMap : list Tempo;
  timeSignatureMap : list TimeSignature
}.

(** Field updates. *)
Definition set_store (h : list Note) (m : MidiFile) : MidiFile :=
  mkMidiFile (microsecondsPerQuarterNote m) (timeSignatureNumerator m)
    (timeSignatureDenominator m) (timeSignatureMetronomeInterval m)
    (timeSignatureHemiDemiSemiNotesPerQuarterNote m) (file m) (fileLength m)
    (isMidiFlag m) (format m) (trackCount m) (timeDivision m)
    (framesPerSecond m) (ticksPerBeat m) (chunkCount m) (noteOns m)
    (noteOffs m) h (notes m) (channels m) (tracks m) (tempoMap m)
    (timeSignatureMap m).

Definition set_notes (l : list nat) (m : MidiFile) : MidiFile :=
  mkMidiFile (microsecondsPerQuarterNote m) (timeSignatureNumerator m)
    (timeSignatureDenominator m) (timeSignatureMetronomeInterval m)
    (timeSignatureHemiDemiSemiNotesPerQuarterNote m) (file m) (fileLength m)
    (isMidiFlag m) (format m) (trackCount m) (timeDivision m)
    (framesPerSecond m) (ticksPerBeat m) (chunkCount m) (noteOns m)
    (noteOffs m) (store m) l (channels m) (tracks m) (tempoMap m)
    (timeSignatureMap m).

Definition set_channels (c : gmap Z Channel) (m : MidiFile) : MidiFile :=
  mkMidiFile (microsecondsPerQuarterNote m) (timeSignatureNumerator m)
    (timeSignatureDenominator m) (timeSignatureMetronomeInterval m)
    (timeSignatureHemiDemiSemiNotesPerQuarterNote m) (file m) (fileLength m)
    (isMidiFlag m) (format m) (trackCount m) (timeDivision m)
    (framesPerSecond m) (ticksPerBeat m) (chunkCount m) (noteOns m)
    (noteOffs m) (store m) (notes m) c (tracks m) (tempoMap m)
    (timeSignatureMap m).

Definition set_tracks (t : list Track) (m : MidiFile) : MidiFile :=
  mkMidiFile (microsecondsPerQuarterNote m) (timeSignatureNumerator m)
    (timeSignatureDenominator m) (timeSignatureMetronomeInterval m)
    (timeSignatureHemiDemiSemiNotesPerQuarterNote m) (file m) (fileLength m)
    (isMidiFlag m) (format m) (trackCount m) (timeDivision m)
    (framesPerSecond m) (ticksPerBeat m) (chunkCount m) (noteOns m)
    (noteOffs m) (store m) (notes m) (channels m) t (tempoMap m)
    (timeSignatureMap m).

Definition set_counters (cc ons offs : Z) (m : MidiFile) : MidiFile :=
  mkMidiFile (microsecondsPerQuarterNote m) (timeSignatureNumerator m)
    (timeSignatureDenominator m) (timeSignatureMetronomeInterval m)
    (timeSignatureHemiDemiSemiNotesPerQuarterNote m) (file m) (fileLength m)
    (isMidiFlag m) (format m) (trackCount m) (timeDivision m)
    (framesPerSecond m) (ticksPerBeat m) cc ons offs (store m) (notes m)
    (channels m) (tracks m) (tempoMap m) (timeSignatureMap m).

Definition set_tempo (us : option Z) (tm : list Tempo) (m : MidiFile) : MidiFile :=
  mkMidiFile us (timeSignatureNumerator m)
    (timeSignatureDenominator m) (timeSignatureMetronomeInterval m)
    (timeSignatureHemiDemiSemiNotesPerQuarterNote m) (file m) (fileLength m)
    (isMidiFlag m) (format m) (trackCount m) (timeDivision m)
    (framesPerSecond m) (ticksPerBeat m) (chunkCount m) (noteOns m)
    (noteOffs m) (store m) (notes m) (channels m) (tracks m) tm
    (timeSignatureMap m).

Definition set_timeSignature (n : option Z) (d : Z) (mi h : option Z)
    (tsm : list TimeSignature) (m : MidiFile) : MidiFile :=
  mkMidiFile (microsecondsPerQuarterNote m) n d mi h (file m) (fileLength m)
    (isMidiFlag m) (format m) (trackCount m) (timeDivision m)
    (framesPerSecond m) (ticksPerBeat m) (chunkCount m) (noteOns m)
    (noteOffs m) (store m) (notes m) (channels m) (tracks m) (tempoMap m)
    tsm.

(** [a[i]] for an integer [i]: undefined when out of range. *)
Definition nthZ {A} (l : list A) (i : Z) : option A :=
  if i <? 0 then None else l !! Z.to_nat i.

(* ================================================================== *)
(** * The methods of [addMidiFileMethods]                              *)
(* ================================================================== *)

(** [findChannel]: the new channel is stored in [this.channels] and
    pushed on its track's list; an unallocated track makes
    [track.channels] throw.  The result is the object after the call and
    the channel found. *)
Definition findChannel (index : Z) (m : MidiFile) : outcome (MidiFile * Channel) :=
  match channels m !! index with
  | Some channel => Returns (m, channel)
  | None =>
      let channel := new_Channel index in
      let m := set_channels (<[index := channel]> (channels m)) m in
      match nthZ (tracks m) (index / 16) with
      | None => TypeError
      | Some track =>
          let track := mkTrack (tr_index track) (tr_channels track ++ [index])
                               (tr_name track) in
          Returns (set_tracks (<[Z.to_nat (index / 16) := track]> (tracks m)) m,
                   channel)
      end
  end.

(** The note-off loop of [addNote]: [for (i = length - 2; i >= 0; i--)]
    with [k = i + 1]; the assignment [i = 0] in the body ends the loop
    after the first match. *)
Fixpoint assignDuration (chNotes : list nat) (time beats : JS.number)
    (pitch : option Z) (k : nat) (h : list Note) : list Note :=
  match k with
  | O => h
  | S i =>
      match chNotes !! i with
      | Some r =>
          match h !! r with
          | Some note2 =>
              if JS.truthyInt (note_vel note2)
                 && JS.looseEqInt (note_pitch note2) pitch
              then <[r := mkNote (note_time note2) (note_beats note2)
                            (note_channel note2) (note_pitch note2)
                            (note_vel note2)
                            (Some (time - note_time note2)%js)
                            (Some (beats - note_beats note2)%js)]> h
              else assignDuration chNotes time beats pitch i h
          | None => assignDuration chNotes time beats pitch i h
          end
      | None => assignDuration chNotes time beats pitch i h
      end
  end.

(** [addNote]; the result is the object after the call and the reference
    of the new note. *)
Definition addNote (time beats : JS.number) (channel : Z)
    (pitch vel : option Z) (m : MidiFile) : outcome (MidiFile * nat) :=
  let note := new_Note time beats channel pitch vel in
  let r := length (store m) in
  let m := set_notes (notes m ++ [r]) (set_store (store m ++ [note]) m) in
  let* (m, channelO) := findChannel channel m in
  let chNotes := ch_notes channelO ++ [r] in
  let channelO := mkChannel (ch_index channelO) (ch_trackIndex channelO)
                    (ch_midiChannel channelO) chNotes (ch_insrument channelO) in
  let m := set_channels (<[channel := channelO]> (channels m)) m in
  if JS.truthyInt vel then
    Returns (set_counters (chunkCount m) (noteOns m + 1) (noteOffs m) m, r)
  else
    let m := set_counters (chunkCount m) (noteOns m) (noteOffs m + 1) m in
    Returns (set_store
               (assignDuration chNotes time beats pitch (length chNotes - 1)
                               (store m)) m, r).

Definition addTimeSignatureAt (tick : Z) (numerator : option Z)
    (denominator : Z) (metronomeInterval hemiDemiSemiNotesPerQuarterNote : option Z)
    (m : MidiFile) : MidiFile :=
  set_timeSignature (timeSignatureNumerator m) (timeSignatureDenominator m)
    (timeSignatureMetronomeInterval m)
    (timeSignatureHemiDemiSemiNotesPerQuarterNote m)
    (timeSignatureMap m ++
       [mkTimeSignature tick numerator denominator metronomeInterval
          hemiDemiSemiNotesPerQuarterNote (JS.ofZ 0)]) m.

Definition addTempo (tick : Z) (us : option Z) (m : MidiFile) : MidiFile :=
  set_tempo (microsecondsPerQuarterNote m) (tempoMap m ++ [mkTempo tick us]) m.

(** [getTime]: the state of the [while] loop and one turn of its body. *)
Record getTime_state := mkGetTime {
  gt_seconds : JS.number;
  gt_currentMicrosecondsPerQuarterNote : JS.number;
  gt_tickCounter : Z;
  gt_prevTickCounter : Z;
  gt_index : nat
}.

Definition getTime_body (tm : list Tempo) (td : JS.number) (targetTick : Z)
    (s : getTime_state) : getTime_state :=
  let index := gt_index s in
  let '(cur, tickCounter, index) :=
    match tm !! index with
    | Some tempo =>
        let cur := JS.ofInt (tempo_microsecondsPerQuarterNote tempo) in
        let tickCounter :=
          match tm !! (index + 1)%nat with
          | None => targetTick
          | Some next =>
              if targetTick <=? tempo_tick next then targetTick
              else tempo_tick next
          end in
        (cur, tickCounter, (index + 1)%nat)
    | None => (gt_currentMicrosecondsPerQuarterNote s, targetTick, index)
    end in
  let deltaTickCounter := tickCounter - gt_prevTickCounter s in
  let seconds :=
    (gt_seconds s + (cur * JS.ofZ deltaTickCounter) / td / JS.ofZ 1000000)%js in
  mkGetTime seconds cur tickCounter tickCounter index.

Fixpoint getTime_while (fuel : nat) (tm : list Tempo) (td : JS.number)
    (targetTick : Z) (s : getTime_state) : getTime_state :=
  match fuel with
  | O => s
  | S fuel' =>
      if gt_tickCounter s <? targetTick
      then getTime_while fuel' tm td targetTick (getTime_body tm td targetTick s)
      else s
  end.

(** Every turn but the last moves [index] forward, so the loop takes at
    most [length tempoMap + 1] turns ([getTime_while_done]). *)
Definition getTime_on (tm : list Tempo) (td : JS.number) (targetTick : Z) : JS.number :=
  gt_seconds
    (getTime_while (S (length tm)) tm td targetTick
       (mkGetTime (JS.ofZ 0) (JS.ofZ 500000) 0 0 0%nat)).

Definition getTime (m : MidiFile) (targetTick : Z) : JS.number :=
  getTime_on (tempoMap m) (timeDivision m) targetTick.

(* ================================================================== *)
(** * The constructor [MidiFile]                                       *)
(* ================================================================== *)

Definition isMidi (s : string) : bool :=
  String.eqb (substring s 0 4) "MThd".

(** The variables of the loop over the events of one track. *)
Record track_state := mkTrackState {
  previousStatus : Z;
  chunkOffset : option Z;
  ticks : Z;
  midiChannelPrefix : option Z;
  seconds : JS.number
}.

(** The meta events the reader acts on ([switch (b1)]); [trackRef] is
    the place in [this.tracks] of the [track] of the current chunk.  The
    result is the object and the new [midiChannelPrefix]. *)
Definition metaEvent (currentTrack : Z) (trackRef : nat) (off ticks : Z)
    (prefix b1 : option Z) (m : MidiFile) : outcome (MidiFile * option Z) :=
  let f := file m in
  match b1 with
  | Some 0x03 =>
      let trackName := getVarString f (off + 1) in
      match tracks m !! trackRef with
      | Some track =>
          Returns (set_tracks
                     (<[trackRef := mkTrack (tr_index track) (tr_channels track)
                                      (Some trackName)]> (tracks m)) m, prefix)
      | None => TypeError
      end
  | Some 0x04 =>
      match prefix with
      | None => TypeError
      | Some p =>
          let channel := currentTrack * 16 + p in
          let* (m, channelO) := findChannel channel m in
          let channelO :=
            mkChannel (ch_index channelO) (ch_trackIndex channelO)
              (ch_midiChannel channelO) (ch_notes channelO)
              (Some (getVarString f (off + 1))) in
          Returns (set_channels (<[channel := channelO]> (channels m)) m, prefix)
      end
  | Some 0x20 => Returns (m, getByte f (off + 2))
  | Some 0x51 =>
      let us := getInt24 f (off + 2) in
      let m := set_tempo us (tempoMap m) m in
      Returns (addTempo ticks (microsecondsPerQuarterNote m) m, prefix)
  | Some 0x58 =>
      let m := set_timeSignature (getByte f (off + 2))
                 (JS.shl1 (getByte f (off + 3))) (getByte f (off + 4))
                 (getByte f (off + 5)) (timeSignatureMap m) m in
      Returns (addTimeSignatureAt ticks (timeSignatureNumerator m)
                 (timeSignatureDenominator m) (timeSignatureMetronomeInterval m)
                 (timeSignatureHemiDemiSemiNotesPerQuarterNote m) m, prefix)
  | _ => Returns (m, prefix)
  end.

(** One turn of [while (chunkOffset < chunkEnd)], entered with
    [chunkOffset = off]. *)
Definition event_body (currentTrack : Z) (trackRef : nat) (off : Z)
    (s : track_state) (m : MidiFile) : outcome (MidiFile * track_state) :=
  let f := file m in
  let delta := getVarVal f off in
  let ticks := ticks s + delta in
  let '(seconds, beats) :=
    if negb (ticks =? 0) && JS.truthy (timeDivision m)
       && JS.truthyInt (microsecondsPerQuarterNote m)
    then (getTime m ticks, (JS.ofZ ticks / timeDivision m)%js)
    else (seconds s, JS.ofZ 0) in
  let off := off + getVarLen f off in
  let status := charCodeAt f off in
  let '(off, status) :=
    if negb (JS.band status 0x80 =? 0) then (off + 1, default 0 status)
    else (off, previousStatus s) in
  let statusTop := Z.shiftr (Z.land status 0xf0) 4 in
  let channel := currentTrack * 16 + Z.land status 0x0f in
  let b1 := charCodeAt f off in
  let b2 := charCodeAt f (off + 1) in
  let statusTop := if status =? 0xff then status else statusTop in
  let* (m, prefix) :=
    if statusTop =? 8 then
      let* (m, _) := addNote seconds beats channel b1 (Some 0) m in
      Returns (m, midiChannelPrefix s)
    else if statusTop =? 9 then
      let* (m, _) := addNote seconds beats channel b1 b2 m in
      Returns (m, midiChannelPrefix s)
    else if statusTop =? 0xff then
      metaEvent currentTrack trackRef off ticks (midiChannelPrefix s) b1 m
    else Returns (m, midiChannelPrefix s) in
  let eventLength := getEventLength f status off in
  let chunkOffset :=
    match eventLength with Some l => Some (off + l) | None => None end in
  Returns (m, mkTrackState status chunkOffset ticks prefix seconds).

(** [chunkOffset < chunkEnd]; false when either side is [NaN]. *)
Definition inChunk (chunkOffset chunkEnd : option Z) : option Z :=
  match chunkOffset, chunkEnd with
  | Some off, Some e => if off <? e then Some off else None
  | _, _ => None
  end.

(** The loop over the events.  Every turn moves [chunkOffset] forward by
    at least two bytes, so [chunkEnd - chunkOffset] turns are enough
    ([events_while_done]). *)
Fixpoint events_while (fuel : nat) (currentTrack : Z) (trackRef : nat)
    (chunkEnd : option Z) (s : track_state) (m : MidiFile)
    : outcome (MidiFile * track_state) :=
  match fuel with
  | O => Returns (m, s)
  | S fuel' =>
      match inChunk (chunkOffset s) chunkEnd with
      | Some off =>
          let* (m, s) := event_body currentTrack trackRef off s m in
          events_while fuel' currentTrack trackRef chunkEnd s m
      | None => Returns (m, s)
      end
  end.

Definition eventsFuel (chunkOffset : Z) (chunkEnd : option Z) : nat :=
  match chunkEnd with
  | Some e => Z.to_nat (e - chunkOffset)
  | None => O
  end.

(** The variables of the loop over the chunks. *)
Record scan_state := mkScanState {
  offset : option Z;
  currentTrack : Z
}.

(** One turn of [while (offset < this.fileLength)], entered with
    [offset = off]. *)
Definition chunk_body (off : Z) (ct : Z) (m : MidiFile)
    : outcome (MidiFile * scan_state) :=
  let f := file m in
  let chunkType := substring f off (off + 4) in
  let chunkLength := getLong f (off + 4) in
  let m := set_counters (chunkCount m + 1) (noteOns m) (noteOffs m) m in
  let* (m, ct) :=
    if String.eqb chunkType "MTrk" then
      let trackRef := length (tracks m) in
      let m := set_tracks (tracks m ++ [new_Track]) m in
      let chunkOffset := off + 8 in
      let chunkEnd := addInt (Some chunkOffset) chunkLength in
      let* (m, _) :=
        events_while (eventsFuel chunkOffset chunkEnd) ct trackRef chunkEnd
          (mkTrackState 0 (Some chunkOffset) 0 (Some 0) (JS.ofZ 0)) m in
      Returns (m, ct + 1)
    else Returns (m, ct) in
  Returns (m, mkScanState (addInt (Some (off + 8)) chunkLength) ct).

Definition inFile (offset : option Z) (fileLength : Z) : option Z :=
  match offset with
  | Some off => if off <? fileLength then Some off else None
  | None => None
  end.

(** The loop over the chunks: every turn moves [offset] forward by at
    least eight bytes ([chunks_while_done]). *)
Fixpoint chunks_while (fuel : nat) (s : scan_state) (m : MidiFile)
    : outcome (MidiFile * scan_state) :=
  match fuel with
  | O => Returns (m, s)
  | S fuel' =>
      match inFile (offset s) (fileLength m) with
      | Some off =>
          let* (m, s) := chunk_body off (currentTrack s) m in
          chunks_while fuel' s m
      | None => Returns (m, s)
      end
  end.

(** [this.notes.sort(function (a, b) { return a.time - b.time; })], as an
    insertion sort that keeps the order of notes the comparison does not
    separate (the order ExtendScript gives them is not specified). *)
Definition noteBefore (h : list Note) (a b : nat) : bool :=
  match h !! a, h !! b with
  | Some x, Some y => JS.lt (note_time x - note_time y)%js (JS.ofZ 0)
  | _, _ => false
  end.

Fixpoint insertNote (h : list Note) (r : nat) (l : list nat) : list nat :=
  match l with
  | [] => [r]
  | r' :: l' =>
      if noteBefore h r' r then r' :: insertNote h r l' else r :: l
  end.

Definition sortNotes (h : list Note) (l : list nat) : list nat :=
  fold_right (insertNote h) [] l.

(** The object as the constructor has set it up when it reaches
    [if (midiWndw.pb.isCanceled)]. *)
Definition MidiFile_header (contents : string) (halfSpeed : bool) : MidiFile :=
  let timeDivision := getShort contents 12 in
  let '(fps, tpb) :=
    if negb (JS.band timeDivision 0x8000 =? 0)
    then (Some (JS.band timeDivision 0x7fff), None)
    else (None, Some (JS.ofInt timeDivision)) in
  let timeDivision :=
    if halfSpeed then (JS.ofInt timeDivision / JS.ofZ 2)%js
    else JS.ofInt timeDivision in
  mkMidiFile (Some 500000) (Some 4) 4 (Some 24) (Some 8)
    contents (strlen contents) (isMidi contents)
    (getShort contents 8) (getShort contents 10) timeDivision fps tpb
    0 0 0 [] [] ∅ [] [] [].

(** [new MidiFile(filePath)]: [contents] is what [readFile] returned,
    [halfSpeed] the value of the half-speed checkbox and [canceled] that
    of the progress bar's flag. *)
Definition MidiFile_new (contents : string) (halfSpeed canceled : bool)
    : outcome MidiFile :=
  let m := MidiFile_header contents halfSpeed in
  if canceled then Returns m
  else
    let* (m, _) :=
      chunks_while (Z.to_nat (fileLength m - 14)) (mkScanState (Some 14) 0) m in
    Returns (set_notes (sortNotes (store m) (notes m)) m).

(** A sequence of calls of the public method [addNote] on one object. *)
Record addNoteCall := mkCall {
  call_time : JS.number;
  call_beats : JS.number;
  call_channel : Z;
  call_pitch : option Z;
  call_vel : option Z
}.

Fixpoint addNotes (calls : list addNoteCall) (m : MidiFile) : outcome MidiFile :=
  match calls with
  | [] => Returns m
  | c :: calls' =>
      let* (m, _) := addNote (call_time c) (call_beats c) (call_channel c)
                       (call_pitch c) (call_vel c) m in
      addNotes calls' m
  end.

(* ================================================================== *)
(** * [createBpmMap]                                                   *)
(* ================================================================== *)

(** [s.split(".")]. *)
Fixpoint splitDot (s : string) : list string :=
  match s with
  | EmptyString => [EmptyString]
  | String c s' =>
      if Ascii.eqb c "."%char then EmptyString :: splitDot s'
      else match splitDot s' with
           | seg :: segs => String c seg :: segs
           | [] => [String c EmptyString]
           end
  end.

(** [midiCustomSettings.bpmChangeThreshold]: the number, and the string
    that [toString] gives for it (the conversion of a double to its
    decimal notation is not modelled). *)
Record Threshold := mkThreshold {
  thr_value : JS.number;
  thr_toString : string
}.

(** [Number.prototype.countDecimals]: the second piece of the decimal
    notation is missing when the notation has no point, and then
    [.length] throws. *)
Definition countDecimals (thr : Threshold) : outcome Z :=
  if JS.strictEq (JS.floor (thr_value thr)) (thr_value thr) then Returns 0
  else match splitDot (thr_toString thr) with
       | _ :: frac :: _ => Returns (Z.of_nat (String.length frac))
       | _ => TypeError
       end.

(** ** Doubles

    [createBpmMap] decides which entries it keeps by comparing
    differences of rounded numbers with the threshold, and the rounding
    of the doubles decides such a comparison when the difference lies at
    the threshold.  The function is therefore embedded on IEEE 754
    binary64 numbers: [spec_float], the specification of floating-point
    arithmetic of the Standard Library, at precision 53 and maximal
    exponent 1024, every operation rounding to nearest, ties to even. *)
Module Double.

Definition prec : Z := 53.
Definition emax : Z := 1024.

Definition number : Type := spec_float.

Definition NaN : number := S754_nan.

(** The double nearest to an integer. *)
Definition ofZ (z : Z) : number := binary_normalize prec emax z 0 false.

Definition ofInt (i : option Z) : number :=
  match i with Some z => ofZ z | None => NaN end.

Definition add : number -> number -> number := SFadd prec emax.
Definition sub : number -> number -> number := SFsub prec emax.
Definition mul : number -> number -> number := SFmul prec emax.
Definition div : number -> number -> number := SFdiv prec emax.

(** [Math.abs]. *)
Definition abs : number -> number := SFabs.

(** [a >= b]: false as soon as one side is [NaN]. *)
Definition ge (a b : number) : bool :=
  match SFcompare a b with
  | Some Eq | Some Gt => true
  | _ => false
  end.

(** [Math.round]: the nearest integer, a half going up;
    [floor(m * 2^e + 1/2)] for a double [m * 2^e] with [e < 0], and a
    zero of the sign of the argument when that integer is 0.  A double
    with [e >= 0] is an integer already. *)
Definition round (a : number) : number :=
  match a with
  | S754_finite s m e =>
      if 0 <=? e then a
      else binary_normalize prec emax
             ((2 * cond_Zopp s (Zpos m) + 2 ^ (- e)) / 2 ^ (- e + 1)) 0 s
  | _ => a
  end.

(** The double nearest to a number of the exact embedding: the
    quotient of its numerator by its denominator, rounded once. *)
Definition ofNumber (a : JS.number) : number :=
  match a with
  | JS.NaN => NaN
  | JS.Inf s => S754_infinity s
  | JS.Fin q =>
      match Qnum (this q) with
      | Z0 => S754_zero false
      | Zpos n =>
          div (S754_finite false n 0) (S754_finite false (Qden (this q)) 0)
      | Zneg n =>
          div (S754_finite true n 0) (S754_finite false (Qden (this q)) 0)
      end
  end.

(** The value of a double, in the exact embedding. *)
Definition toNumber (a : number) : JS.number :=
  match a with
  | S754_nan => JS.NaN
  | S754_infinity s => JS.Inf s
  | S754_zero _ => JS.ofZ 0
  | S754_finite s m e =>
      JS.Fin (Q2Qc (if 0 <=? e
                    then inject_Z (cond_Zopp s (Zpos m) * 2 ^ e)
                    else Qmake (cond_Zopp s (Zpos m)) (Z.to_pos (2 ^ (- e)))))
  end.

(** [getTime] on doubles: the state of the [while] loop, one turn of
    its body and the loop, as in the exact embedding.  Ticks are
    integers below 2^53. *)
Record getTime_state := mkGetTime {
  gt_seconds : number;
  gt_currentMicrosecondsPerQuarterNote : number;
  gt_tickCounter : Z;
  gt_prevTickCounter : Z;
  gt_index : nat
}.

Definition getTime_body (tm : list Tempo) (td : number) (targetTick : Z)
    (s : getTime_state) : getTime_state :=
  let index := gt_index s in
  let '(cur, tickCounter, index) :=
    match tm !! index with
    | Some tempo =>
        let cur := ofInt (tempo_microsecondsPerQuarterNote tempo) in
        let tickCounter :=
          match tm !! (index + 1)%nat with
          | None => targetTick
          | Some next =>
              if targetTick <=? tempo_tick next then targetTick
              else tempo_tick next
          end in
        (cur, tickCounter, (index + 1)%nat)
    | None => (gt_currentMicrosecondsPerQuarterNote s, targetTick, index)
    end in
  let deltaTickCounter := tickCounter - gt_prevTickCounter s in
  let seconds :=
    add (gt_seconds s)
      (div (div (mul cur (ofZ deltaTickCounter)) td) (ofZ 1000000)) in
  mkGetTime seconds cur tickCounter tickCounter index.

Fixpoint getTime_while (fuel : nat) (tm : list Tempo) (td : number)
    (targetTick : Z) (s : getTime_state) : getTime_state :=
  match fuel with
  | O => s
  | S fuel' =>
      if gt_tickCounter s <? targetTick
      then getTime_while fuel' tm td targetTick (getTime_body tm td targetTick s)
      else s
  end.

Definition getTime (m : MidiFile) (targetTick : Z) : number :=
  gt_seconds
    (getTime_while (S (length (tempoMap m))) (tempoMap m)
       (ofNumber (timeDivision m)) targetTick
       (mkGetTime (ofZ 0) (ofZ 500000) 0 0 0%nat)).

End Double.

(** [Math.round(bpm)] when [decimalPlaces == 0], else
    [Math.round(bpm * amountOfDecimals) / amountOfDecimals], where
    [amountOfDecimals] is [Math.pow(10, decimalPlaces)], a power of ten
    that is a double itself for the numbers of decimals that the notation
    of a double can have. *)
Definition roundBpm (decimalPlaces : Z) (bpm : Double.number) : Double.number :=
  let amountOfDecimals := Double.ofZ (10 ^ decimalPlaces) in
  if decimalPlaces =? 0 then Double.round bpm
  else Double.div (Double.round (Double.mul bpm amountOfDecimals))
         amountOfDecimals.

(** The [for] loop of [createBpmMap] from turn [i] on, [rest] being
    [tempoMap[i..]]; [canceledAt i] is the value of
    [midiWndw.pb.isCanceled] when turn [i] polls it.  At turn 0
    [bpmMap[0]] is still undefined and [Math.round] makes it [NaN].  The
    entries of the map hold the values of the doubles that the loop
    computes, and the loop reads the BPM of the last entry back as that
    double. *)
Fixpoint createBpmMap_for (m : MidiFile) (thr : Threshold) (decimalPlaces : Z)
    (canceledAt : nat -> bool) (i : nat) (rest : list Tempo) (bpmMap : list BPM)
    : outcome (list BPM) :=
  match rest with
  | [] => Returns bpmMap
  | tempo :: rest' =>
      let second := Double.getTime m (tempo_tick tempo) in
      let bpm :=
        Double.div (Double.ofZ 60000000)
          (Double.ofInt (tempo_microsecondsPerQuarterNote tempo)) in
      let* thresholdCurrent :=
        match i with
        | O => Returns (roundBpm decimalPlaces Double.NaN)
        | S _ =>
            match last bpmMap with
            | Some b =>
                Returns (roundBpm decimalPlaces (Double.ofNumber (bpm_bpm b)))
            | None => TypeError
            end
        end in
      let thresholdNext := roundBpm decimalPlaces bpm in
      let bpmMap :=
        if Nat.eqb i 0
           || Double.ge (Double.abs (Double.sub thresholdNext thresholdCurrent))
                (Double.ofNumber (thr_value thr))
        then bpmMap ++ [mkBPM (Double.toNumber second)
                          (Double.toNumber (roundBpm decimalPlaces bpm))
                          (tempo_microsecondsPerQuarterNote tempo)]
        else bpmMap in
      if canceledAt i then Returns bpmMap
      else createBpmMap_for m thr decimalPlaces canceledAt (S i) rest' bpmMap
  end.

Definition createBpmMap (midiFile : MidiFile) (thr : Threshold)
    (canceledAt : nat -> bool) : outcome (list BPM) :=
  let* decimalPlaces := countDecimals thr in
  createBpmMap_for midiFile thr decimalPlaces canceledAt 0 (tempoMap midiFile) [].

(* ================================================================== *)
(** * Notions used to state the properties                             *)
(* ================================================================== *)

(** [String.fromCharCode] over a list of byte values, to write files. *)
Definition fromCharCodes (l : list Z) : string :=
  fold_right (fun z s => String (ascii_of_N (Z.to_N z)) s) EmptyString l.

Definition isByte (x : Z) : Prop := 0 <= x < 256.

(** The bytes found in [s] from [off] on. *)
Definition bytesAt (s : string) (off : Z) (l : list Z) : Prop :=
  forall i x, l !! i = Some x -> charCodeAt s (off + Z.of_nat i) = Some x.

(** One step of the accumulation of a variable-length quantity. *)
Definition vlqStep (result x : Z) : Z := result * 128 + Z.land x 0x7f.

(** The standard encoding of a quantity, to state the round trip (the
    reader itself has no encoder): seven bits per byte, the most
    significant group first, the high bit set on every byte but the
    last. *)
Fixpoint vlqHigh (fuel : nat) (n : Z) : list Z :=
  match fuel with
  | O => []
  | S fuel' =>
      if n =? 0 then []
      else vlqHigh fuel' (n / 128) ++ [Z.lor (n mod 128) 0x80]
  end.

Definition vlqEncode (n : Z) : list Z :=
  vlqHigh (Z.to_nat (Z.log2 n) + 1) (n / 128) ++ [n mod 128].

(** ** Notes *)

(** The note [note2] once [addNote] has given it its duration. *)
Definition resolved (time beats : JS.number) (note2 : Note) : Note :=
  mkNote (note_time note2) (note_beats note2) (note_channel note2)
    (note_pitch note2) (note_vel note2)
    (Some (time - note_time note2)%js) (Some (beats - note_beats note2)%js).

(** A note-on of the pitch: velocity above zero, same pitch. *)
Definition isNoteOnOf (h : list Note) (pitch : option Z) (r : nat) : bool :=
  match h !! r with
  | Some n => JS.truthyInt (note_vel n) && JS.looseEqInt (note_pitch n) pitch
  | None => false
  end.

(** The same with the duration still unset, as the specification words
    it. *)
Definition isOpenNoteOnOf (h : list Note) (pitch : option Z) (r : nat) : bool :=
  match h !! r with
  | Some n => JS.truthyInt (note_vel n) && JS.looseEqInt (note_pitch n) pitch
              && bool_decide (note_durTime n = None)
  | None => false
  end.

(** The nearest preceding entry of a channel's list that satisfies [p]:
    the first one met from the newest entry backward. *)
Definition nearest (p : nat -> bool) (chNotes : list nat) : option nat :=
  List.find p (rev chNotes).

(** The notes of a channel ([[]] for a channel that does not exist
    yet). *)
Definition notesOf (m : MidiFile) (channel : Z) : list nat :=
  match channels m !! channel with
  | Some c => ch_notes c
  | None => []
  end.

(** The references held by the channels point into the store. *)
Definition refsValid (m : MidiFile) : Prop :=
  forall k c r, channels m !! k = Some c -> r ∈ ch_notes c ->
                (r < length (store m))%nat.

Definition resolveAt (time beats : JS.number) (h : list Note) (o : option nat)
    : list Note :=
  match o with
  | Some r =>
      match h !! r with
      | Some n => <[r := resolved time beats n]> h
      | None => h
      end
  | None => h
  end.

(** What a note-off does to the store, for a given reading [sel] of
    "the note-on it ends": the new note is stored without a duration, the
    nearest preceding entry of the channel that [sel] accepts gets its
    duration, and no other note changes. *)
Definition noteOffResolves (sel : list Note -> option Z -> nat -> bool)
    (m : MidiFile) (time beats : JS.number) (channel : Z)
    (pitch vel : option Z) : Prop :=
  forall m' r, addNote time beats channel pitch vel m = Returns (m', r) ->
    store m' !! length (store m) = Some (new_Note time beats channel pitch vel)
    /\ match nearest (sel (store m) pitch) (notesOf m channel) with
       | Some r0 =>
           (exists n0, store m !! r0 = Some n0
                       /\ store m' !! r0 = Some (resolved time beats n0))
           /\ forall r', r' <> r0 -> (r' < length (store m))%nat ->
                         store m' !! r' = store m !! r'
       | None =>
           forall r', (r' < length (store m))%nat -> store m' !! r' = store m !! r'
       end.

(** Only notes with a velocity above zero carry a duration. *)
Definition durationOnlyOnNoteOns (m : MidiFile) : Prop :=
  forall r n, store m !! r = Some n ->
    is_Some (note_durTime n) \/ is_Some (note_durBeats n) ->
    exists v, note_vel n = Some v /\ v <> 0.

(** ** Tempo maps *)

Definition usQ (e : Tempo) : Qc :=
  Qc_of_Z (default 0 (tempo_microsecondsPerQuarterNote e)).

(** The seconds that [delta] ticks last at [u] microseconds per quarter
    note. *)
Definition segQ (u : Qc) (delta : Z) (D : Qc) : Qc :=
  (u * Qc_of_Z delta / D / Qc_of_Z 1000000)%Qc.

Definition nextStop (rest : list Tempo) (target : Z) : Z :=
  match rest with
  | [] => target
  | next :: _ => if target <=? tempo_tick next then target else tempo_tick next
  end.

(** The seconds that [getTime] adds from a turn entered at tick [tc] with
    [rest] the tempo changes not yet visited, as a rational. *)
Fixpoint elapsedFrom (rest : list Tempo) (D cur : Qc) (tc target : Z) : Qc :=
  if tc <? target then
    match rest with
    | [] => segQ cur (target - tc) D
    | e :: rest' =>
        let tc' := nextStop rest' target in
        (segQ (usQ e) (tc' - tc) D + elapsedFrom rest' D (usQ e) tc' target)%Qc
    end
  else 0%Qc.

Definition allDefined (tm : list Tempo) : Prop :=
  Forall (fun e => is_Some (tempo_microsecondsPerQuarterNote e)) tm.

Fixpoint ascending (tm : list Tempo) : Prop :=
  match tm with
  | a :: (b :: _) as rest => tempo_tick a < tempo_tick b /\ ascending rest
  | _ => True
  end.

Definition positiveTempo (e : Tempo) : Prop :=
  exists u, tempo_microsecondsPerQuarterNote e = Some u /\ 0 < u.

(** A tempo map as a well-formed file gives it: ticks are sums of
    variable-length quantities, hence not negative; they ascend strictly
    and every tempo is positive. *)
Definition tempoMap_valid (tm : list Tempo) : Prop :=
  Forall (fun e => 0 <= tempo_tick e) tm /\ Forall positiveTempo tm /\ ascending tm.

Definition stopBound (rest : list Tempo) (tc : Z) : Prop :=
  match rest with
  | _ :: next :: _ => tc <= tempo_tick next
  | _ => True
  end.

(** [a <= b] on numbers. *)
Definition numLe (a b : JS.number) : Prop := JS.ge b a = true.

(** The tempo map read as the specification has it: a tempo of 500000
    microseconds per quarter note leads from tick 0 when the first entry
    lies later. *)
Definition leadingDefaultTempo (tm : list Tempo) (td : JS.number) : Prop :=
  forall e rest, tm = e :: rest -> 0 < tempo_tick e ->
  forall targetTick,
    getTime_on tm td targetTick
    = getTime_on (mkTempo 0 (Some 500000) :: tm) td targetTick.

(** ** The BPM map as the specification has it *)

(** The entry that a tempo change gives. *)
Definition bpmEntry (m : MidiFile) (decimalPlaces : Z) (tempo : Tempo) : BPM :=
  mkBPM (Double.toNumber (Double.getTime m (tempo_tick tempo)))
    (Double.toNumber
       (roundBpm decimalPlaces
          (Double.div (Double.ofZ 60000000)
             (Double.ofInt (tempo_microsecondsPerQuarterNote tempo)))))
    (tempo_microsecondsPerQuarterNote tempo).

(** Keep an entry if and only if its rounded BPM is at least the
    threshold away from the BPM of the last kept entry, the difference
    being that of the numbers themselves. *)
Fixpoint keepFrom (threshold : JS.number) (lastKept : JS.number)
    (entries : list BPM) : list BPM :=
  match entries with
  | [] => []
  | b :: entries' =>
      if JS.ge (JS.abs (bpm_bpm b - lastKept)%js) threshold
      then b :: keepFrom threshold (bpm_bpm b) entries'
      else keepFrom threshold lastKept entries'
  end.

(** Always keep the first entry. *)
Definition keptEntries (threshold : JS.number) (entries : list BPM) : list BPM :=
  match entries with
  | [] => []
  | b :: entries' => b :: keepFrom threshold (bpm_bpm b) entries'
  end.

(** ** Objects up to the stored file *)

Definition withFile (f : string) (flag : bool) (m : MidiFile) : MidiFile :=
  mkMidiFile (microsecondsPerQuarterNote m) (timeSignatureNumerator m)
    (timeSignatureDenominator m) (timeSignatureMetronomeInterval m)
    (timeSignatureHemiDemiSemiNotesPerQuarterNote m) f (fileLength m)
    flag (format m) (trackCount m) (timeDivision m)
    (framesPerSecond m) (ticksPerBeat m) (chunkCount m) (noteOns m)
    (noteOffs m) (store m) (notes m) (channels m) (tracks m) (tempoMap m)
    (timeSignatureMap m).

Definition omap {A B} (f : A -> B) (c : outcome A) : outcome B :=
  match c with
  | Returns a => Returns (f a)
  | TypeError => TypeError
  end.

(** Two files of the same length that differ at most in their first
    four bytes. *)
Definition sameAfterSignature (f1 f2 : string) : Prop :=
  strlen f1 = strlen f2
  /\ (forall off, 4 <= off -> charCodeAt f1 off = charCodeAt f2 off)
  /\ (forall a b, 4 <= a -> substring f1 a b = substring f2 a b).

(** ** Sample objects *)

(** The header chunk of a format-0 file with one track and 480 ticks per
    quarter note. *)
Definition header480 : list Z :=
  [77; 84; 104; 100; 0; 0; 0; 6; 0; 0; 0; 1; 1; 224].

(** An object whose first track is allocated and still empty. *)
Definition oneTrackObject : MidiFile :=
  set_tracks [new_Track] (MidiFile_header (fromCharCodes header480) false).

(** Two note-ons of pitch 60 on channel 0, at seconds 0 and 1, and a
    note-off at second 2. *)
Definition overlapCalls : list addNoteCall :=
  [mkCall (JS.ofZ 0) (JS.ofZ 0) 0 (Some 60) (Some 100);
   mkCall (JS.ofZ 1) (JS.ofZ 2) 0 (Some 60) (Some 100);
   mkCall (JS.ofZ 2) (JS.ofZ 4) 0 (Some 60) (Some 0)].

Definition overlapState : MidiFile :=
  match addNotes overlapCalls oneTrackObject with
  | Returns m => m
  | TypeError => oneTrackObject
  end.

(** Tempo changes of 120, 120.3 (to one decimal), 121 and 125 beats per
    minute in a file of 480 ticks per quarter note, and the threshold
    0.5. *)
Definition sampleTempoMap : list Tempo :=
  [mkTempo 0 (Some 500000); mkTempo 480 (Some 498753);
   mkTempo 960 (Some 495868); mkTempo 1440 (Some 480000)].

Definition sampleTempoObject : MidiFile :=
  set_tempo (Some 480000) sampleTempoMap
    (MidiFile_header (fromCharCodes header480) false).

Definition threshold05 : Threshold :=
  mkThreshold (JS.Fin (Q2Qc (1 # 2))) "0.5".

(** Two tempo changes, of 469851 and of 468019 microseconds per quarter
    note: 127.7 and 128.2 beats per minute to one decimal. *)
Definition boundaryTempoMap : list Tempo :=
  [mkTempo 0 (Some 469851); mkTempo 480 (Some 468019)].

Definition boundaryTempoObject : MidiFile :=
  set_tempo (Some 468019) boundaryTempoMap
    (MidiFile_header (fromCharCodes header480) false).

(** A file of 480 ticks per quarter note whose only tempo event, of
    1000000 microseconds per quarter note, lies at tick 480: a note-on of
    pitch 60 at tick 240, the tempo event at tick 480 and, after it, the
    note-off at tick 480. *)
Definition lateTempoTrack : list Z :=
  [77; 84; 114; 107; 0; 0; 0; 21;
   129; 112; 144; 60; 100;
   129; 112; 255; 81; 3; 15; 66; 64;
   0; 128; 60; 0;
   0; 255; 47; 0].

Definition lateTempoFile : string :=
  fromCharCodes (header480 ++ lateTempoTrack).

(** What the constructor reads from the header and never writes again. *)
Definition headerFields (m : MidiFile) :=
  (file m, fileLength m, isMidiFlag m, format m, trackCount m,
   timeDivision m, framesPerSecond m, ticksPerBeat m).

(** ** Progress of the loops *)

(** A turn of the loop over the events leaves the cursor at least two
    bytes further, or undefined. *)
Definition movedOn (off : Z) (s' : track_state) : Prop :=
  match chunkOffset s' with
  | Some o => off + 2 <= o
  | None => True
  end.

(** The fuel covers the bytes between a cursor and its end. *)
Definition fuelCovers (fuel : nat) (cursor : option Z) (stop : option Z) : Prop :=
  match cursor, stop with
  | Some o, Some e => e - o <= Z.of_nat fuel
  | _, _ => True
  end.

(** A cursor that has left the four bytes of the signature behind. *)
Definition cursorAfterSignature (cursor : option Z) : Prop :=
  match cursor with
  | Some o => 4 <= o
  | None => True
  end.

(** ** Sample files *)

(** A track chunk: a tempo of 500000 at tick 0, a note-on of pitch 60 at
    tick 0, its note-off at tick 480, the end of the track. *)
Definition noteTrack : list Z :=
  [77; 84; 114; 107; 0; 0; 0; 20;
   0; 255; 81; 3; 7; 161; 32;
   0; 144; 60; 100;
   131; 96; 128; 60; 0;
   0; 255; 47; 0].

(** The same file once with the signature [XXXX] and once with [MThd]. *)
Definition badSignatureFile : string :=
  fromCharCodes ([88; 88; 88; 88] ++ drop 4 header480 ++ noteTrack).




(** A track chunk that opens with a system-exclusive event of one data
    byte, under the given status byte, before a note-on of pitch 60. *)
Definition sysexTrack (status : Z) : list Z :=
  [77; 84; 114; 107; 0; 0; 0; 8;
   0; status; 1; 0;
   0; 144; 60; 100].

Definition sysexFile (status : Z) : string :=
  fromCharCodes (header480 ++ sysexTrack status).

(** A track chunk that opens with the system-exclusive message "GM
    system on", [F0 05 7E 7F 09 01 F7], before a note-on of pitch 60. *)
Definition gmResetTrack : list Z :=
  [77; 84; 114; 107; 0; 0; 0; 12;
   0; 240; 5; 126; 127; 9; 1; 247;
   0; 144; 60; 100].

Definition gmResetFile : string :=
  fromCharCodes (header480 ++ gmResetTrack).

(** ** The two claims on the constructor as the specification has them *)

(** A file without the signature produces nothing: no chunk is scanned,
    and no track, note, tempo or time signature is recorded. *)
Definition failsFast (contents : string) (halfSpeed canceled : bool) : Prop :=
  forall m, MidiFile_new contents halfSpeed canceled = Returns m ->
    chunkCount m = 0 /\ tracks m = [] /\ store m = [] /\ notes m = []
    /\ tempoMap m = [] /\ timeSignatureMap m = [].


(** ** What holds of every object the reader builds *)

(** Ticks are sums of variable-length quantities. *)
Definition ticksNotNegative (m : MidiFile) : Prop :=
  Forall (fun e => 0 <= tempo_tick e) (tempoMap m).

Definition wellFormed (m : MidiFile) : Prop :=
  durationOnlyOnNoteOns m /\ refsValid m /\ ticksNotNegative m.

(* ================================================================== *)
(** * The rest of the reader and the layout of the notes              *)
(* ================================================================== *)

(** What follows embeds the functions of [midi_visualizer.jsx] that turn
    the objects of the reader into positions on the screen, and the one
    method of the reader left so far, [getTempo].  The calls into After
    Effects are kept as the values they are given: a key frame is the
    record of one call of [setValueAtTime]. *)

(** ** [getTempo] *)

(** The [for] loop of [getTempo] over [tempoMap[i..]]: [break] leaves
    with the tempo of the turn. *)
Fixpoint getTempo_for (rest : list Tempo) (tick : Z) (result : option Z)
    : option Z :=
  match rest with
  | [] => result
  | tempo :: rest' =>
      let result := tempo_microsecondsPerQuarterNote tempo in
      if tempo_tick tempo <? tick then
        match rest' with
        | next :: _ =>
            if tick <=? tempo_tick next then result
            else getTempo_for rest' tick result
        | [] => getTempo_for rest' tick result
        end
      else getTempo_for rest' tick result
  end.

Definition getTempo (m : MidiFile) (tick : Z) : option Z :=
  getTempo_for (tempoMap m) tick (Some 500000).

(** ** The settings *)

(** The fields of [midiCustomSettings] that the embedded functions read.
    The sizes and offsets come from [parseInt] and [parseFloat]; the
    bottom pitch is the start of a counting loop, hence an integer or
    [NaN]. *)
Record MidiCustomSettings := mkSettings {
  noteHitXOffset : JS.number;
  pitchBottomThreshold : option Z;
  whiteNoteSize : JS.number;
  blackNoteSize : JS.number;
  speedPerSecond : JS.number;
  bpmBasedSpeed : bool;
  trailingDuration : JS.number
}.

(** The values that the constructor [MidiCustomSettings] sets. *)
Definition new_MidiCustomSettings : MidiCustomSettings :=
  mkSettings (JS.ofZ 128) (Some 21) (JS.ofZ 10) (JS.ofZ 6) (JS.ofZ 192) true
    (JS.Fin (Q2Qc (5 # 2))).

(** ** [getLatestMidiNote] *)

(** [notes[i]] of a [MidiFile]: the object that the reference names. *)
Definition noteAt (m : MidiFile) (i : nat) : option Note :=
  match notes m !! i with
  | Some r => store m !! r
  | None => None
  end.

(** [while (noteDur == undefined)] with its [break] at [noteIndex < 0];
    [k] is [noteIndex + 1].  [noteTime] and [noteDur] are variables of
    the whole function: they are [undefined] (here [None]) until a turn
    assigns them, and they keep their values from one file to the
    next. *)
Fixpoint lastDuration_while (m : MidiFile) (k : nat)
    (noteTime noteDur : option JS.number)
    : outcome (option JS.number * option JS.number) :=
  match k with
  | O => Returns (noteTime, noteDur)
  | S i =>
      match noteDur with
      | Some _ => Returns (noteTime, noteDur)
      | None =>
          match noteAt m i with
          | Some note =>
              lastDuration_while m i (Some (note_time note)) (note_durTime note)
          | None => TypeError
          end
      end
  end.

(** [noteTime + noteDur]: [NaN] as soon as one of them is undefined. *)
Definition addUndefined (a b : option JS.number) : JS.number :=
  match a, b with
  | Some x, Some y => (x + y)%js
  | _, _ => JS.NaN
  end.

(** [if (latestMidiNote < noteTime + noteDur) latestMidiNote = ...]. *)
Definition raiseLatest (latestMidiNote : JS.number)
    (noteTime noteDur : option JS.number) : JS.number :=
  if JS.lt latestMidiNote (addUndefined noteTime noteDur)
  then addUndefined noteTime noteDur
  else latestMidiNote.

(** The [for] loop over an array of files. *)
Fixpoint getLatestMidiNote_for (midiFiles : list MidiFile)
    (latestMidiNote : JS.number) (noteTime noteDur : option JS.number)
    : outcome JS.number :=
  match midiFiles with
  | [] => Returns latestMidiNote
  | f :: midiFiles' =>
      if Nat.eqb (length (notes f)) 0
      then getLatestMidiNote_for midiFiles' latestMidiNote noteTime noteDur
      else
        let* (noteTime, noteDur) :=
          lastDuration_while f (length (notes f)) noteTime noteDur in
        getLatestMidiNote_for midiFiles'
          (raiseLatest latestMidiNote noteTime noteDur) noteTime noteDur
  end.

(** The argument of [getLatestMidiNote]: an array of files, or one
    file. *)
Inductive midiFilesArg :=
| FileArray (midiFiles : list MidiFile)
| OneFile (midiFile : MidiFile).

Definition getLatestMidiNote (settings : MidiCustomSettings)
    (midiFiles : midiFilesArg) : outcome JS.number :=
  let* latestMidiNote :=
    match midiFiles with
    | FileArray l => getLatestMidiNote_for l (JS.ofZ 0) None None
    | OneFile m =>
        let* (noteTime, noteDur) :=
          lastDuration_while m (length (notes m)) None None in
        Returns (raiseLatest (JS.ofZ 0) noteTime noteDur)
    end in
  Returns (latestMidiNote + trailingDuration settings)%js.

(** ** [getXPositionAndWidthOfNote] *)

(** A loop that may not end: [None] when the fuel has run out. *)
Definition loop (A : Type) : Type := option (outcome A).

Definition lbind {A B} (c : loop A) (k : A -> loop B) : loop B :=
  match c with
  | Some (Returns a) => k a
  | Some TypeError => Some TypeError
  | None => None
  end.

(** The pixels covered in [deltaSeconds] at [currentBpm]. *)
Definition deltaPosition (settings : MidiCustomSettings)
    (currentBpm deltaSeconds : JS.number) : JS.number :=
  let speedMultiplier := (currentBpm / JS.ofZ 120)%js in
  (deltaSeconds * (speedPerSecond settings * speedMultiplier))%js.

(** The variables of the two [while] loops: the sum ([currentPosition]
    in the first loop, [currentWidth] in the second), [currentSecond]
    and [bpmIndex]. *)
Record advance_state := mkAdvance {
  av_sum : JS.number;
  av_currentSecond : JS.number;
  av_bpmIndex : nat
}.

(** The two loops [while (currentSecond != target)], which are the same
    text up to the names of the sum and of the target ([startTime], then
    [noteEndTime]).  A turn either moves [bpmIndex] forward or sets
    [currentSecond] to the target. *)
Fixpoint advance_while (fuel : nat) (settings : MidiCustomSettings)
    (bpmMap : list BPM) (target : JS.number) (s : advance_state)
    : loop advance_state :=
  match fuel with
  | O => None
  | S fuel' =>
      if JS.strictEq (av_currentSecond s) target then Some (Returns s)
      else
        match bpmMap !! av_bpmIndex s with
        | None => Some TypeError
        | Some b =>
            let currentBpm := bpm_bpm b in
            let turn newSecond bpmIndex :=
              let deltaSeconds := (newSecond - av_currentSecond s)%js in
              mkAdvance
                (av_sum s + deltaPosition settings currentBpm deltaSeconds)%js
                newSecond bpmIndex in
            match bpmMap !! (av_bpmIndex s + 1)%nat with
            | Some next =>
                if JS.lt (bpm_second next) target
                then advance_while fuel' settings bpmMap target
                       (turn (bpm_second next) (av_bpmIndex s + 1)%nat)
                else advance_while fuel' settings bpmMap target
                       (turn target (av_bpmIndex s))
            | None =>
                advance_while fuel' settings bpmMap target
                  (turn target (av_bpmIndex s))
            end
        end
  end.

(** Fuel for a loop entered at [bpmIndex = 0] or later: one turn for
    each entry of the map, one more to reach the target, and the test
    that ends the loop. *)
Definition advanceFuel (bpmMap : list BPM) : nat := S (S (length bpmMap)).

Definition getXPositionAndWidthOfNote (settings : MidiCustomSettings)
    (startTime noteDur : JS.number) (bpmMap : list BPM)
    : loop (JS.number * JS.number) :=
  if bpmBasedSpeed settings then
    lbind (advance_while (advanceFuel bpmMap) settings bpmMap startTime
             (mkAdvance (JS.ofZ 0) (JS.ofZ 0) 0%nat))
      (fun s1 =>
         let noteEndTime := (startTime + noteDur)%js in
         lbind (advance_while (advanceFuel bpmMap) settings bpmMap noteEndTime
                  (mkAdvance (JS.ofZ 0) (av_currentSecond s1) (av_bpmIndex s1)))
           (fun s2 =>
              Some (Returns ((noteHitXOffset settings + av_sum s1)%js,
                             av_sum s2))))
  else
    Some (Returns ((noteHitXOffset settings
                    + startTime * speedPerSecond settings)%js,
                   (noteDur * speedPerSecond settings)%js)).

(** ** [getYPositionAndHeightOfKey] and [isBlackNote] *)

(** One turn of the [for] loop: [switch (i % 12)]. *)
Definition keyStep (settings : MidiCustomSettings) (i : Z)
    (position : JS.number) : JS.number :=
  let w := whiteNoteSize settings in
  let b := blackNoteSize settings in
  match Z.rem i 12 with
  | 0 => (position + w)%js
  | 1 => (position + (w / JS.ofZ 2 + b / JS.ofZ 2))%js
  | 2 => (position + (b / JS.ofZ 2 + w / JS.ofZ 2))%js
  | 3 => (position + (w / JS.ofZ 2 + b / JS.ofZ 2))%js
  | 4 => (position + (b / JS.ofZ 2 + w / JS.ofZ 2))%js
  | 5 => (position + w)%js
  | 6 => (position + (w / JS.ofZ 2 + b / JS.ofZ 2))%js
  | 7 => (position + (b / JS.ofZ 2 + w / JS.ofZ 2))%js
  | 8 => (position + (w / JS.ofZ 2 + b / JS.ofZ 2))%js
  | 9 => (position + (b / JS.ofZ 2 + w / JS.ofZ 2))%js
  | 10 => (position + (w / JS.ofZ 2 + b / JS.ofZ 2))%js
  | 11 => (position + (b / JS.ofZ 2 + w / JS.ofZ 2))%js
  | _ => position
  end.

(** [for (i = ...; i <= pitch; i++)]: the loop takes [pitch - i + 1]
    turns when that is positive, which is the fuel it is given. *)
Fixpoint keyPosition_for (fuel : nat) (settings : MidiCustomSettings)
    (pitch i : Z) (position : JS.number) : JS.number :=
  match fuel with
  | O => position
  | S fuel' =>
      if i <=? pitch
      then keyPosition_for fuel' settings pitch (i + 1)
             (keyStep settings i position)
      else position
  end.

(** [switch (pitch % 12)] for the height. *)
Definition keyHeight (settings : MidiCustomSettings) (pitch : Z) : JS.number :=
  let w := whiteNoteSize settings in
  let b := blackNoteSize settings in
  match Z.rem pitch 12 with
  | 0 => w | 1 => b | 2 => w | 3 => b | 4 => w | 5 => w
  | 6 => b | 7 => w | 8 => b | 9 => w | 10 => b | 11 => w
  | _ => JS.ofZ 0
  end.

(** A pitch read past the end of the file is [NaN]: no comparison and no
    [case] holds of it. *)
Definition getYPositionAndHeightOfKey (settings : MidiCustomSettings)
    (pitch : option Z) : JS.number * JS.number :=
  match pitch with
  | Some p =>
      let position :=
        match pitchBottomThreshold settings with
        | Some bottom =>
            keyPosition_for (Z.to_nat (p - bottom + 1)) settings p bottom
              (JS.ofZ 0)
        | None => JS.ofZ 0
        end in
      (position, keyHeight settings p)
  | None => (JS.ofZ 0, JS.ofZ 0)
  end.

(** [isBlackNote]: [undefined] (here [None]) when no [case] holds. *)
Definition isBlackNote (pitch : option Z) : option bool :=
  match pitch with
  | Some p =>
      match Z.rem p 12 with
      | 0 => Some false | 1 => Some true | 2 => Some false | 3 => Some true
      | 4 => Some false | 5 => Some false | 6 => Some true | 7 => Some false
      | 8 => Some true | 9 => Some false | 10 => Some true | 11 => Some false
      | _ => None
      end
  | None => None
  end.

(** ** [createTimeSignatureMap] *)

Definition set_timeSignatureMap (tsm : list TimeSignature) (m : MidiFile)
    : MidiFile :=
  set_timeSignature (timeSignatureNumerator m) (timeSignatureDenominator m)
    (timeSignatureMetronomeInterval m)
    (timeSignatureHemiDemiSemiNotesPerQuarterNote m) tsm m.

Definition withSecond (second : JS.number) (ts : TimeSignature) : TimeSignature :=
  mkTimeSignature (ts_tick ts) (ts_numerator ts) (ts_denominator ts)
    (ts_metronomeInterval ts) (ts_hemiDemiSemiNotesPerQuarterNote ts) second.

(** The [for] loop from turn [i] on, [turns] being the turns left; the
    entries are updated in place. *)
Fixpoint createTimeSignatureMap_for (turns i : nat) (midiFile : MidiFile)
    : MidiFile :=
  match turns with
  | O => midiFile
  | S turns' =>
      match timeSignatureMap midiFile !! i with
      | Some ts =>
          let second := getTime midiFile (ts_tick ts) in
          createTimeSignatureMap_for turns' (S i)
            (set_timeSignatureMap
               (<[i := withSecond second ts]> (timeSignatureMap midiFile))
               midiFile)
      | None => midiFile
      end
  end.

(** The result is the object after the call and the array returned,
    which is the object's own. *)
Definition createTimeSignatureMap (midiFile : MidiFile)
    : MidiFile * list TimeSignature :=
  let m := createTimeSignatureMap_for (length (timeSignatureMap midiFile)) 0
             midiFile in
  (m, timeSignatureMap m).

(** ** [addScrollerKeyframes] *)

(** One call of [setValueAtTime(time, [x, y])] on the position of the
    scroller. *)
Record keyframe := mkKeyframe {
  kf_time : JS.number;
  kf_x : JS.number;
  kf_y : JS.number
}.

(** The variables of the loop, and the key frames set so far. *)
Record scroller_state := mkScroller {
  sc_currentSecond : JS.number;
  sc_bpmIndex : nat;
  sc_currentPosition : JS.number;
  sc_keys : list keyframe
}.

(** [while (currentSecond != latestMidiNote)]; [canceledAt turn] is the
    value of [midiWndw.pb.isCanceled] at the end of the turn. *)
Fixpoint scroller_while (fuel : nat) (settings : MidiCustomSettings)
    (compHeight : JS.number) (bpmMap : list BPM) (latestMidiNote : JS.number)
    (canceledAt : nat -> bool) (turn : nat) (s : scroller_state)
    : loop scroller_state :=
  match fuel with
  | O => None
  | S fuel' =>
      if JS.strictEq (sc_currentSecond s) latestMidiNote then Some (Returns s)
      else
        match bpmMap !! sc_bpmIndex s with
        | None => Some TypeError
        | Some b =>
            let currentBPM := bpm_bpm b in
            let newPosition newSecond :=
              let deltaSeconds := (newSecond - sc_currentSecond s)%js in
              (sc_currentPosition s
               + deltaPosition settings currentBPM deltaSeconds
                 * JS.ofZ (-1))%js in
            let key newSecond :=
              mkKeyframe newSecond (newPosition newSecond)
                (compHeight / JS.ofZ 2)%js in
            let stays :=
              mkScroller latestMidiNote (sc_bpmIndex s) (sc_currentPosition s)
                (sc_keys s ++ [key latestMidiNote]) in
            let s' :=
              match bpmMap !! (sc_bpmIndex s + 1)%nat with
              | Some next =>
                  if JS.lt (bpm_second next) latestMidiNote
                  then mkScroller (bpm_second next) (sc_bpmIndex s + 1)%nat
                         (newPosition (bpm_second next))
                         (sc_keys s ++ [key (bpm_second next)])
                  else stays
              | None => stays
              end in
            if canceledAt turn then Some (Returns s')
            else scroller_while fuel' settings compHeight bpmMap latestMidiNote
                   canceledAt (S turn) s'
        end
  end.

(** The result is the key frames set on the scroller, in the order of
    the calls, and whether the alert of a last note at second 0 was
    shown.  [bpmMap[0].bpm] is read before the loop. *)
Definition addScrollerKeyframes (settings : MidiCustomSettings)
    (compHeight : JS.number) (bpmMap : list BPM) (latestMidiNote : JS.number)
    (canceledAt : nat -> bool) : loop (list keyframe * bool) :=
  match bpmMap !! 0%nat with
  | None => Some TypeError
  | Some _ =>
      let alerted := JS.strictEq latestMidiNote (JS.ofZ 0) in
      lbind (scroller_while (advanceFuel bpmMap) settings compHeight bpmMap
               latestMidiNote canceledAt 0
               (mkScroller (JS.ofZ 0) 0%nat (JS.ofZ 0) []))
        (fun s => Some (Returns (sc_keys s, alerted)))
  end.

(* ================================================================== *)
(** * Notions used to state the further properties                     *)
(* ================================================================== *)

(** ** Bytes *)

(** The bytes of a quantity on [width] bytes, the most significant
    first, to state the round trips of the readers (the reader itself
    writes no file). *)
Fixpoint bigEndian (width : nat) (n : Z) : list Z :=
  match width with
  | O => []
  | S w => (n / 256 ^ Z.of_nat w) mod 256 :: bigEndian w n
  end.

(** ** What the constructor keeps *)

(** A note-on: a note with a velocity above zero. *)
Definition isNoteOn (n : Note) : bool := JS.truthyInt (note_vel n).

(** The bookkeeping of the reader: [noteOns] counts the notes with a
    velocity above zero and [noteOffs] the others, [notes] holds every
    note object once, and a track was allocated for some of the chunks
    counted. *)
Definition counted (m : MidiFile) : Prop :=
  noteOns m = Z.of_nat (length (List.filter isNoteOn (store m)))
  /\ noteOffs m
     = Z.of_nat (length (List.filter (fun n => negb (isNoteOn n)) (store m)))
  /\ notes m ≡ₚ seq 0 (length (store m))
  /\ Z.of_nat (length (tracks m)) <= chunkCount m.

(** Two notes that differ at most in their durations. *)
Definition sameNote (n n' : Note) : Prop :=
  note_time n' = note_time n /\ note_beats n' = note_beats n
  /\ note_channel n' = note_channel n /\ note_pitch n' = note_pitch n
  /\ note_vel n' = note_vel n.

(** ** A sample file of two tracks *)

(** The header of a format-1 file of two tracks and 480 ticks per
    quarter note; the first track is [noteTrack]; the second holds, on
    MIDI channel 1, a note-on of pitch 64 at tick 240 and its note-off at
    tick 480. *)
Definition header480x2 : list Z :=
  [77; 84; 104; 100; 0; 0; 0; 6; 0; 1; 0; 2; 1; 224].

Definition secondTrack : list Z :=
  [77; 84; 114; 107; 0; 0; 0; 14;
   129; 112; 145; 64; 100;
   129; 112; 129; 64; 0;
   0; 255; 47; 0].

Definition twoTrackFile : string :=
  fromCharCodes (header480x2 ++ noteTrack ++ secondTrack).

(** The registry of the channels.  Every channel is filed under its own
    index, which is not negative, belongs to the track [index / 16],
    which exists and lists it, and holds notes that exist and name it. *)
Definition channelsFiled (m : MidiFile) : Prop :=
  forall k c, channels m !! k = Some c ->
    ch_index c = k /\ ch_trackIndex c = k / 16 /\ ch_midiChannel c = Z.rem k 16
    /\ 0 <= k
    /\ (exists t, tracks m !! Z.to_nat (k / 16) = Some t /\ k ∈ tr_channels t)
    /\ (forall r, r ∈ ch_notes c ->
                  exists n, store m !! r = Some n /\ note_channel n = k).

(** Every note allocated before [bound] is held by the channel it
    names. *)
Definition notesHeldBelow (bound : nat) (m : MidiFile) : Prop :=
  forall r n, (r < bound)%nat -> store m !! r = Some n ->
    exists c, channels m !! note_channel n = Some c /\ r ∈ ch_notes c.

Definition registered (m : MidiFile) : Prop :=
  channelsFiled m /\ notesHeldBelow (length (store m)) m.

(** ** A sample file that the reader cannot read *)

(** A track that sets the channel prefix 16 and then names an
    instrument: the channel 16 of the first track belongs to a second
    track, which does not exist. *)
Definition prefixTrack : list Z :=
  [77; 84; 114; 107; 0; 0; 0; 10;
   0; 255; 32; 1; 16;
   0; 255; 4; 1; 65].

Definition prefixFile : string := fromCharCodes (header480 ++ prefixTrack).

(** ** Time signatures *)

(** The entry with the second of its tick in the file [midiFile]. *)
Definition stamped (midiFile : MidiFile) (ts : TimeSignature) : TimeSignature :=
  withSecond (getTime midiFile (ts_tick ts)) ts.

(** ** The half-speed checkbox *)

(** A note with its time, its beats and its durations doubled. *)
Definition slowedNote (n : Note) : Note :=
  mkNote (JS.ofZ 2 * note_time n)%js (JS.ofZ 2 * note_beats n)%js
    (note_channel n) (note_pitch n) (note_vel n)
    (option_map (JS.mul (JS.ofZ 2)) (note_durTime n))
    (option_map (JS.mul (JS.ofZ 2)) (note_durBeats n)).

(** An object with its time division halved and its notes slowed. *)
Definition slowed (m : MidiFile) : MidiFile :=
  mkMidiFile (microsecondsPerQuarterNote m) (timeSignatureNumerator m)
    (timeSignatureDenominator m) (timeSignatureMetronomeInterval m)
    (timeSignatureHemiDemiSemiNotesPerQuarterNote m) (file m) (fileLength m)
    (isMidiFlag m) (format m) (trackCount m) (timeDivision m / JS.ofZ 2)%js
    (framesPerSecond m) (ticksPerBeat m) (chunkCount m) (noteOns m)
    (noteOffs m) (map slowedNote (store m)) (notes m) (channels m) (tracks m)
    (tempoMap m) (timeSignatureMap m).

Definition slowedState (s : track_state) : track_state :=
  mkTrackState (previousStatus s) (chunkOffset s) (ticks s)
    (midiChannelPrefix s) (JS.ofZ 2 * seconds s)%js.

(** ** The last note *)

(** Every entry of [notes] names a note object. *)
Definition notesValid (m : MidiFile) : Prop :=
  forall i, (i < length (notes m))%nat -> is_Some (noteAt m i).

(** The last of the first [k] entries of [notes] whose note has a
    duration. *)
Fixpoint lastWithDuration_below (m : MidiFile) (k : nat) : option Note :=
  match k with
  | O => None
  | S i =>
      match noteAt m i with
      | Some n =>
          if bool_decide (is_Some (note_durTime n)) then Some n
          else lastWithDuration_below m i
      | None => lastWithDuration_below m i
      end
  end.

Definition lastWithDuration (m : MidiFile) : option Note :=
  lastWithDuration_below m (length (notes m)).

(** The end of a note, when that is later than second 0, else 0. *)
Definition endOf (n : Note) : JS.number :=
  raiseLatest (JS.ofZ 0) (Some (note_time n)) (note_durTime n).

(** Sample objects: [overlapState], whose last note with a duration ends
    at second 2, and an object whose only note-on ends at second 10. *)
Definition lateCalls : list addNoteCall :=
  [mkCall (JS.ofZ 8) (JS.ofZ 16) 0 (Some 72) (Some 100);
   mkCall (JS.ofZ 10) (JS.ofZ 20) 0 (Some 72) (Some 0)].

Definition lateState : MidiFile :=
  match addNotes lateCalls oneTrackObject with
  | Returns m => m
  | TypeError => oneTrackObject
  end.

(** ** The layout on finite numbers *)

(** A BPM entry whose second and BPM are the finite numbers of [e]. *)
Definition finiteEntry (b : BPM) (e : Qc * Qc) : Prop :=
  bpm_second b = JS.Fin e.1 /\ bpm_bpm b = JS.Fin e.2.

Definition finiteMap (bpmMap : list BPM) (qs : list (Qc * Qc)) : Prop :=
  Forall2 finiteEntry bpmMap qs.

(** The pixels per second at a BPM. *)
Definition rateQ (speed bpm : Qc) : Qc := (speed * (bpm / Qc_of_Z 120))%Qc.

(** The loop [while (currentSecond != target)] on finite numbers, from
    the entry of BPM [bpm] with the later entries [rest]: the sum, and
    the entry and the later entries at which the loop stops. *)
Fixpoint advanceQ (speed : Qc) (rest : list (Qc * Qc)) (bpm sum cur target : Qc)
    : Qc * Qc * list (Qc * Qc) :=
  if decide (cur = target) then (sum, bpm, rest)
  else
    match rest with
    | (s, b) :: rest' =>
        if decide (s < target)%Qc
        then advanceQ speed rest' b (sum + (s - cur) * rateQ speed bpm)%Qc s
               target
        else ((sum + (target - cur) * rateQ speed bpm)%Qc, bpm, rest)
    | [] => ((sum + (target - cur) * rateQ speed bpm)%Qc, bpm, rest)
    end.

(** ** The scroller and the notes *)

(** A key frame of the scroller at which a note that starts at the time
    of the key frame lies on the hit line: its x position and the x of
    the scroller add up to [noteHitXOffset]. *)
Definition onHitLine (settings : MidiCustomSettings) (bpmMap : list BPM)
    (kf : keyframe) : Prop :=
  exists t x : Qc,
    kf_time kf = JS.Fin t /\ kf_x kf = JS.Fin x
    /\ getXPositionAndWidthOfNote settings (JS.Fin t) (JS.ofZ 0) bpmMap
       = Some (Returns ((noteHitXOffset settings - JS.Fin x)%js, JS.ofZ 0)).

(* ================================================================== *)
(** * Tactics                                                          *)
(* ================================================================== *)

(** Two numbers that evaluate to different rationals are different. *)
Ltac fin_discriminate H :=
  vm_compute in H;
  first [ discriminate H
        | let H' := fresh in
          injection H as H';
          first [ discriminate H'
                | apply (f_equal this) in H'; vm_compute in H'; discriminate H' ] ].

(** Equal rationals give equal numbers. *)
Ltac fin_reflexivity :=
  vm_compute; repeat (f_equal; try (apply Qc_is_canon; reflexivity)).

(** Case analysis on the scrutinee of the first [match] or [if] of a
    hypothesis, of all hypotheses, or of the goal. *)
Ltac break_in H :=
  match type of H with
  | context [match ?x with _ => _ end] => destruct x eqn:?
  end.

Ltac break_hyps :=
  repeat match goal with
         | H : context [match ?x with _ => _ end] |- _ =>
             destruct x eqn:?; try discriminate
         | H : (_, _) = (_, _) |- _ => injection H as <- <-
         | H : Returns _ = Returns _ |- _ => injection H as <- <-
         end.

Ltac break_inner :=
  match goal with
  | |- context [match ?x with _ => _ end] =>
      lazymatch x with
      | context [match _ with _ => _ end] => fail
      | _ => destruct x eqn:?
      end
  end.

Ltac bigEndian_arith :=
  cbn [bigEndian lookup list_lookup]; 
  change (256 ^ Z.of_nat 0) with 1; change (256 ^ Z.of_nat 1) with 256;
  change (256 ^ Z.of_nat 2) with 65536; change (256 ^ Z.of_nat 3) with 16777216;
  change (Z.shiftl 1 24) with 16777216; change (Z.shiftl 1 16) with 65536;
  change (Z.shiftl 1 8) with 256; change (Z.shiftl 1 0) with 1;
  change (2 ^ 8) with 256 in *; change (2 ^ 16) with 65536 in *;
  change (2 ^ 24) with 16777216 in *; change (2 ^ 32) with 4294967296 in *;
  Z.div_mod_to_equations; lia.

(** Computing with numbers whose shape is known. *)
Ltac js_simpl :=
  repeat (cbn [JS.add JS.sub JS.neg JS.mul JS.div JS.ofZ JS.truthy JS.lt JS.ge];
          change (JS.isZero (Qc_of_Z 2)) with false;
          change (JS.isNeg (Qc_of_Z 2)) with false;
          rewrite ?xorb_false_r).

(* ================================================================== *)
(** * Properties of the byte reader                                    *)
(* ================================================================== *)

Section ByteReader.

Lemma get_None s n : (String.length s <= n)%nat -> String.get n s = None.
Proof.
  revert n. induction s as [|c s IH]; intros [|n] H; simpl in *; try done; try lia.
  apply IH. lia.
Qed.

Lemma get_Some s n c : String.get n s = Some c -> (n < String.length s)%nat.
Proof.
  intros H. destruct (Nat.lt_ge_cases n (String.length s)) as [|Hge]; [done|].
  rewrite (get_None s n Hge) in H. discriminate.
Qed.

Lemma charCodeAt_past s off : strlen s <= off -> charCodeAt s off = None.
Proof.
  intros H. unfold charCodeAt, strlen in *.
  destruct (Z.ltb_spec off 0); [done|].
  rewrite get_None; [done|lia].
Qed.

Lemma charCodeAt_Some s off x :
  charCodeAt s off = Some x -> 0 <= off < strlen s /\ isByte x.
Proof.
  unfold charCodeAt, strlen, isByte. destruct (Z.ltb_spec off 0); [done|].
  destruct (String.get _ _) as [c|] eqn:E; [|done].
  intros [= <-]. apply get_Some in E.
  pose proof (N_ascii_bounded c). lia.
Qed.

Lemma get_fromCharCodes l i :
  String.get i (fromCharCodes l) = (fun z => ascii_of_N (Z.to_N z)) <$> l !! i.
Proof. revert i. induction l as [|x l IH]; intros [|i]; simpl; done. Qed.

Lemma charCodeAt_fromCharCodes l i x :
  Forall isByte l -> l !! i = Some x ->
  charCodeAt (fromCharCodes l) (Z.of_nat i) = Some x.
Proof.
  intros Hl Hx. unfold charCodeAt.
  destruct (Z.ltb_spec (Z.of_nat i) 0); [lia|].
  rewrite Nat2Z.id, get_fromCharCodes, Hx. simpl.
  assert (isByte x) as [? ?] by (eapply Forall_lookup_1; eauto).
  rewrite N_ascii_embedding by lia. f_equal. lia.
Qed.

Lemma bytesAt_cons s off x l :
  bytesAt s off (x :: l) -> charCodeAt s off = Some x /\ bytesAt s (off + 1) l.
Proof.
  intros H. split.
  - specialize (H 0%nat x eq_refl). by rewrite Z.add_0_r in H.
  - intros i y Hy. specialize (H (S i) y Hy).
    by replace (off + 1 + Z.of_nat i) with (off + Z.of_nat (S i)) by lia.
Qed.

Lemma bytesAt_bound s off l :
  l <> [] -> bytesAt s off l -> 0 <= off /\ off + Z.of_nat (length l) <= strlen s.
Proof.
  intros Hne H. destruct l as [|x l]; [done|]. split.
  - apply bytesAt_cons in H as [H _]. apply charCodeAt_Some in H. lia.
  - destruct (last (x :: l)) as [y|] eqn:E; [|by apply last_None in E].
    rewrite last_lookup in E. apply H, charCodeAt_Some in E.
    simpl length in *. lia.
Qed.

Variable s : string.

(** What the two loops compute on a quantity whose bytes are [hs]
    followed by [b]. *)
Lemma getVarVal_loop_run hs b : forall fuel result off,
  bytesAt s off (hs ++ [b]) ->
  Forall (fun x => Z.land x 0x80 <> 0) hs -> Z.land b 0x80 = 0 ->
  (length hs < fuel)%nat ->
  getVarVal_loop s fuel result off = fold_left vlqStep (hs ++ [b]) result.
Proof.
  induction hs as [|h hs IH]; intros fuel result off Hb Hh Hc Hf.
  - destruct fuel as [|fuel]; [simpl in Hf; lia|].
    apply bytesAt_cons in Hb as [Hb _]. simpl. rewrite Hb. unfold JS.band. simpl default.
    rewrite Hc. reflexivity.
  - destruct fuel as [|fuel]; [simpl in Hf; lia|].
    apply bytesAt_cons in Hb as [Hb Hb']. inversion Hh; subst.
    simpl. rewrite Hb. unfold JS.band. simpl default.
    destruct (Z.land h 128 =? 0) eqn:E; [apply Z.eqb_eq in E; contradiction|].
    simpl. rewrite IH; auto. simpl in Hf. lia.
Qed.

Lemma getVarLen_loop_run hs b : forall fuel result off,
  bytesAt s off (hs ++ [b]) ->
  Forall (fun x => Z.land x 0x80 <> 0) hs -> Z.land b 0x80 = 0 ->
  (length hs < fuel)%nat ->
  getVarLen_loop s fuel result off = result + Z.of_nat (length hs).
Proof.
  induction hs as [|h hs IH]; intros fuel result off Hb Hh Hc Hf.
  - destruct fuel as [|fuel]; [simpl in Hf; lia|].
    apply bytesAt_cons in Hb as [Hb _]. simpl. rewrite Hb. unfold JS.band. simpl default.
    rewrite Hc. simpl. lia.
  - destruct fuel as [|fuel]; [simpl in Hf; lia|].
    apply bytesAt_cons in Hb as [Hb Hb']. inversion Hh; subst.
    simpl getVarLen_loop. rewrite Hb. unfold JS.band. simpl default.
    destruct (Z.land h 128 =? 0) eqn:E; [apply Z.eqb_eq in E; contradiction|].
    simpl negb. cbv iota. rewrite (IH fuel (result + 1) (off + 1)); auto.
    + simpl length. lia.
    + simpl in Hf. lia.
Qed.

(** The fuel is never exhausted: more of it changes nothing. *)
Lemma getVarVal_fuel : forall n off result f1 f2,
  Z.to_nat (strlen s - off) = n -> (n < f1)%nat -> (n < f2)%nat ->
  getVarVal_loop s f1 result off = getVarVal_loop s f2 result off.
Proof.
  induction n as [|n IH]; intros off result f1 f2 Hn H1 H2;
    (destruct f1 as [|f1]; [lia|]); (destruct f2 as [|f2]; [lia|]); simpl.
  - rewrite charCodeAt_past by lia. reflexivity.
  - destruct (negb (JS.band (charCodeAt s off) 128 =? 0)); [|reflexivity].
    apply IH; lia.
Qed.

Lemma getVarLen_fuel : forall n off result f1 f2,
  Z.to_nat (strlen s - off) = n -> (n < f1)%nat -> (n < f2)%nat ->
  getVarLen_loop s f1 result off = getVarLen_loop s f2 result off.
Proof.
  induction n as [|n IH]; intros off result f1 f2 Hn H1 H2;
    (destruct f1 as [|f1]; [lia|]); (destruct f2 as [|f2]; [lia|]); simpl.
  - rewrite charCodeAt_past by lia. reflexivity.
  - destruct (negb (JS.band (charCodeAt s off) 128 =? 0)); [|reflexivity].
    apply IH; lia.
Qed.

Lemma band_nonneg i mask : 0 <= mask -> 0 <= JS.band i mask.
Proof. intros H. unfold JS.band. apply Z.land_nonneg. by right. Qed.

Lemma getVarVal_loop_nonneg : forall fuel result off,
  0 <= result -> 0 <= getVarVal_loop s fuel result off.
Proof.
  induction fuel as [|fuel IH]; intros result off H; simpl; [done|].
  pose proof (band_nonneg (charCodeAt s off) 127).
  destruct (negb _); [apply IH|]; lia.
Qed.

Lemma getVarLen_loop_ge : forall fuel result off,
  result <= getVarLen_loop s fuel result off.
Proof.
  induction fuel as [|fuel IH]; intros result off; simpl; [lia|].
  destruct (negb _); [|lia]. specialize (IH (result + 1) (off + 1)). lia.
Qed.

Lemma getVarVal_nonneg off : 0 <= getVarVal s off.
Proof. apply getVarVal_loop_nonneg. lia. Qed.

Lemma getVarLen_pos off : 1 <= getVarLen s off.
Proof. apply getVarLen_loop_ge. Qed.

Lemma getEventLength_pos status off l :
  getEventLength s status off = Some l -> 1 <= l.
Proof.
  unfold getEventLength.
  pose proof (getVarVal_nonneg (off + 1)). pose proof (getVarLen_pos (off + 1)).
  repeat (destruct (_ || _); [intros [= <-]; lia|]). done.
Qed.

End ByteReader.

(** ** The standard encoding *)

Lemma low7 x : 0 <= x < 128 -> Z.land x 0x7f = x /\ Z.land x 0x80 = 0.
Proof.
  intros H. assert (Z.land x 127 = x) as H7.
  { change 127 with (Z.ones 7). rewrite Z.land_ones by lia. apply Z.mod_small. lia. }
  split; [exact H7|]. rewrite <- H7, <- Z.land_assoc. apply Z.land_0_r.
Qed.

Lemma high7 x : 0 <= x < 128 ->
  Z.land (Z.lor x 0x80) 0x7f = x /\ Z.land (Z.lor x 0x80) 0x80 <> 0
  /\ 0 <= Z.lor x 0x80 < 256.
Proof.
  intros H. destruct (low7 x H) as [H7 H8]. split; [|split].
  - rewrite Z.land_lor_distr_l, H7. change (Z.land 128 127) with 0. apply Z.lor_0_r.
  - rewrite Z.land_lor_distr_l, H8. discriminate.
  - rewrite <- Z.add_nocarry_lor by exact H8. lia.
Qed.

Lemma vlqHigh_spec : forall fuel n, 0 <= n -> n < 2 ^ (7 * Z.of_nat fuel) ->
  fold_left vlqStep (vlqHigh fuel n) 0 = n
  /\ Forall (fun x => Z.land x 0x80 <> 0) (vlqHigh fuel n)
  /\ Forall isByte (vlqHigh fuel n).
Proof.
  induction fuel as [|fuel IH]; intros n Hn Hlt.
  - simpl in *. assert (n = 0) by lia. subst. repeat split; constructor.
  - cbn [vlqHigh]. destruct (Z.eqb_spec n 0) as [->|Hne]; [repeat split; constructor|].
    assert (0 <= n mod 128 < 128) as Hm by (apply Z.mod_pos_bound; lia).
    destruct (high7 _ Hm) as (H7 & H8 & Hb).
    destruct (IH (n / 128)) as (Hf & Hh & Hy).
    { apply Z.div_pos; lia. }
    { apply Z.div_lt_upper_bound; [lia|].
      replace (7 * Z.of_nat (S fuel)) with (7 + 7 * Z.of_nat fuel) in Hlt by lia.
      rewrite Z.pow_add_r in Hlt by lia. exact Hlt. }
    split; [|split].
    + rewrite fold_left_app. cbn [fold_left]. unfold vlqStep at 1. rewrite Hf, H7.
      pose proof (Z.div_mod n 128). lia.
    + apply Forall_app. split; [exact Hh|]. by apply Forall_singleton.
    + apply Forall_app. split; [exact Hy|]. by apply Forall_singleton.
Qed.

Lemma vlqEncode_spec n : 0 <= n ->
  exists hs b, vlqEncode n = hs ++ [b]
    /\ fold_left vlqStep (vlqEncode n) 0 = n
    /\ Forall (fun x => Z.land x 0x80 <> 0) hs /\ Z.land b 0x80 = 0
    /\ Forall isByte (vlqEncode n).
Proof.
  intros Hn. unfold vlqEncode.
  assert (0 <= n mod 128 < 128) as Hm by (apply Z.mod_pos_bound; lia).
  destruct (low7 _ Hm) as (H7 & H8).
  destruct (vlqHigh_spec (Z.to_nat (Z.log2 n) + 1) (n / 128)) as (Hf & Hh & Hy).
  { apply Z.div_pos; lia. }
  { apply Z.div_lt_upper_bound; [lia|].
    destruct (Z.eq_dec n 0) as [->|Hne]; [simpl; lia|].
    pose proof (Z.log2_spec n ltac:(lia)) as [_ Hl].
    pose proof (Z.log2_nonneg n).
    eapply Z.lt_le_trans; [exact Hl|].
    replace (7 * Z.of_nat (Z.to_nat (Z.log2 n) + 1)) with (7 * Z.log2 n + 7) by lia.
    change 128 with (2 ^ 7). rewrite <- Z.pow_add_r by lia.
    apply Z.pow_le_mono_r; lia. }
  eexists _, _. split; [reflexivity|]. split; [|split; [exact Hh|split; [exact H8|]]].
  - rewrite fold_left_app. cbn [fold_left]. unfold vlqStep at 1. rewrite Hf, H7.
    pose proof (Z.div_mod n 128). lia.
  - apply Forall_app. split; [exact Hy|]. apply Forall_singleton. unfold isByte. lia.
Qed.

Lemma bytesAt_fromCharCodes pre l post :
  Forall isByte (pre ++ l ++ post) ->
  bytesAt (fromCharCodes (pre ++ l ++ post)) (Z.of_nat (length pre)) l.
Proof.
  intros Hb i x Hx. rewrite <- Nat2Z.inj_add.
  apply charCodeAt_fromCharCodes; [exact Hb|].
  rewrite lookup_app_r by lia. replace (length pre + i - length pre)%nat with i by lia.
  by apply lookup_app_l_Some.
Qed.

(** C8.  The variable-length encodings of 0, 127, 128, 16383 and 16384
    are the bytes [00], [7F], [81 00], [FF 7F] and [81 80 00]; they decode
    with [getVarVal] to these values and [getVarLen] counts 1, 1, 2, 2 and
    3 bytes for them.  In general a quantity made of bytes with the high
    bit set followed by one byte with the high bit clear decodes to the
    accumulation [result * 128 + (byte & 0x7f)] over exactly these bytes,
    the last one included, whatever follows, as long as the accumulation
    stays below 2^53, where the doubles of the code hold every integer;
    and the encoding of every quantity below 2^53, wherever it stands in
    a file, decodes to that quantity and is counted in full. *)
Theorem vlq_decoding :
  (vlqEncode 0 = [0x00] /\ vlqEncode 127 = [0x7f] /\ vlqEncode 128 = [0x81; 0x00]
   /\ vlqEncode 16383 = [0xff; 0x7f] /\ vlqEncode 16384 = [0x81; 0x80; 0x00])
  /\ (getVarVal (fromCharCodes [0x00]) 0 = 0
      /\ getVarLen (fromCharCodes [0x00]) 0 = 1)
  /\ (getVarVal (fromCharCodes [0x7f]) 0 = 127
      /\ getVarLen (fromCharCodes [0x7f]) 0 = 1)
  /\ (getVarVal (fromCharCodes [0x81; 0x00]) 0 = 128
      /\ getVarLen (fromCharCodes [0x81; 0x00]) 0 = 2)
  /\ (getVarVal (fromCharCodes [0xff; 0x7f]) 0 = 16383
      /\ getVarLen (fromCharCodes [0xff; 0x7f]) 0 = 2)
  /\ (getVarVal (fromCharCodes [0x81; 0x80; 0x00]) 0 = 16384
      /\ getVarLen (fromCharCodes [0x81; 0x80; 0x00]) 0 = 3)
  /\ (forall s off hs b,
        bytesAt s off (hs ++ [b]) ->
        Forall (fun x => Z.land x 0x80 <> 0) hs -> Z.land b 0x80 = 0 ->
        fold_left vlqStep (hs ++ [b]) 0 < 2 ^ 53 ->
        getVarVal s off = fold_left vlqStep (hs ++ [b]) 0
        /\ getVarLen s off = Z.of_nat (length hs) + 1)
  /\ (forall n pre post,
        0 <= n < 2 ^ 53 -> Forall isByte pre -> Forall isByte post ->
        getVarVal (fromCharCodes (pre ++ vlqEncode n ++ post))
          (Z.of_nat (length pre)) = n
        /\ getVarLen (fromCharCodes (pre ++ vlqEncode n ++ post))
             (Z.of_nat (length pre)) = Z.of_nat (length (vlqEncode n))).
Proof.
  split; [repeat split; reflexivity|].
  repeat (split; [split; reflexivity|]).
  assert (forall s off hs b,
            bytesAt s off (hs ++ [b]) ->
            Forall (fun x => Z.land x 0x80 <> 0) hs -> Z.land b 0x80 = 0 ->
            getVarVal s off = fold_left vlqStep (hs ++ [b]) 0
            /\ getVarLen s off = Z.of_nat (length hs) + 1) as Hrun.
  { intros s off hs b Hb Hh Hc.
    assert (length hs < varFuel s off)%nat as Hf.
    { apply bytesAt_bound in Hb; [|by destruct hs].
      rewrite length_app in Hb. simpl in Hb. unfold varFuel. lia. }
    split.
    - by apply getVarVal_loop_run.
    - unfold getVarLen. rewrite (getVarLen_loop_run s hs b); auto. lia. }
  split; [intros s off hs b Hb Hh Hc _; by apply Hrun|].
  intros n pre post [Hn _] Hpre Hpost.
  destruct (vlqEncode_spec n Hn) as (hs & b & He & Hv & Hh & Hc & Hy).
  destruct (Hrun (fromCharCodes (pre ++ vlqEncode n ++ post))
              (Z.of_nat (length pre)) hs b) as [H1 H2]; auto.
  { rewrite <- He. apply bytesAt_fromCharCodes.
    apply Forall_app. split; [exact Hpre|]. apply Forall_app. by split. }
  rewrite H1, H2, <- He, Hv. split; [reflexivity|].
  rewrite He, length_app. simpl. lia.
Qed.

Lemma vlq_decoding_witness :
  getVarVal (fromCharCodes ([0x10] ++ vlqEncode 59176 ++ [0x90; 0x3c])) 1 = 59176
  /\ getVarLen (fromCharCodes ([0x10] ++ vlqEncode 59176 ++ [0x90; 0x3c])) 1 = 3.
Proof.
  destruct vlq_decoding as (_ & _ & _ & _ & _ & _ & _ & H).
  apply (H 59176 [0x10] [0x90; 0x3c]).
  - lia.
  - repeat constructor; unfold isByte; lia.
  - repeat constructor; unfold isByte; lia.
Defined.

(* ================================================================== *)
(** * Properties of [getTime]                                          *)
(* ================================================================== *)

Section TickClock.

Lemma isZero_false q : q <> 0%Qc -> JS.isZero q = false.
Proof.
  intros H. unfold JS.isZero. destruct (q ?= 0)%Qc eqn:E; try reflexivity.
  apply Qceq_alt in E. contradiction.
Qed.

Lemma isZero_pos q : (0 < q)%Qc -> JS.isZero q = false.
Proof. intros H. apply isZero_false. intros ->. by apply Qclt_not_eq in H. Qed.

Lemma Qc_million_pos : (0 < Qc_of_Z 1000000)%Qc.
Proof. rewrite <- Z2Qc_inj_0, <- Z2Qc_inj_lt. lia. Qed.

Lemma Qc_of_Z_pos z : 0 < z -> (0 < Qc_of_Z z)%Qc.
Proof. intros H. by rewrite <- Z2Qc_inj_0, <- Z2Qc_inj_lt. Qed.

Lemma ge_Fin p q : JS.ge (JS.Fin p) (JS.Fin q) = true <-> (q <= p)%Qc.
Proof.
  simpl. destruct (p ?= q)%Qc eqn:E.
  - apply Qceq_alt in E. subst. split; [intros _; apply Qcle_refl|done].
  - apply Qclt_alt in E. split; [done|]. intros H. by apply Qcle_not_lt in H.
  - apply Qcgt_alt in E. split; [intros _; by apply Qclt_le_weak|done].
Qed.

(** The loop of [getTime] stops within its fuel, whatever the tempo map
    and the division. *)
Lemma getTime_while_done tm td target : forall n fuel s,
  (length tm - gt_index s = n)%nat -> (n < fuel)%nat ->
  (gt_tickCounter (getTime_while fuel tm td target s) <? target) = false.
Proof.
  induction n as [|n IH]; intros fuel s Hn Hf;
    (destruct fuel as [|fuel]; [lia|]); cbn [getTime_while];
    destruct (gt_tickCounter s <? target) eqn:E; try exact E.
  - assert (tm !! gt_index s = None) as Hl by (apply lookup_ge_None; lia).
    assert (gt_tickCounter (getTime_body tm td target s) = target) as Ht.
    { unfold getTime_body. by rewrite Hl. }
    destruct fuel; cbn [getTime_while]; rewrite Ht, ?Z.ltb_irrefl, ?Ht, ?Z.ltb_irrefl;
      reflexivity.
  - apply IH; [|lia]. unfold getTime_body.
    destruct (tm !! gt_index s) eqn:Hl; simpl; [lia|].
    apply lookup_ge_None in Hl. lia.
Qed.

Variable D : Qc.
Hypothesis D_not_zero : D <> 0%Qc.

Lemma seg_Fin u delta a :
  (JS.Fin a + (JS.Fin u * JS.ofZ delta) / JS.Fin D / JS.ofZ 1000000)%js
  = JS.Fin (a + segQ u delta D).
Proof.
  unfold JS.ofZ. cbn [JS.add JS.mul JS.div].
  rewrite (isZero_false D D_not_zero). cbn [JS.add JS.mul JS.div].
  rewrite (isZero_pos _ Qc_million_pos). reflexivity.
Qed.

Lemma ofInt_usQ e : is_Some (tempo_microsecondsPerQuarterNote e) ->
  JS.ofInt (tempo_microsecondsPerQuarterNote e) = JS.Fin (usQ e).
Proof. intros [u Hu]. unfold usQ. rewrite Hu. reflexivity. Qed.

(** On a tempo map whose tempos are all defined the loop computes
    [elapsedFrom]. *)
Lemma getTime_while_elapsed tm target : allDefined tm ->
  forall rest fuel s a c,
  drop (gt_index s) tm = rest ->
  gt_prevTickCounter s = gt_tickCounter s ->
  gt_seconds s = JS.Fin a ->
  gt_currentMicrosecondsPerQuarterNote s = JS.Fin c ->
  (length rest < fuel)%nat ->
  gt_seconds (getTime_while fuel tm (JS.Fin D) target s)
  = JS.Fin (a + elapsedFrom rest D c (gt_tickCounter s) target).
Proof.
  intros Hdef. induction rest as [|e rest IH]; intros fuel s a c Hdrop Hprev Ha Hc Hfuel.
  - destruct fuel as [|fuel]; [simpl in Hfuel; lia|]. simpl.
    destruct (gt_tickCounter s <? target) eqn:E.
    2:{ rewrite Ha. f_equal. ring. }
    assert (tm !! gt_index s = None) as Hn.
    { apply lookup_ge_None. apply drop_nil_inv in Hdrop. exact Hdrop. }
    assert (gt_seconds (getTime_body tm (JS.Fin D) target s)
            = JS.Fin (a + segQ c (target - gt_tickCounter s) D)) as Hs.
    { unfold getTime_body. rewrite Hn. simpl. rewrite Ha, Hc, Hprev. apply seg_Fin. }
    assert (gt_tickCounter (getTime_body tm (JS.Fin D) target s) = target) as Ht.
    { unfold getTime_body. rewrite Hn. reflexivity. }
    destruct fuel as [|fuel]; simpl; [exact Hs|].
    rewrite Ht, Z.ltb_irrefl. exact Hs.
  - destruct fuel as [|fuel]; [simpl in Hfuel; lia|]. simpl getTime_while.
    simpl elapsedFrom.
    destruct (gt_tickCounter s <? target) eqn:E.
    2:{ rewrite Ha. f_equal. ring. }
    assert (tm !! gt_index s = Some e) as He.
    { assert (drop (gt_index s) tm !! 0%nat = Some e) as H0 by (rewrite Hdrop; reflexivity).
      rewrite lookup_drop, Nat.add_0_r in H0. exact H0. }
    assert (drop (gt_index s + 1) tm = rest) as Hd'.
    { rewrite <- drop_drop, Hdrop. reflexivity. }
    assert (tm !! (gt_index s + 1)%nat = rest !! 0%nat) as Hnx.
    { rewrite <- Hd', lookup_drop. f_equal. lia. }
    assert (is_Some (tempo_microsecondsPerQuarterNote e)) as Hse.
    { eapply Forall_lookup_1 in Hdef; eauto. }
    set (s' := getTime_body tm (JS.Fin D) target s).
    assert (gt_tickCounter s' = nextStop rest target) as Ht.
    { unfold s', getTime_body. rewrite He, Hnx. destruct rest; reflexivity. }
    assert (gt_seconds s'
            = JS.Fin (a + segQ (usQ e) (nextStop rest target - gt_tickCounter s) D)) as Hs.
    { unfold s', getTime_body. rewrite He, Hnx, (ofInt_usQ e Hse), Ha, Hprev.
      destruct rest as [|nx rest']; simpl; apply seg_Fin. }
    rewrite (IH fuel s'
               (a + segQ (usQ e) (nextStop rest target - gt_tickCounter s) D)%Qc
               (usQ e)); auto.
    + rewrite Ht. f_equal. ring.
    + unfold s', getTime_body. rewrite He. exact Hd'.
    + unfold s', getTime_body. rewrite He. reflexivity.
    + unfold s', getTime_body. rewrite He. apply ofInt_usQ, Hse.
    + simpl in Hfuel. lia.
Qed.

Lemma getTime_on_elapsed tm target : allDefined tm ->
  getTime_on tm (JS.Fin D) target
  = JS.Fin (elapsedFrom tm D (Qc_of_Z 500000) 0 target).
Proof.
  intros Hdef. unfold getTime_on.
  erewrite (getTime_while_elapsed tm target Hdef tm _ _ (Qc_of_Z 0) (Qc_of_Z 500000));
    try reflexivity; [|simpl; lia].
  cbn [gt_tickCounter]. rewrite Z2Qc_inj_0. f_equal. ring.
Qed.

(** The first turn alone, when the target is reached before the second
    tempo change: the tempo of the first entry applies from tick 0,
    whatever the tick of that entry. *)
Lemma getTime_on_first k u rest target :
  0 <= target -> nextStop rest target = target ->
  getTime_on (mkTempo k (Some u) :: rest) (JS.Fin D) target
  = (JS.ofZ target * JS.ofZ u / JS.Fin D / JS.ofZ 1000000)%js.
Proof.
  intros Ht Hstop. unfold getTime_on. simpl length.
  cbn [getTime_while gt_tickCounter].
  set (e := mkTempo k (Some u)).
  assert ((JS.ofZ target * JS.ofZ u / JS.Fin D / JS.ofZ 1000000)%js
          = JS.Fin (0 + segQ (Qc_of_Z u) target D)) as ->.
  { unfold JS.ofZ. cbn [JS.mul JS.div].
    rewrite (isZero_false D D_not_zero). cbn [JS.div].
    rewrite (isZero_pos _ Qc_million_pos). f_equal. unfold segQ, Qcdiv. ring. }
  destruct (Z.ltb_spec 0 target) as [Hlt|Hge].
  - set (s' := getTime_body (e :: rest) (JS.Fin D) target
                 (mkGetTime (JS.ofZ 0) (JS.ofZ 500000) 0 0 0%nat)).
    assert (gt_tickCounter s' = target) as Htc.
    { unfold s', getTime_body. cbn [gt_index lookup list_lookup].
      destruct rest as [|n r]; [reflexivity|]. exact Hstop. }
    assert (gt_seconds s' = JS.Fin (0 + segQ (Qc_of_Z u) target D)) as Hs.
    { unfold s', getTime_body. cbn [gt_index lookup list_lookup gt_seconds gt_prevTickCounter].
      replace (match (e :: rest) !! (0 + 1)%nat with
               | Some next => if target <=? tempo_tick next then target else tempo_tick next
               | None => target
               end) with target
        by (destruct rest as [|n r]; [reflexivity|symmetry; exact Hstop]).
      cbn [gt_seconds e tempo_microsecondsPerQuarterNote JS.ofInt]. rewrite Z.sub_0_r.
      unfold JS.ofZ at 1 2. rewrite seg_Fin. by rewrite Z2Qc_inj_0. }
    destruct (length rest); cbn [getTime_while]; rewrite Htc, Z.ltb_irrefl; exact Hs.
  - assert (target = 0) as -> by lia. cbn [gt_seconds].
    unfold JS.ofZ. f_equal. unfold segQ, Qcdiv. rewrite Z2Qc_inj_0. ring.
Qed.


End TickClock.


Lemma Qc_pos_not_zero D : (0 < D)%Qc -> D <> 0%Qc.
Proof. intros H ->. by apply Qclt_not_eq in H. Qed.

(** ** The elapsed seconds as a function of the target tick *)

Section Elapsed.

Variable D : Qc.
Hypothesis D_pos : (0 < D)%Qc.

Lemma segQ_le u d1 d2 :
  (0 <= u)%Qc -> d1 <= d2 -> (segQ u d1 D <= segQ u d2 D)%Qc.
Proof.
  intros Hu Hd. unfold segQ, Qcdiv.
  apply Qcmult_le_compat_r; [|apply Qclt_le_weak, Qcinv_pos, Qc_million_pos].
  apply Qcmult_le_compat_r; [|apply Qclt_le_weak, Qcinv_pos, D_pos].
  apply Qcmult_le_mono_nonneg_l; [exact Hu|]. rewrite <- Z2Qc_inj_le. exact Hd.
Qed.

Lemma segQ_0 u : segQ u 0 D = 0%Qc.
Proof. unfold segQ. rewrite Z2Qc_inj_0. unfold Qcdiv. ring. Qed.

Lemma segQ_nonneg u d : (0 <= u)%Qc -> 0 <= d -> (0 <= segQ u d D)%Qc.
Proof. intros. rewrite <- (segQ_0 u). by apply segQ_le. Qed.

Lemma usQ_nonneg e : positiveTempo e -> (0 <= usQ e)%Qc.
Proof.
  intros (u & Hu & Hp). unfold usQ. rewrite Hu. simpl.
  rewrite <- Z2Qc_inj_0, <- Z2Qc_inj_le. lia.
Qed.

Lemma elapsedFrom_at rest cur t : elapsedFrom rest D cur t t = 0%Qc.
Proof. destruct rest; simpl; by rewrite Z.ltb_irrefl. Qed.

Lemma nextStop_ge rest tc target e :
  tc < target -> stopBound (e :: rest) tc -> tc <= nextStop rest target.
Proof.
  destruct rest as [|n r]; simpl; [lia|].
  destruct (Z.leb_spec target (tempo_tick n)); lia.
Qed.

Lemma nextStop_bound rest target :
  ascending rest -> stopBound rest (nextStop rest target).
Proof.
  destruct rest as [|n [|n2 r]]; simpl; try done.
  intros [H _]. destruct (Z.leb_spec target (tempo_tick n)); lia.
Qed.

Lemma ascending_tail e rest : ascending (e :: rest) -> ascending rest.
Proof. destruct rest; simpl; tauto. Qed.

Lemma elapsedFrom_nonneg target :
  forall rest cur tc, Forall positiveTempo rest -> ascending rest ->
  (0 <= cur)%Qc -> stopBound rest tc ->
  (0 <= elapsedFrom rest D cur tc target)%Qc.
Proof.
  induction rest as [|e rest IH]; intros cur tc Hpos Hasc Hcur Hb; simpl.
  - destruct (Z.ltb_spec tc target); [|apply Qcle_refl].
    apply segQ_nonneg; auto. lia.
  - destruct (Z.ltb_spec tc target); [|apply Qcle_refl].
    apply Forall_cons in Hpos as [Hpe Hpos].
    apply Qcplus_nonneg_nonneg.
    + apply segQ_nonneg; auto using usQ_nonneg.
      assert (tc <= nextStop rest target) by (eapply nextStop_ge; eauto). lia.
    + apply IH; [assumption|eapply ascending_tail, Hasc|by apply usQ_nonneg|].
      eapply nextStop_bound, ascending_tail, Hasc.
Qed.

Lemma elapsedFrom_mono t1 t2 : t1 <= t2 ->
  forall rest cur tc, Forall positiveTempo rest -> ascending rest ->
  (0 <= cur)%Qc -> stopBound rest tc ->
  (elapsedFrom rest D cur tc t1 <= elapsedFrom rest D cur tc t2)%Qc.
Proof.
  intros Ht. induction rest as [|e rest IH]; intros cur tc Hpos Hasc Hcur Hb.
  - simpl. destruct (Z.ltb_spec tc t1), (Z.ltb_spec tc t2); try lia.
    + apply segQ_le; auto. lia.
    + apply segQ_nonneg; auto. lia.
    + apply Qcle_refl.
  - destruct (Z.ltb_spec tc t1) as [H1|H1].
    2:{ replace (elapsedFrom (e :: rest) D cur tc t1) with 0%Qc
          by (simpl; destruct (Z.ltb_spec tc t1); [lia|reflexivity]).
        by apply elapsedFrom_nonneg. }
    simpl. destruct (Z.ltb_spec tc t1), (Z.ltb_spec tc t2); try lia.
    apply Forall_cons in Hpos as [Hpe Hpos].
    assert (Hu := usQ_nonneg e Hpe).
    assert (Hasc' := ascending_tail _ _ Hasc).
    destruct rest as [|n r].
    + simpl nextStop. rewrite !elapsedFrom_at.
      apply Qcplus_le_compat; [|apply Qcle_refl]. apply segQ_le; auto. lia.
    + unfold nextStop.
      destruct (Z.leb_spec t1 (tempo_tick n)), (Z.leb_spec t2 (tempo_tick n)); try lia.
      * rewrite !elapsedFrom_at.
        apply Qcplus_le_compat; [|apply Qcle_refl]. apply segQ_le; auto. lia.
      * rewrite elapsedFrom_at.
        apply Qcplus_le_compat; [apply segQ_le; auto; lia|].
        apply elapsedFrom_nonneg; auto.
        destruct r; simpl in *; [done|lia].
      * apply Qcplus_le_compat; [apply Qcle_refl|].
        apply IH; auto. destruct r; simpl in *; [done|lia].
Qed.

End Elapsed.

Lemma tempoMap_valid_defined tm : tempoMap_valid tm -> allDefined tm.
Proof.
  intros (_ & Hp & _). eapply Forall_impl; [exact Hp|].
  intros e (u & Hu & _). rewrite Hu. by eexists.
Qed.

Lemma tempoMap_valid_bound tm : tempoMap_valid tm -> stopBound tm 0.
Proof.
  intros (Ht & _ & _). destruct tm as [|a [|b r]]; simpl; try done.
  apply Forall_cons in Ht as [_ Ht]. by apply Forall_cons in Ht as [Ht _].
Qed.

(** C6.  [getTime(0)] is 0, and over a tempo map whose ticks ascend
    strictly and whose tempos are positive, with a positive time
    division, [getTime] does not decrease: [t1 <= t2] gives
    [getTime(t1) <= getTime(t2)].  (Ticks are not negative: they are sums
    of variable-length quantities, and the tempo map of every object that
    the constructor returns has that property, [MidiFile_new_inv].) *)
Theorem getTime_nondecreasing (m : MidiFile) (D : Qc) :
  getTime m 0 = JS.ofZ 0
  /\ (tempoMap_valid (tempoMap m) -> timeDivision m = JS.Fin D -> (0 < D)%Qc ->
      forall t1 t2, t1 <= t2 -> numLe (getTime m t1) (getTime m t2)).
Proof.
  split; [reflexivity|].
  intros Hv Htd HD t1 t2 Ht. unfold getTime, numLe. rewrite Htd.
  assert (D <> 0%Qc) as HD0 by (by apply Qc_pos_not_zero).
  rewrite !getTime_on_elapsed by auto using tempoMap_valid_defined.
  apply ge_Fin. destruct Hv as (Ht0 & Hp & Ha).
  apply elapsedFrom_mono;
    [exact HD|exact Ht|exact Hp|exact Ha|apply Qclt_le_weak, Qc_of_Z_pos; lia|].
  apply tempoMap_valid_bound. by repeat split.
Qed.

Lemma getTime_nondecreasing_witness :
  numLe (getTime (set_tempo (Some 250000)
                    [mkTempo 0 (Some 500000); mkTempo 480 (Some 250000)]
                    (MidiFile_header (fromCharCodes
                       [77; 84; 104; 100; 0; 0; 0; 6; 0; 0; 0; 1; 1; 224]) false)) 100)
        (getTime (set_tempo (Some 250000)
                    [mkTempo 0 (Some 500000); mkTempo 480 (Some 250000)]
                    (MidiFile_header (fromCharCodes
                       [77; 84; 104; 100; 0; 0; 0; 6; 0; 0; 0; 1; 1; 224]) false)) 1000).
Proof.
  apply (proj2 (getTime_nondecreasing _ (Qc_of_Z 480))).
  - split; [|split].
    + repeat constructor; simpl; lia.
    + repeat constructor; eexists; (split; [reflexivity|lia]).
    + simpl. lia.
  - reflexivity.
  - reflexivity.
  - lia.
Defined.

(** C7.  With a tempo map of exactly one tempo change, of [T]
    microseconds per quarter note at tick 0, and a positive division [D],
    [getTime(ticks)] is [ticks * T / D / 1000000] for every tick count
    that is not negative: the same number, and a finite one, in exact
    rational arithmetic. *)
Theorem getTime_single_tempo (m : MidiFile) (T D ticks : Z) :
  tempoMap m = [mkTempo 0 (Some T)] -> timeDivision m = JS.ofZ D ->
  0 < D -> 0 <= ticks ->
  getTime m ticks = (JS.ofZ ticks * JS.ofZ T / JS.ofZ D / JS.ofZ 1000000)%js
  /\ getTime m ticks
     = JS.Fin (Qc_of_Z ticks * Qc_of_Z T / Qc_of_Z D / Qc_of_Z 1000000)%Qc.
Proof.
  intros Htm Htd HD Ht. unfold getTime. rewrite Htm, Htd.
  assert (Qc_of_Z D <> 0%Qc) as HD0.
  { intros H. apply Qc_of_Z_pos in HD. rewrite H in HD. by apply Qclt_not_eq in HD. }
  change (JS.ofZ D) with (JS.Fin (Qc_of_Z D)).
  rewrite (getTime_on_first (Qc_of_Z D) HD0 0 T [] ticks Ht eq_refl).
  split; [reflexivity|].
  unfold JS.ofZ. cbn [JS.mul]. unfold JS.div at 2.
  rewrite (isZero_false _ HD0). unfold JS.div.
  by rewrite (isZero_pos _ Qc_million_pos).
Qed.

Lemma getTime_single_tempo_witness :
  getTime (set_tempo (Some 500000) [mkTempo 0 (Some 500000)]
             (MidiFile_header (fromCharCodes
                [77; 84; 104; 100; 0; 0; 0; 6; 0; 0; 0; 1; 1; 224]) false)) 960
  = JS.Fin (Qc_of_Z 960 * Qc_of_Z 500000 / Qc_of_Z 480 / Qc_of_Z 1000000)%Qc.
Proof.
  apply (getTime_single_tempo _ 500000 480 960); [reflexivity|reflexivity|lia|lia].
Defined.

Section FirstTick.

(** A turn of the loop of [getTime] reads the tempo of the entry at
    [index] and the tick of the entry after it: the tick of the first
    entry is never read. *)
Lemma getTime_body_first_tick e rest k td targetTick s :
  getTime_body (mkTempo k (tempo_microsecondsPerQuarterNote e) :: rest) td
    targetTick s
  = getTime_body (e :: rest) td targetTick s.
Proof.
  unfold getTime_body. destruct (gt_index s) as [|n]; reflexivity.
Qed.

Lemma getTime_while_first_tick e rest k td targetTick : forall fuel s,
  getTime_while fuel
    (mkTempo k (tempo_microsecondsPerQuarterNote e) :: rest) td targetTick s
  = getTime_while fuel (e :: rest) td targetTick s.
Proof.
  induction fuel as [|fuel IH]; intros s; [reflexivity|].
  cbn [getTime_while]. destruct (gt_tickCounter s <? targetTick); [|reflexivity].
  by rewrite getTime_body_first_tick, IH.
Qed.

End FirstTick.

(** C2: the code counts the ticks before the first tempo change at the
    tempo of that change.  [getTime] starts from the default of 500000
    microseconds per quarter note, but the first turn of its loop
    replaces it by the tempo of [tempoMap[0]] without a look at the tick
    of that entry: moving the first tempo change to any other tick
    changes no result of [getTime].  With the only tempo change, of
    1000000, at tick 480 and 480 ticks per quarter note, [getTime(480)]
    is 1 second and not the half second of 480 ticks at the default.  The
    constructor itself counts these ticks at the default while it has not
    met the tempo event: in [lateTempoFile] it stamps the note-on at tick
    240 with a quarter of a second; the note-off at tick 480, read after
    the tempo event, gets 1 second, so that the note lasts three quarters
    of a second, and [getTime(240)] of the object returned is half a
    second, twice the time stamped on the note of that tick. *)
Theorem getTime_first_tick_ignored :
  (forall e rest k td targetTick,
     getTime_on (mkTempo k (tempo_microsecondsPerQuarterNote e) :: rest) td
       targetTick
     = getTime_on (e :: rest) td targetTick)
  /\ ~ leadingDefaultTempo [mkTempo 480 (Some 1000000)] (JS.ofZ 480)
  /\ getTime_on [mkTempo 480 (Some 1000000)] (JS.ofZ 480) 480 = JS.ofZ 1
  /\ getTime_on [mkTempo 0 (Some 500000); mkTempo 480 (Some 1000000)]
       (JS.ofZ 480) 480
     = JS.Fin (Q2Qc (1 # 2))
  /\ omap (fun m => (tempoMap m, timeDivision m,
                     map (fun n => (note_time n, note_vel n, note_durTime n))
                       (store m),
                     getTime m 240, getTime m 480))
       (MidiFile_new lateTempoFile false false)
     = Returns ([mkTempo 480 (Some 1000000)], JS.ofZ 480,
                [(JS.Fin (Q2Qc (1 # 4)), Some 100, Some (JS.Fin (Q2Qc (3 # 4))));
                 (JS.ofZ 1, Some 0, None)],
                JS.Fin (Q2Qc (1 # 2)), JS.ofZ 1).
Proof.
  split; [|split; [|split; [|split]]].
  - intros e rest k td targetTick. unfold getTime_on.
    cbn [length]. by rewrite getTime_while_first_tick.
  - intros H. specialize (H _ _ eq_refl ltac:(simpl; lia) 480).
    vm_compute in H. fin_discriminate H.
  - vm_compute. repeat (f_equal; try (apply Qc_is_canon; reflexivity)).
  - vm_compute. repeat (f_equal; try (apply Qc_is_canon; reflexivity)).
  - vm_compute. repeat (f_equal; try (apply Qc_is_canon; reflexivity)).
Qed.

(* ================================================================== *)
(** * Properties of [addNote]                                          *)
(* ================================================================== *)

Section NoteAssembler.

(** The backward loop finds the nearest note-on of the pitch. *)
Lemma assignDuration_nearest time beats pitch h l : forall suffix,
  assignDuration (l ++ suffix) time beats pitch (length l) h
  = resolveAt time beats h (nearest (isNoteOnOf h pitch) l).
Proof.
  induction l as [|x l IH] using rev_ind; intros suffix; [reflexivity|].
  rewrite length_app. simpl length. rewrite Nat.add_1_r.
  cbn [assignDuration].
  rewrite <- app_assoc.
  rewrite lookup_app_r by lia. rewrite Nat.sub_diag. cbn [app lookup list_lookup].
  unfold nearest. rewrite rev_app_distr. cbn [rev app List.find].
  unfold isNoteOnOf at 1.
  destruct (h !! x) as [note2|] eqn:Hx.
  - destruct (JS.truthyInt (note_vel note2)
              && JS.looseEqInt (note_pitch note2) pitch) eqn:E.
    + unfold resolveAt. rewrite Hx. reflexivity.
    + apply IH.
  - apply IH.
Qed.

(** What [findChannel] leaves untouched, and the list of the channel it
    returns. *)
Lemma findChannel_spec index m m' c :
  findChannel index m = Returns (m', c) ->
  store m' = store m /\ notes m' = notes m /\ ch_notes c = notesOf m index
  /\ (forall k, k <> index -> channels m' !! k = channels m !! k)
  /\ channels m' !! index = Some c.
Proof.
  unfold findChannel, notesOf.
  destruct (channels m !! index) as [ch|] eqn:Hc.
  - intros [= <- <-]. repeat split; auto.
  - destruct (nthZ _ _) as [track|]; [|discriminate].
    intros [= <- <-]. cbn. repeat split; auto.
    + intros k Hk. by rewrite lookup_insert_ne.
    + by rewrite lookup_insert_eq.
Qed.

Lemma findChannel_returns index m :
  is_Some (channels m !! index) \/ is_Some (nthZ (tracks m) (index / 16)) ->
  exists m' c, findChannel index m = Returns (m', c).
Proof.
  unfold findChannel. intros H.
  destruct (channels m !! index) as [ch|] eqn:Hc; [eauto|].
  destruct H as [[? H]|[t H]]; [discriminate|].
  cbn. rewrite H. eauto.
Qed.

Lemma addNote_returns time beats channel pitch vel m :
  is_Some (channels m !! channel) \/ is_Some (nthZ (tracks m) (channel / 16)) ->
  exists m' r, addNote time beats channel pitch vel m = Returns (m', r).
Proof.
  intros H. unfold addNote.
  edestruct (findChannel_returns channel) as (m1 & c & ->); [exact H|].
  cbn [obind]. destruct (JS.truthyInt vel); eauto.
Qed.

Lemma addNote_store time beats channel pitch vel m m' r :
  addNote time beats channel pitch vel m = Returns (m', r) ->
  r = length (store m) /\
  store m' =
    if JS.truthyInt vel then store m ++ [new_Note time beats channel pitch vel]
    else resolveAt time beats (store m ++ [new_Note time beats channel pitch vel])
           (nearest (isNoteOnOf (store m ++ [new_Note time beats channel pitch vel]) pitch)
                    (notesOf m channel)).
Proof.
  unfold addNote.
  destruct (findChannel channel _) as [[m1 c]|] eqn:Hf; [|discriminate].
  apply findChannel_spec in Hf as (Hs & Hn & Hc & _). cbn in Hs, Hn, Hc.
  cbn [obind].
  destruct (JS.truthyInt vel).
  - intros [= <- <-]. cbn. by rewrite Hs.
  - intros [= <- <-]. cbn. split; [done|].
    rewrite length_app. cbn [length]. rewrite Nat.add_sub.
    rewrite assignDuration_nearest, Hs, Hc. reflexivity.
Qed.

Lemma nearest_ext (p q : nat -> bool) l :
  (forall r, r ∈ l -> p r = q r) -> nearest p l = nearest q l.
Proof.
  unfold nearest. intros H.
  assert (forall r, r ∈ rev l -> p r = q r) as H'.
  { intros r Hr. apply H. rewrite list_elem_of_In in *. by apply in_rev. }
  clear H. induction (rev l) as [|x l' IH]; [reflexivity|]. simpl.
  rewrite (H' x) by apply list_elem_of_here.
  destruct (q x); [reflexivity|]. apply IH. intros r Hr. apply H'.
  by apply list_elem_of_further.
Qed.

Lemma nearest_Some p l r : nearest p l = Some r -> r ∈ l /\ p r = true.
Proof.
  unfold nearest. intros H. apply find_some in H as [H1 H2]. split; [|done].
  apply list_elem_of_In. by apply in_rev.
Qed.

Lemma isNoteOnOf_app h n pitch r :
  (r < length h)%nat -> isNoteOnOf (h ++ [n]) pitch r = isNoteOnOf h pitch r.
Proof. intros H. unfold isNoteOnOf. by rewrite lookup_app_l. Qed.

Lemma isNoteOnOf_true h pitch r :
  isNoteOnOf h pitch r = true ->
  exists n v, h !! r = Some n /\ note_vel n = Some v /\ v <> 0.
Proof.
  unfold isNoteOnOf. destruct (h !! r) as [n|]; [|discriminate].
  intros H. apply andb_prop in H as [H _].
  unfold JS.truthyInt in H. destruct (note_vel n) as [v|] eqn:Ev; [|discriminate].
  exists n, v. split; [done|]. split; [done|]. intros ->. discriminate.
Qed.

Lemma notesOf_valid m channel r :
  refsValid m -> r ∈ notesOf m channel -> (r < length (store m))%nat.
Proof.
  unfold refsValid, notesOf. intros H Hr.
  destruct (channels m !! channel) as [c|] eqn:E; [eauto|]. by apply elem_of_nil in Hr.
Qed.

Lemma addNote_noteOff m time beats channel pitch vel :
  refsValid m -> JS.truthyInt vel = false ->
  noteOffResolves isNoteOnOf m time beats channel pitch vel.
Proof.
  intros Hv Hvel m' r Hadd.
  apply addNote_store in Hadd as [-> Hst]. rewrite Hvel in Hst.
  set (note := new_Note time beats channel pitch vel) in *.
  rewrite (nearest_ext _ (isNoteOnOf (store m) pitch)) in Hst.
  2:{ intros r Hr. apply isNoteOnOf_app. by eapply notesOf_valid. }
  destruct (nearest _ _) as [r0|] eqn:E; cbn [resolveAt] in Hst.
  - apply nearest_Some in E as [Hin Hp].
    assert (r0 < length (store m))%nat as Hlt by (by eapply notesOf_valid).
    apply isNoteOnOf_true in Hp as (n0 & v & Hn0 & _).
    rewrite lookup_app_l, Hn0 in Hst by done.
    rewrite Hst. split; [|split].
    + rewrite list_lookup_insert_ne by lia.
      rewrite lookup_app_r by lia. rewrite Nat.sub_diag. reflexivity.
    + exists n0. split; [done|].
      apply list_lookup_insert_eq. rewrite length_app. simpl. lia.
    + intros r' Hne Hr'. rewrite list_lookup_insert_ne by done. by rewrite lookup_app_l.
  - rewrite Hst. split.
    + rewrite lookup_app_r by lia. rewrite Nat.sub_diag. reflexivity.
    + intros r' Hr'. by rewrite lookup_app_l.
Qed.

(** [refsValid] is an invariant of [addNote]. *)
Lemma resolveAt_length time beats h o : length (resolveAt time beats h o) = length h.
Proof.
  unfold resolveAt. destruct o as [r|]; [|done].
  destruct (h !! r); [|done]. apply length_insert.
Qed.

Lemma addNote_refsValid time beats channel pitch vel m m' r :
  refsValid m -> addNote time beats channel pitch vel m = Returns (m', r) ->
  refsValid m'.
Proof.
  intros Hv Hadd.
  assert (length (store m') = S (length (store m))) as Hlen.
  { apply addNote_store in Hadd as [_ ->].
    destruct (JS.truthyInt vel); rewrite ?resolveAt_length, length_app;
      cbn [length]; apply Nat.add_1_r. }
  revert Hadd. unfold addNote.
  destruct (findChannel channel _) as [[m1 c]|] eqn:Hf; [|discriminate].
  apply findChannel_spec in Hf as (Hs & Hn & Hc & Hother & Hthis).
  change (notesOf _ channel) with (notesOf m channel) in Hc.
  cbn in Hs, Hn, Hother, Hthis. cbn [obind].
  assert (forall k c0 r0,
            (<[channel := mkChannel (ch_index c) (ch_trackIndex c) (ch_midiChannel c)
                            (ch_notes c ++ [length (store m)]) (ch_insrument c)]>
               (channels m1)) !! k = Some c0 ->
            r0 ∈ ch_notes c0 -> (r0 < S (length (store m)))%nat) as Hall.
  { intros k c0 r0 Hk Hr0. destruct (decide (k = channel)) as [->|Hne].
    - rewrite lookup_insert_eq in Hk. injection Hk as <-. cbn in Hr0.
      apply elem_of_app in Hr0 as [Hr0|Hr0].
      + rewrite Hc in Hr0. apply notesOf_valid in Hr0; [lia|done].
      + apply list_elem_of_singleton in Hr0. lia.
    - rewrite lookup_insert_ne in Hk by done. rewrite Hother in Hk by done.
      specialize (Hv k c0 r0 Hk Hr0). lia. }
  destruct (JS.truthyInt vel); intros [= <- <-]; intros k c0 r0 Hk Hr0;
    rewrite Hlen; cbn in Hk; eapply Hall; eauto.
Qed.

Lemma addNote_durationOnlyOnNoteOns time beats channel pitch vel m m' r :
  durationOnlyOnNoteOns m ->
  addNote time beats channel pitch vel m = Returns (m', r) ->
  durationOnlyOnNoteOns m'.
Proof.
  intros Hinv Hadd. apply addNote_store in Hadd as [-> Hst].
  set (note := new_Note time beats channel pitch vel) in *.
  assert (durationOnlyOnNoteOns (set_store (store m ++ [note]) m)) as Hinv'.
  { intros r n Hr Hd. cbn in Hr. apply lookup_app_Some in Hr as [Hr|[_ Hr]].
    - eapply Hinv; eauto.
    - apply list_lookup_singleton_Some in Hr as [_ <-].
      destruct Hd as [[? Hd]|[? Hd]]; discriminate. }
  intros r n Hr Hd. rewrite Hst in Hr.
  destruct (JS.truthyInt vel); [by eapply Hinv'|].
  destruct (nearest _ _) as [r0|] eqn:E; cbn [resolveAt] in Hr; [|by eapply Hinv'].
  apply nearest_Some in E as [_ Hp].
  apply isNoteOnOf_true in Hp as (n0 & v & Hn0 & Hv & Hv0).
  rewrite Hn0 in Hr.
  destruct (decide (r = r0)) as [->|Hne].
  - rewrite list_lookup_insert_eq in Hr by (by eapply lookup_lt_Some).
    injection Hr as <-. exists v. by split.
  - rewrite list_lookup_insert_ne in Hr by done. by eapply Hinv'.
Qed.

Lemma addNotes_durationOnlyOnNoteOns calls : forall m m',
  durationOnlyOnNoteOns m -> addNotes calls m = Returns m' ->
  durationOnlyOnNoteOns m'.
Proof.
  induction calls as [|c calls IH]; intros m m' Hinv; simpl.
  - by intros [= <-].
  - destruct (addNote _ _ _ _ _ m) as [[m1 r]|] eqn:E; [|discriminate]. cbn.
    apply IH. by eapply addNote_durationOnlyOnNoteOns.
Qed.

Lemma addNotes_refsValid calls : forall m m',
  refsValid m -> addNotes calls m = Returns m' -> refsValid m'.
Proof.
  induction calls as [|c calls IH]; intros m m' Hinv; simpl.
  - by intros [= <-].
  - destruct (addNote _ _ _ _ _ m) as [[m1 r]|] eqn:E; [|discriminate]. cbn.
    apply IH. by eapply addNote_refsValid.
Qed.

Lemma header_refsValid contents halfSpeed :
  refsValid (MidiFile_header contents halfSpeed).
Proof.
  intros k c r Hk. unfold MidiFile_header in Hk.
  destruct (negb _) in Hk; cbn in Hk; by rewrite lookup_empty in Hk.
Qed.

Lemma header_durationOnlyOnNoteOns contents halfSpeed :
  durationOnlyOnNoteOns (MidiFile_header contents halfSpeed).
Proof.
  intros r n Hr. unfold MidiFile_header in Hr.
  destruct (negb _) in Hr; cbn in Hr; by rewrite lookup_nil in Hr.
Qed.

Lemma overlapState_eq : addNotes overlapCalls oneTrackObject = Returns overlapState.
Proof. vm_compute. reflexivity. Qed.

Lemma overlapState_refsValid : refsValid overlapState.
Proof.
  eapply addNotes_refsValid; [|exact overlapState_eq].
  exact (header_refsValid (fromCharCodes header480) false).
Qed.

End NoteAssembler.

(* ================================================================== *)
(** * Properties of [createBpmMap]                                     *)
(* ================================================================== *)

Section BpmMapBuilder.

Variable m : MidiFile.
Variable thr : Threshold.
Variable decimalPlaces : Z.

(** With or without cancellation, what has been kept stays. *)
Lemma createBpmMap_for_prefix canceledAt :
  forall rest i bpmMap b, last bpmMap = Some b ->
  exists more,
    createBpmMap_for m thr decimalPlaces canceledAt (S i) rest bpmMap
    = Returns (bpmMap ++ more).
Proof.
  induction rest as [|tempo rest IH]; intros i bpmMap b Hl.
  - exists []. simpl. by rewrite app_nil_r.
  - cbn [createBpmMap_for]. rewrite Hl. cbn [obind Nat.eqb orb].
    destruct (Double.ge _ _).
    + destruct (canceledAt (S i)); [by eexists|].
      edestruct (IH (S i)) as [more ->]; [by rewrite last_snoc|].
      rewrite <- app_assoc. by eexists.
    + destruct (canceledAt (S i)); [exists []; by rewrite app_nil_r|].
      by eapply IH.
Qed.

End BpmMapBuilder.

(** C9: at the threshold the code drops an entry that the specification
    keeps.  [createBpmMap] always keeps the entry of the first tempo
    change, and with the threshold 0.5 the tempo changes whose rounded
    BPMs are 120, 120.3, 121 and 125 leave the entries 120, 121 and 125,
    as the specification says.  But the rounded BPMs are doubles, and
    the doubles nearest to 127.7 and to 128.2, the BPMs to one decimal
    of the tempo changes 469851 and 468019, differ by
    0.4999999999999858: by the rule of the specification, with a
    difference of 0.5 that is at least the threshold 0.5, both entries
    are kept, and the code keeps the first one only. *)
Theorem createBpmMap_threshold_boundary :
  (forall (m : MidiFile) (thr : Threshold) (decimalPlaces : Z) canceledAt
          first rest,
     countDecimals thr = Returns decimalPlaces -> tempoMap m = first :: rest ->
     exists more, createBpmMap m thr canceledAt
                  = Returns (bpmEntry m decimalPlaces first :: more))
  /\ countDecimals threshold05 = Returns 1
  /\ omap (map bpm_bpm) (createBpmMap sampleTempoObject threshold05 (fun _ => false))
     = Returns [JS.ofZ 120; JS.ofZ 121; JS.ofZ 125]
  /\ map (fun t => bpm_bpm (bpmEntry boundaryTempoObject 1 t)) boundaryTempoMap
     = [Double.toNumber (Double.ofNumber (JS.Fin (Q2Qc (1277 # 10))));
        Double.toNumber (Double.ofNumber (JS.Fin (Q2Qc (1282 # 10))))]
  /\ map bpm_bpm
       (keptEntries (thr_value threshold05)
          [mkBPM (JS.ofZ 0) (JS.Fin (Q2Qc (1277 # 10))) (Some 469851);
           mkBPM (JS.ofZ 1) (JS.Fin (Q2Qc (1282 # 10))) (Some 468019)])
     = [JS.Fin (Q2Qc (1277 # 10)); JS.Fin (Q2Qc (1282 # 10))]
  /\ omap (map bpm_microsecondsPerQuarterNote)
       (createBpmMap boundaryTempoObject threshold05 (fun _ => false))
     = Returns [Some 469851]
  /\ Double.toNumber
       (Double.sub (Double.ofNumber (JS.Fin (Q2Qc (1282 # 10))))
          (Double.ofNumber (JS.Fin (Q2Qc (1277 # 10)))))
     = JS.Fin (Q2Qc (9007199254740736 # 18014398509481984))
  /\ Double.ge
       (Double.abs
          (Double.sub (Double.ofNumber (JS.Fin (Q2Qc (1282 # 10))))
             (Double.ofNumber (JS.Fin (Q2Qc (1277 # 10))))))
       (Double.ofNumber (thr_value threshold05))
     = false.
Proof.
  split; [|repeat split; fin_reflexivity].
  intros m thr d canceledAt first rest Hd Htm.
  unfold createBpmMap. rewrite Hd, Htm. cbn [obind].
  cbn [createBpmMap_for obind Nat.eqb orb app].
  fold (bpmEntry m d first).
  destruct (canceledAt 0%nat); [by exists []|].
  edestruct (createBpmMap_for_prefix m thr d canceledAt rest 0%nat
               [bpmEntry m d first]) as [more ->]; [reflexivity|].
  by eexists.
Qed.

(* ================================================================== *)
(** * Properties of the constructor                                    *)
(* ================================================================== *)

Section Frame.

(** The header fields, the store and the loops' progress through one
    turn of each loop. *)
Lemma findChannel_frame index m m' c :
  findChannel index m = Returns (m', c) ->
  headerFields m' = headerFields m /\ tempoMap m' = tempoMap m
  /\ microsecondsPerQuarterNote m' = microsecondsPerQuarterNote m.
Proof.
  unfold findChannel. intros H. repeat break_in H; try discriminate;
    injection H as <- <-; auto.
Qed.

Lemma addNote_frame time beats channel pitch vel m m' r :
  addNote time beats channel pitch vel m = Returns (m', r) ->
  headerFields m' = headerFields m /\ tempoMap m' = tempoMap m
  /\ microsecondsPerQuarterNote m' = microsecondsPerQuarterNote m.
Proof.
  unfold addNote. intros H.
  destruct (findChannel channel _) as [[m1 c]|] eqn:Hf; [|discriminate].
  apply findChannel_frame in Hf as (H1 & H2 & H3). cbn [obind] in H.
  destruct (JS.truthyInt vel); injection H as <- <-; auto.
Qed.

Lemma metaEvent_frame ct tr off tk prefix b1 m m' p :
  metaEvent ct tr off tk prefix b1 m = Returns (m', p) ->
  headerFields m' = headerFields m.
Proof.
  unfold metaEvent, obind. intros H.
  repeat (break_in H; try discriminate); injection H as <- <-; try reflexivity.
  all: match goal with
       | Hf : findChannel _ _ = Returns _ |- _ =>
           apply findChannel_frame in Hf as (Hf & _); exact Hf
       end.
Qed.

(** [wellFormed] depends on the store, the channels and the tempo map
    alone. *)
Lemma wellFormed_ext m m' :
  store m' = store m -> channels m' = channels m -> tempoMap m' = tempoMap m ->
  wellFormed m -> wellFormed m'.
Proof.
  unfold wellFormed, durationOnlyOnNoteOns, refsValid, ticksNotNegative.
  intros -> -> ->. done.
Qed.

Lemma findChannel_wellFormed index m m' c :
  findChannel index m = Returns (m', c) -> wellFormed m -> wellFormed m'.
Proof.
  intros Hf (Hd & Hr & Ht).
  pose proof (findChannel_frame _ _ _ _ Hf) as (_ & Htm & _).
  apply findChannel_spec in Hf as (Hs & _ & Hc & Hother & Hthis).
  split; [|split].
  - unfold durationOnlyOnNoteOns. by rewrite Hs.
  - intros k c0 r Hk Hin. rewrite Hs. destruct (decide (k = index)) as [->|Hne].
    + rewrite Hthis in Hk. injection Hk as <-. rewrite Hc in Hin.
      by eapply notesOf_valid.
    + rewrite Hother in Hk by done. by eapply Hr.
  - unfold ticksNotNegative. by rewrite Htm.
Qed.

Lemma addNote_wellFormed time beats channel pitch vel m m' r :
  addNote time beats channel pitch vel m = Returns (m', r) ->
  wellFormed m -> wellFormed m'.
Proof.
  intros Ha (Hd & Hr & Ht). split; [|split].
  - by eapply addNote_durationOnlyOnNoteOns.
  - by eapply addNote_refsValid.
  - apply addNote_frame in Ha as (_ & Htm & _). unfold ticksNotNegative. by rewrite Htm.
Qed.

Lemma metaEvent_wellFormed ct tr off tk prefix b1 m m' p :
  metaEvent ct tr off tk prefix b1 m = Returns (m', p) ->
  0 <= tk -> wellFormed m -> wellFormed m'.
Proof.
  unfold metaEvent, obind. intros H Htk Hw.
  repeat (break_in H; try discriminate); injection H as <- <-; try exact Hw;
    try (by eapply wellFormed_ext; [..|exact Hw]).
  - (* tempo *)
    destruct Hw as (Hd & Hr & Ht). split; [exact Hd|split; [exact Hr|]].
    unfold ticksNotNegative. cbn [tempoMap addTempo set_tempo].
    apply Forall_app. split; [exact Ht|]. by repeat constructor.
  - (* instrument name *)
    match goal with
    | Hf : findChannel ?i _ = Returns (?m1, ?c) |- _ =>
        pose proof (findChannel_wellFormed _ _ _ _ Hf Hw) as (Hd & Hr & Ht);
        apply findChannel_spec in Hf as (_ & _ & _ & _ & Hthis);
        split; [exact Hd|split; [|exact Ht]];
        intros k c0 r Hk Hin; cbn [channels set_channels store] in *;
        destruct (decide (k = i)) as [->|Hne];
        [ rewrite lookup_insert_eq in Hk; injection Hk as <-; cbn [ch_notes] in Hin
        | rewrite lookup_insert_ne in Hk by done ];
        by eapply Hr
    end.
Qed.

Lemma event_body_inv ct tr off s m m' s' :
  event_body ct tr off s m = Returns (m', s') ->
  headerFields m' = headerFields m
  /\ movedOn off s'
  /\ (0 <= ticks s -> wellFormed m -> wellFormed m' /\ 0 <= ticks s').
Proof.
  unfold event_body, obind. intros H.
  pose proof (getVarLen_pos (file m) off) as Hlen.
  pose proof (getVarVal_nonneg (file m) off) as Hval.
  break_hyps.
  all: repeat match goal with
         | Ha : addNote _ _ _ _ _ _ = Returns _ |- _ =>
             pose proof (addNote_frame _ _ _ _ _ _ _ _ Ha) as (? & _);
             pose proof (addNote_wellFormed _ _ _ _ _ _ _ _ Ha);
             clear Ha
         | Hm : metaEvent _ _ _ _ _ _ _ = Returns _ |- _ =>
             pose proof (metaEvent_frame _ _ _ _ _ _ _ _ _ Hm);
             pose proof (metaEvent_wellFormed _ _ _ _ _ _ _ _ _ Hm);
             clear Hm
         | Hg : getEventLength _ _ _ = Some _ |- _ =>
             apply getEventLength_pos in Hg
         end.
  all: split; [by auto|split];
    [unfold movedOn; cbn [chunkOffset]; try lia; exact I|].
  all: cbn [ticks]; intros Hticks Hw; split; [|lia]; auto.
  all: match goal with
       | Hm : _ <= _ -> wellFormed _ -> wellFormed ?x |- wellFormed ?x =>
           apply Hm; [lia|exact Hw]
       end.
Qed.

Lemma events_while_inv ct tr chunkEnd : forall fuel s m m' s',
  events_while fuel ct tr chunkEnd s m = Returns (m', s') ->
  headerFields m' = headerFields m
  /\ (fuelCovers fuel (chunkOffset s) chunkEnd ->
      inChunk (chunkOffset s') chunkEnd = None)
  /\ (0 <= ticks s -> wellFormed m -> wellFormed m').
Proof.
  induction fuel as [|fuel IH]; intros s m m' s' H.
  - injection H as <- <-. split; [done|split; [|auto]].
    unfold fuelCovers, inChunk. destruct (chunkOffset s) as [o|], chunkEnd as [e|]; try done.
    intros Hf. destruct (Z.ltb_spec o e); [lia|done].
  - cbn [events_while] in H.
    destruct (inChunk (chunkOffset s) chunkEnd) as [off|] eqn:Hin.
    2:{ injection H as <- <-. split; [reflexivity|split; [intros _; exact Hin|tauto]]. }
    unfold obind in H.
    destruct (event_body ct tr off s m) as [[m1 s1]|] eqn:Hb; [|discriminate].
    apply event_body_inv in Hb as (Hh & Hm & Hw).
    apply IH in H as (Hh' & Hf' & Hw').
    split; [congruence|split].
    + intros Hf. apply Hf'. unfold inChunk in Hin. unfold fuelCovers, movedOn in *.
      destruct (chunkOffset s) as [o|], chunkEnd as [e|]; try discriminate.
      destruct (Z.ltb_spec o e); [|discriminate]. injection Hin as <-.
      destruct (chunkOffset s1); [lia|done].
    + intros Ht Hwm. destruct (Hw Ht Hwm). auto.
Qed.

Lemma charCodeAt_nonneg f off x : charCodeAt f off = Some x -> 0 <= x.
Proof. intros H. apply charCodeAt_Some in H as [_ [H _]]. exact H. Qed.

Lemma getLong_nonneg f off l : getLong f off = Some l -> 0 <= l.
Proof.
  unfold getLong, addInt, scaleInt. intros H.
  repeat match goal with
         | H : context [charCodeAt f ?o] |- _ =>
             let E := fresh "E" in
             destruct (charCodeAt f o) eqn:E; [apply charCodeAt_nonneg in E|discriminate]
         end.
  injection H as <-. change (Z.shiftl 1 24) with 16777216.
  change (Z.shiftl 1 16) with 65536. change (Z.shiftl 1 8) with 256. lia.
Qed.

Lemma chunk_body_inv off ct m m' s' :
  chunk_body off ct m = Returns (m', s') ->
  headerFields m' = headerFields m
  /\ match offset s' with Some o => off + 8 <= o | None => True end
  /\ (wellFormed m -> wellFormed m').
Proof.
  unfold chunk_body, obind. intros H.
  assert (match addInt (Some (off + 8)) (getLong (file m) (off + 4)) with
          | Some o => off + 8 <= o
          | None => True
          end) as Hoff.
  { destruct (getLong (file m) (off + 4)) as [l|] eqn:Hl; [|exact I].
    apply getLong_nonneg in Hl. cbn [addInt]. lia. }
  destruct (String.eqb _ _).
  - destruct (events_while _ _ _ _ _ _) as [[m1 s1]|] eqn:He; [|discriminate].
    apply events_while_inv in He as (Hh & _ & Hw).
    injection H as <- <-. cbn [offset]. split; [exact Hh|split; [exact Hoff|]].
    intros Hwm. apply Hw; [cbn [ticks]; lia|].
    by eapply wellFormed_ext; [..|exact Hwm].
  - injection H as <- <-. cbn [offset]. split; [done|split; [exact Hoff|]].
    intros Hwm. by eapply wellFormed_ext; [..|exact Hwm].
Qed.

Lemma headerFields_fileLength m m' :
  headerFields m' = headerFields m -> fileLength m' = fileLength m.
Proof. unfold headerFields. congruence. Qed.

Lemma chunks_while_inv : forall fuel s m m' s',
  chunks_while fuel s m = Returns (m', s') ->
  headerFields m' = headerFields m
  /\ (fuelCovers fuel (offset s) (Some (fileLength m)) ->
      inFile (offset s') (fileLength m') = None)
  /\ (wellFormed m -> wellFormed m').
Proof.
  induction fuel as [|fuel IH]; intros s m m' s' H.
  - injection H as <- <-. split; [done|split; [|auto]].
    unfold fuelCovers, inFile. destruct (offset s) as [o|]; try done.
    intros Hf. destruct (Z.ltb_spec o (fileLength m)); [lia|done].
  - cbn [chunks_while] in H.
    destruct (inFile (offset s) (fileLength m)) as [off|] eqn:Hin.
    2:{ injection H as <- <-. split; [reflexivity|split; [intros _; exact Hin|tauto]]. }
    unfold obind in H.
    destruct (chunk_body off (currentTrack s) m) as [[m1 s1]|] eqn:Hb; [|discriminate].
    apply chunk_body_inv in Hb as (Hh & Hm & Hw).
    apply IH in H as (Hh' & Hf' & Hw').
    split; [congruence|split; [|auto]].
    intros Hf. apply Hf'. rewrite (headerFields_fileLength _ _ Hh).
    unfold inFile in Hin. unfold fuelCovers in *.
    destruct (offset s) as [o|]; try discriminate.
    destruct (Z.ltb_spec o (fileLength m)); [|discriminate]. injection Hin as <-.
    destruct (offset s1); [lia|done].
Qed.

Lemma header_wellFormed contents halfSpeed :
  wellFormed (MidiFile_header contents halfSpeed).
Proof.
  split; [apply header_durationOnlyOnNoteOns|split; [apply header_refsValid|]].
  unfold ticksNotNegative, MidiFile_header. destruct (negb _); constructor.
Qed.

(** The constructor: the header fields are those read at the start, and
    the object is well formed. *)
Lemma MidiFile_new_inv contents halfSpeed canceled m :
  MidiFile_new contents halfSpeed canceled = Returns m ->
  headerFields m = headerFields (MidiFile_header contents halfSpeed)
  /\ wellFormed m.
Proof.
  unfold MidiFile_new, obind. destruct canceled.
  - intros [= <-]. split; [done|apply header_wellFormed].
  - destruct (chunks_while _ _ _) as [[m1 s1]|] eqn:Hc; [|discriminate].
    apply chunks_while_inv in Hc as (Hh & _ & Hw).
    intros [= <-]. split; [exact Hh|].
    eapply wellFormed_ext; [..|exact (Hw (header_wellFormed contents halfSpeed))];
      reflexivity.
Qed.

(** Both loops of the constructor run to their end within their fuel. *)
Lemma chunks_while_done contents halfSpeed m' s' :
  let m := MidiFile_header contents halfSpeed in
  chunks_while (Z.to_nat (fileLength m - 14)) (mkScanState (Some 14) 0) m
  = Returns (m', s') ->
  inFile (offset s') (fileLength m') = None.
Proof.
  intros m H. apply chunks_while_inv in H as (_ & H & _). apply H.
  unfold fuelCovers. cbn [offset]. lia.
Qed.

Lemma events_while_done ct tr off chunkEnd s m m' s' :
  chunkOffset s = Some off ->
  events_while (eventsFuel off chunkEnd) ct tr chunkEnd s m = Returns (m', s') ->
  inChunk (chunkOffset s') chunkEnd = None.
Proof.
  intros Hs H. apply events_while_inv in H as (_ & H & _). apply H.
  unfold fuelCovers, eventsFuel. rewrite Hs. destruct chunkEnd; [lia|done].
Qed.

End Frame.

(** ** The signature is read once, for [isMidi] alone *)

Section Signature.

Variables f1 f2 : string.
Hypothesis same : sameAfterSignature f1 f2.

Lemma charCodeAt_same off : 4 <= off -> charCodeAt f2 off = charCodeAt f1 off.
Proof. intros H. symmetry. by apply same. Qed.

Lemma substring_same a b : 4 <= a -> substring f2 a b = substring f1 a b.
Proof. intros H. symmetry. by apply same. Qed.

Lemma strlen_same : strlen f2 = strlen f1.
Proof. symmetry. apply same. Qed.

Lemma getByte_same off : 4 <= off -> getByte f2 off = getByte f1 off.
Proof. apply charCodeAt_same. Qed.

Lemma getShort_same off : 4 <= off -> getShort f2 off = getShort f1 off.
Proof. intros H. unfold getShort. rewrite !charCodeAt_same by lia. reflexivity. Qed.

Lemma getInt24_same off : 4 <= off -> getInt24 f2 off = getInt24 f1 off.
Proof. intros H. unfold getInt24. rewrite !charCodeAt_same by lia. reflexivity. Qed.

Lemma getLong_same off : 4 <= off -> getLong f2 off = getLong f1 off.
Proof. intros H. unfold getLong. rewrite !charCodeAt_same by lia. reflexivity. Qed.

Lemma getVarVal_loop_same : forall fuel result off, 4 <= off ->
  getVarVal_loop f2 fuel result off = getVarVal_loop f1 fuel result off.
Proof.
  induction fuel as [|fuel IH]; intros result off H; simpl; [done|].
  rewrite charCodeAt_same by lia. destruct (negb _); [|done]. apply IH. lia.
Qed.

Lemma getVarLen_loop_same : forall fuel result off, 4 <= off ->
  getVarLen_loop f2 fuel result off = getVarLen_loop f1 fuel result off.
Proof.
  induction fuel as [|fuel IH]; intros result off H; simpl; [done|].
  rewrite charCodeAt_same by lia. destruct (negb _); [|done]. apply IH. lia.
Qed.

Lemma getVarVal_same off : 4 <= off -> getVarVal f2 off = getVarVal f1 off.
Proof.
  intros H. unfold getVarVal, varFuel. rewrite strlen_same.
  by apply getVarVal_loop_same.
Qed.

Lemma getVarLen_same off : 4 <= off -> getVarLen f2 off = getVarLen f1 off.
Proof.
  intros H. unfold getVarLen, varFuel. rewrite strlen_same.
  by apply getVarLen_loop_same.
Qed.

Lemma getVarString_same off : 4 <= off -> getVarString f2 off = getVarString f1 off.
Proof.
  intros H. unfold getVarString. rewrite getVarVal_same, getVarLen_same by lia.
  pose proof (getVarLen_pos f1 off). apply substring_same. lia.
Qed.

Lemma getEventLength_same status off :
  4 <= off -> getEventLength f2 status off = getEventLength f1 status off.
Proof.
  intros H. unfold getEventLength.
  rewrite getVarVal_same, getVarLen_same by lia. reflexivity.
Qed.

End Signature.

Section WithFile.

Variable f2 : string.
Variable flag : bool.

Lemma findChannel_withFile index m :
  findChannel index (withFile f2 flag m)
  = omap (fun p => (withFile f2 flag (fst p), snd p)) (findChannel index m).
Proof.
  unfold findChannel. cbn [withFile channels tracks set_channels set_tracks].
  repeat break_inner; reflexivity.
Qed.

Lemma addNote_withFile time beats channel pitch vel m :
  addNote time beats channel pitch vel (withFile f2 flag m)
  = omap (fun p => (withFile f2 flag (fst p), snd p)) (addNote time beats channel pitch vel m).
Proof.
  unfold addNote.
  change (set_notes (notes (withFile f2 flag m) ++ [length (store (withFile f2 flag m))])
            (set_store (store (withFile f2 flag m) ++ [new_Note time beats channel pitch vel]) (withFile f2 flag m)))
    with (withFile f2 flag (set_notes (notes m ++ [length (store m)])
                 (set_store (store m ++ [new_Note time beats channel pitch vel]) m))).
  rewrite findChannel_withFile.
  destruct (findChannel channel _) as [[m1 c]|]; [|reflexivity].
  cbn [omap obind fst snd]. destruct (JS.truthyInt vel); reflexivity.
Qed.

Variable m : MidiFile.
Hypothesis same : sameAfterSignature (file m) f2.

Lemma metaEvent_withFile ct tr off tk prefix b1 :
  4 <= off ->
  metaEvent ct tr off tk prefix b1 (withFile f2 flag m)
  = omap (fun p => (withFile f2 flag (fst p), snd p)) (metaEvent ct tr off tk prefix b1 m).
Proof.
  intros Hoff. unfold metaEvent.
  change (file (withFile f2 flag m)) with f2.
  rewrite !(getVarString_same _ _ same), !(getByte_same _ _ same),
    !(getInt24_same _ _ same) by lia.
  change (tracks (withFile f2 flag m)) with (tracks m).
  repeat (break_inner; try reflexivity).
  all: rewrite findChannel_withFile.
  all: destruct (findChannel _ m) as [[m1 c]|]; reflexivity.
Qed.

Lemma event_body_withFile ct tr off s :
  4 <= off ->
  event_body ct tr off s (withFile f2 flag m)
  = omap (fun p => (withFile f2 flag (fst p), snd p)) (event_body ct tr off s m).
Proof.
  intros Hoff. unfold event_body.
  change (file (withFile f2 flag m)) with f2.
  change (timeDivision (withFile f2 flag m)) with (timeDivision m).
  change (microsecondsPerQuarterNote (withFile f2 flag m)) with (microsecondsPerQuarterNote m).
  change (getTime (withFile f2 flag m)) with (getTime m).
  pose proof (getVarLen_pos (file m) off) as Hlen.
  rewrite !(getVarVal_same _ _ same), !(getVarLen_same _ _ same) by lia.
  rewrite !(charCodeAt_same _ _ same (off + getVarLen (file m) off)) by lia.
  destruct (negb (ticks s + getVarVal (file m) off =? 0) && _ && _);
    destruct (negb (JS.band _ 128 =? 0)).
  all: rewrite !(charCodeAt_same _ _ same), !(getEventLength_same _ _ same) by lia.
  all: repeat (break_inner; try reflexivity).
  all: rewrite ?addNote_withFile, ?metaEvent_withFile by lia.
  all: try (destruct (addNote _ _ _ _ _ m) as [[? ?]|]; reflexivity).
  all: destruct (metaEvent _ _ _ _ _ _ m) as [[? ?]|]; reflexivity.
Qed.

End WithFile.

Section Decoding.

Variable f2 : string.
Variable flag : bool.

Lemma headerFields_file m m' : headerFields m' = headerFields m -> file m' = file m.
Proof. unfold headerFields. congruence. Qed.

Lemma events_while_withFile ct tr chunkEnd : forall fuel s m,
  sameAfterSignature (file m) f2 -> cursorAfterSignature (chunkOffset s) ->
  events_while fuel ct tr chunkEnd s (withFile f2 flag m)
  = omap (fun p => (withFile f2 flag (fst p), snd p)) (events_while fuel ct tr chunkEnd s m).
Proof.
  induction fuel as [|fuel IH]; intros s m Hs Hc; [reflexivity|].
  cbn [events_while].
  destruct (inChunk (chunkOffset s) chunkEnd) as [off|] eqn:Hin; [|reflexivity].
  assert (4 <= off) as Hoff.
  { unfold inChunk, cursorAfterSignature in *.
    destruct (chunkOffset s), chunkEnd; try discriminate.
    destruct (_ <? _); [|discriminate]. by injection Hin as <-. }
  rewrite (event_body_withFile f2 flag m Hs ct tr off s Hoff).
  destruct (event_body ct tr off s m) as [[m1 s1]|] eqn:Hb; [|reflexivity].
  cbn [omap obind fst snd].
  apply event_body_inv in Hb as (Hh & Hm & _).
  apply IH.
  - by rewrite (headerFields_file _ _ Hh).
  - unfold movedOn, cursorAfterSignature in *. destruct (chunkOffset s1); [lia|done].
Qed.

Lemma chunk_body_withFile off ct m :
  sameAfterSignature (file m) f2 -> 4 <= off ->
  chunk_body off ct (withFile f2 flag m)
  = omap (fun p => (withFile f2 flag (fst p), snd p)) (chunk_body off ct m).
Proof.
  intros Hs Hoff. unfold chunk_body.
  change (file (withFile f2 flag m)) with f2.
  rewrite (substring_same _ _ Hs), (getLong_same _ _ Hs) by lia.
  destruct (String.eqb _ _); [|reflexivity].
  change (set_tracks
            (tracks (set_counters (chunkCount (withFile f2 flag m) + 1) (noteOns (withFile f2 flag m))
                       (noteOffs (withFile f2 flag m)) (withFile f2 flag m)) ++ [new_Track])
            (set_counters (chunkCount (withFile f2 flag m) + 1) (noteOns (withFile f2 flag m))
               (noteOffs (withFile f2 flag m)) (withFile f2 flag m)))
    with (withFile f2 flag (set_tracks
                 (tracks (set_counters (chunkCount m + 1) (noteOns m) (noteOffs m) m)
                    ++ [new_Track])
                 (set_counters (chunkCount m + 1) (noteOns m) (noteOffs m) m))).
  rewrite events_while_withFile; [|exact Hs|simpl; lia].
  change (tracks (set_counters (chunkCount (withFile f2 flag m) + 1) (noteOns (withFile f2 flag m))
                    (noteOffs (withFile f2 flag m)) (withFile f2 flag m)))
    with (tracks (set_counters (chunkCount m + 1) (noteOns m) (noteOffs m) m)).
  destruct (events_while _ _ _ _ _ _) as [[m1 s1]|]; reflexivity.
Qed.

Lemma chunks_while_withFile : forall fuel s m,
  sameAfterSignature (file m) f2 -> cursorAfterSignature (offset s) ->
  chunks_while fuel s (withFile f2 flag m)
  = omap (fun p => (withFile f2 flag (fst p), snd p)) (chunks_while fuel s m).
Proof.
  induction fuel as [|fuel IH]; intros s m Hs Hc; [reflexivity|].
  cbn [chunks_while]. change (fileLength (withFile f2 flag m)) with (fileLength m).
  destruct (inFile (offset s) (fileLength m)) as [off|] eqn:Hin; [|reflexivity].
  assert (4 <= off) as Hoff.
  { unfold inFile, cursorAfterSignature in *.
    destruct (offset s); try discriminate.
    destruct (_ <? _); [|discriminate]. by injection Hin as <-. }
  rewrite (chunk_body_withFile off (currentTrack s) m Hs Hoff).
  destruct (chunk_body off (currentTrack s) m) as [[m1 s1]|] eqn:Hb; [|reflexivity].
  cbn [omap obind fst snd].
  apply chunk_body_inv in Hb as (Hh & Hm & _).
  apply IH.
  - by rewrite (headerFields_file _ _ Hh).
  - unfold cursorAfterSignature. destruct (offset s1); [lia|done].
Qed.

End Decoding.

Lemma MidiFile_header_same f1 f2 halfSpeed :
  sameAfterSignature f1 f2 ->
  MidiFile_header f2 halfSpeed
  = withFile f2 (isMidi f2) (MidiFile_header f1 halfSpeed).
Proof.
  intros Hs. unfold MidiFile_header.
  rewrite !(getShort_same _ _ Hs) by lia. rewrite (strlen_same _ _ Hs).
  destruct (negb _); reflexivity.
Qed.

Lemma MidiFile_header_file f halfSpeed : file (MidiFile_header f halfSpeed) = f.
Proof. unfold MidiFile_header. destruct (negb _); reflexivity. Qed.

Lemma MidiFile_new_same f1 f2 halfSpeed canceled :
  sameAfterSignature f1 f2 ->
  MidiFile_new f2 halfSpeed canceled
  = omap (withFile f2 (isMidi f2)) (MidiFile_new f1 halfSpeed canceled).
Proof.
  intros Hs. unfold MidiFile_new. rewrite (MidiFile_header_same f1 f2 halfSpeed Hs).
  destruct canceled; [reflexivity|].
  change (fileLength (withFile f2 (isMidi f2) (MidiFile_header f1 halfSpeed)))
    with (fileLength (MidiFile_header f1 halfSpeed)).
  rewrite chunks_while_withFile;
    [|by rewrite MidiFile_header_file|simpl; lia].
  destruct (chunks_while _ _ _) as [[m1 s1]|]; reflexivity.
Qed.

Lemma sameAfterSignature_app sig1 sig2 rest :
  String.length sig1 = 4%nat -> String.length sig2 = 4%nat ->
  sameAfterSignature (sig1 ++ rest) (sig2 ++ rest).
Proof.
  intros H1 H2.
  destruct sig1 as [|a1 [|a2 [|a3 [|a4 [|? ?]]]]]; try discriminate.
  destruct sig2 as [|b1 [|b2 [|b3 [|b4 [|? ?]]]]]; try discriminate.
  split; [reflexivity|split].
  - intros off Hoff. unfold charCodeAt.
    destruct (Z.ltb_spec off 0); [done|].
    replace (Z.to_nat off) with (4 + Z.to_nat (off - 4))%nat by lia. reflexivity.
  - intros a b Ha. unfold substring.
    replace (Z.to_nat a) with (4 + Z.to_nat (a - 4))%nat by lia. reflexivity.
Qed.

(** ** A file read from end to end *)

(** The file of [header480] and [noteTrack]: one chunk and one track, the
    tempo of the file, and on channel 0 a note-on of pitch 60 at second 0
    that lasts half a second, or one beat, up to its note-off. *)
Lemma MidiFile_new_noteTrack :
  omap (fun m => (chunkCount m, length (tracks m), tempoMap m, notes m,
                  notesOf m 0, store m))
    (MidiFile_new (fromCharCodes (header480 ++ noteTrack)) false false)
  = Returns
      (1, 1%nat, [mkTempo 0 (Some 500000)], [0%nat; 1%nat], [0%nat; 1%nat],
       [mkNote (JS.ofZ 0) (JS.ofZ 0) 0 (Some 60) (Some 100)
          (Some (JS.Fin (Q2Qc (1 # 2)))) (Some (JS.ofZ 1));
        mkNote (JS.Fin (Q2Qc (1 # 2))) (JS.ofZ 1) 0 (Some 60) (Some 0)
          None None]).
Proof. fin_reflexivity. Qed.

(** ** The signature *)

(** C3, as the specification states it, fails: this file opens with
    [XXXX], [isMidi] says so, and the constructor goes on all the same,
    scans the track chunk and records a track, two notes and a tempo. *)
Lemma failsFast_counterexample :
  isMidi badSignatureFile = false /\ ~ failsFast badSignatureFile false false.
Proof.
  split; [reflexivity|]. intros H.
  destruct (MidiFile_new badSignatureFile false false) as [m|] eqn:E;
    [|vm_compute in E; discriminate E].
  destruct (H m E) as (Hc & _).
  vm_compute in E. injection E as <-. discriminate Hc.
Qed.

(** C3, amended.  The signature decides the flag [isMidi] of the object
    and nothing else.  For a file whose first four bytes are not [MThd]
    the constructor does not fail: if it returns, the object carries
    [isMidi = false] and the header fields read from the file; and on a
    file of at least four bytes it does, apart from that flag and the
    stored string, exactly what it does on the same bytes under the
    signature [MThd]: the same chunks are scanned and the same tracks,
    notes, tempo and time-signature entries recorded, or the same
    exception raised. *)
Theorem signature_only_sets_isMidi :
  (forall contents halfSpeed canceled m,
     isMidi contents = false ->
     MidiFile_new contents halfSpeed canceled = Returns m ->
     isMidiFlag m = false
     /\ headerFields m = headerFields (MidiFile_header contents halfSpeed))
  /\ (forall sig rest halfSpeed canceled,
        String.length sig = 4%nat -> sig <> "MThd"%string ->
        isMidi (sig ++ rest) = false
        /\ MidiFile_new (sig ++ rest) halfSpeed canceled
           = omap (withFile (sig ++ rest) false)
               (MidiFile_new ("MThd" ++ rest) halfSpeed canceled)).
Proof.
  split.
  - intros contents halfSpeed canceled m Hsig Hm.
    apply MidiFile_new_inv in Hm as [Hh _]. split; [|exact Hh].
    assert (isMidiFlag m = isMidiFlag (MidiFile_header contents halfSpeed)) as ->
      by (unfold headerFields in Hh; congruence).
    rewrite <- Hsig. unfold MidiFile_header. destruct (negb _); reflexivity.
  - intros sig rest halfSpeed canceled Hlen Hne.
    assert (isMidi (sig ++ rest) = false) as Hsig.
    { unfold isMidi, substring.
      destruct sig as [|a1 [|a2 [|a3 [|a4 [|? ?]]]]]; try discriminate.
      replace (String.substring (Z.to_nat 0) (Z.to_nat (4 - 0))
                 (String a1 (String a2 (String a3 (String a4 ""))) ++ rest))
        with (String a1 (String a2 (String a3 (String a4 ""))))
        by (destruct rest; reflexivity).
      by apply String.eqb_neq. }
    split; [exact Hsig|]. rewrite <- Hsig.
    apply MidiFile_new_same, sameAfterSignature_app; [reflexivity|exact Hlen].
Qed.

Lemma signature_only_sets_isMidi_witness :
  isMidi badSignatureFile = false
  /\ MidiFile_new badSignatureFile false false
     = omap (withFile badSignatureFile false)
         (MidiFile_new (fromCharCodes (header480 ++ noteTrack)) false false).
Proof.
  apply (proj2 signature_only_sets_isMidi "XXXX"%string
           (fromCharCodes (drop 4 header480 ++ noteTrack)) false false).
  - reflexivity.
  - discriminate.
Defined.

(** ** The division in frames per second *)







(** ** System-exclusive events *)

(** C5: the code misses the status 0xF7.  [getEventLength] gives the
    status 0xF0 the length it gives a meta event, the quantity read one
    byte after the cursor plus its byte count plus one, but has no branch
    for 0xF7 and returns [undefined]: the cursor of the track becomes
    [NaN] and the loop over its events ends there.  The note-on that
    follows the event in [sysexFile] is read under 0xF0 and lost under
    0xF7.  (Under 0xF0 the formula of the meta events skips the event
    only when its first data byte happens to be its length less one: the
    note-on after the message of [gmResetFile] is lost as well.) *)
Theorem getEventLength_sysex :
  (forall f off,
     getEventLength f 0xf0 off
     = Some (getVarVal f (off + 1) + getVarLen f (off + 1) + 1)
     /\ getEventLength f 0xf0 off = getEventLength f 0xff off)
  /\ (forall f off, getEventLength f 0xf7 off = None)
  /\ omap (fun m => length (store m)) (MidiFile_new (sysexFile 0xf0) false false)
     = Returns 1%nat
  /\ omap (fun m => length (store m)) (MidiFile_new (sysexFile 0xf7) false false)
     = Returns 0%nat
  /\ omap (fun m => length (store m)) (MidiFile_new gmResetFile false false)
     = Returns 0%nat.
Proof.
  split; [|split; [|split; [|split]]]; try reflexivity.
  intros f off. split; reflexivity.
Qed.

(** ** Notes *)

(** C1, as the specification states it, fails.  In [overlapState] the
    channel holds two note-ons of pitch 60 and a note-off that has given
    the second one its duration.  A further note-off of pitch 60 should
    then end the first note-on, the nearest one whose duration is unset;
    the code leaves it as it is and overwrites the duration of the
    second. *)
Lemma noteOff_open_counterexample :
  ~ noteOffResolves isOpenNoteOnOf overlapState
      (JS.ofZ 3) (JS.ofZ 6) 0 (Some 60) (Some 0).
Proof.
  intros H.
  destruct (addNote (JS.ofZ 3) (JS.ofZ 6) 0 (Some 60) (Some 0) overlapState)
    as [[m' r]|] eqn:E; [|vm_compute in E; discriminate E].
  destruct (H m' r E) as [_ H'].
  vm_compute in E. injection E as <- <-.
  vm_compute in H'. destruct H' as [(n0 & Hn0 & Hres) _].
  injection Hn0 as <-. discriminate Hres.
Qed.

(** C1, amended.  A note-off (a note whose velocity is 0) handled by
    [addNote] is stored without a duration, and the backward scan of its
    channel's list gives a duration, in seconds and in beats the note-off's
    time minus the note's own, to exactly one note: the nearest preceding
    entry with a velocity above zero and the same pitch, whether or not
    that entry already had a duration.  No other note changes, and none
    changes when the channel has no such entry.  The call returns as soon
    as the channel exists or its track is allocated.  ([refsValid] holds
    of every object the constructor returns, [MidiFile_new_inv], and
    [addNote] keeps it, [addNote_refsValid].) *)
Theorem addNote_noteOff_nearest (m : MidiFile) (time beats : JS.number)
    (channel : Z) (pitch vel : option Z) :
  refsValid m -> JS.truthyInt vel = false ->
  noteOffResolves isNoteOnOf m time beats channel pitch vel
  /\ (is_Some (channels m !! channel)
      \/ is_Some (nthZ (tracks m) (channel / 16)) ->
      exists m' r, addNote time beats channel pitch vel m = Returns (m', r)).
Proof.
  intros Hv Hvel. split.
  - by apply addNote_noteOff.
  - apply addNote_returns.
Qed.

Lemma addNote_noteOff_nearest_witness :
  noteOffResolves isNoteOnOf overlapState (JS.ofZ 3) (JS.ofZ 6) 0 (Some 60) (Some 0)
  /\ exists m' r,
       addNote (JS.ofZ 3) (JS.ofZ 6) 0 (Some 60) (Some 0) overlapState
       = Returns (m', r).
Proof.
  destruct (addNote_noteOff_nearest overlapState (JS.ofZ 3) (JS.ofZ 6) 0
              (Some 60) (Some 0) overlapState_refsValid eq_refl) as [H1 H2].
  split; [exact H1|]. apply H2. left. vm_compute. eauto.
Defined.

(** C10.  After any sequence of [addNote] calls on an object where only
    notes with a velocity above zero carry a duration, only notes with a
    velocity above zero carry a duration: a note of velocity 0 has neither
    [durTime] nor [durBeats].  The object the constructor starts from, whose
    store is empty, is such an object, and so is every object that the
    constructor returns. *)
Theorem addNotes_duration_invariant :
  (forall (calls : list addNoteCall) (m m' : MidiFile),
     durationOnlyOnNoteOns m -> addNotes calls m = Returns m' ->
     durationOnlyOnNoteOns m'
     /\ forall r n, store m' !! r = Some n -> note_vel n = Some 0 ->
                    note_durTime n = None /\ note_durBeats n = None)
  /\ (forall contents halfSpeed,
        durationOnlyOnNoteOns (MidiFile_header contents halfSpeed))
  /\ (forall contents halfSpeed canceled m,
        MidiFile_new contents halfSpeed canceled = Returns m ->
        durationOnlyOnNoteOns m).
Proof.
  split; [|split; [apply header_durationOnlyOnNoteOns|]].
  - intros calls m m' Hinv Hrun.
    assert (durationOnlyOnNoteOns m') as H
      by (by eapply addNotes_durationOnlyOnNoteOns).
    split; [exact H|]. intros r n Hr Hvel.
    destruct (note_durTime n) as [d|] eqn:Ed.
    { destruct (H r n Hr) as (v & Hv & Hv0); [left; rewrite Ed; by eexists|].
      congruence. }
    destruct (note_durBeats n) as [d|] eqn:Eb; [|done].
    destruct (H r n Hr) as (v & Hv & Hv0); [right; rewrite Eb; by eexists|].
    congruence.
  - intros contents halfSpeed canceled m Hm.
    by apply MidiFile_new_inv in Hm as (_ & Hd & _).
Qed.

Lemma addNotes_duration_invariant_witness :
  durationOnlyOnNoteOns overlapState
  /\ forall r n, store overlapState !! r = Some n -> note_vel n = Some 0 ->
                 note_durTime n = None /\ note_durBeats n = None.
Proof.
  apply (proj1 addNotes_duration_invariant overlapCalls oneTrackObject overlapState).
  - intros r n Hr. vm_compute in Hr. discriminate Hr.
  - vm_compute. reflexivity.
Defined.

(* ================================================================== *)
(** * Further properties of the byte readers                           *)
(* ================================================================== *)

Section Readers.

Lemma get_is_Some s : forall n,
  (n < String.length s)%nat -> is_Some (String.get n s).
Proof.
  induction s as [|c s IH]; intros n Hn; cbn in *; [lia|].
  destruct n; [by eexists|]. apply IH. lia.
Qed.

Lemma charCodeAt_defined s off :
  is_Some (charCodeAt s off) <-> 0 <= off < strlen s.
Proof.
  split.
  - intros [x Hx]. by apply charCodeAt_Some in Hx as [? _].
  - intros [H0 H1]. unfold charCodeAt, strlen in *.
    destruct (Z.ltb_spec off 0); [lia|].
    destruct (get_is_Some s (Z.to_nat off)) as [c ->]; [lia|]. by eexists.
Qed.

Lemma charCodeAt_byte s off x : charCodeAt s off = Some x -> 0 <= x < 256.
Proof. intros H. by apply charCodeAt_Some in H as [_ ?]. Qed.

Lemma addInt_is_Some a b : is_Some (addInt a b) <-> is_Some a /\ is_Some b.
Proof.
  destruct a, b; cbn; split; intros H; try (by destruct H as [? ?]);
    try (split; by eexists); try by eexists.
  all: destruct H as [[? ?] [? ?]]; discriminate.
Qed.

Lemma scaleInt_is_Some a k : is_Some (scaleInt a k) <-> is_Some a.
Proof. destruct a; cbn; split; intros [? ?]; by eexists + discriminate. Qed.

Lemma bigEndian_isByte width n : Forall isByte (bigEndian width n).
Proof.
  induction width as [|w IH]; constructor; [|exact IH].
  unfold isByte. apply Z.mod_pos_bound. lia.
Qed.

(** The bytes written before the cursor are found again from it. *)
Lemma charCodeAt_written pre l post i x :
  Forall isByte pre -> Forall isByte l -> Forall isByte post ->
  l !! i = Some x ->
  charCodeAt (fromCharCodes (pre ++ l ++ post))
    (Z.of_nat (length pre) + Z.of_nat i) = Some x.
Proof.
  intros Hpre Hl Hpost Hi.
  apply (bytesAt_fromCharCodes pre l post); [|exact Hi].
  by repeat (apply Forall_app; split).
Qed.

End Readers.

(** X1.  The integer readers decode big-endian: wherever the one, two,
    three or four bytes of a quantity, the most significant first, stand
    in a file, [getByte], [getShort], [getInt24] and [getLong] at that
    place return the quantity. *)
Theorem readers_bigEndian (pre post : list Z) (n : Z) :
  Forall isByte pre -> Forall isByte post -> 0 <= n ->
  let at_ width := fromCharCodes (pre ++ bigEndian width n ++ post) in
  let off := Z.of_nat (length pre) in
  (n < 2 ^ 8 -> getByte (at_ 1%nat) off = Some n)
  /\ (n < 2 ^ 16 -> getShort (at_ 2%nat) off = Some n)
  /\ (n < 2 ^ 24 -> getInt24 (at_ 3%nat) off = Some n)
  /\ (n < 2 ^ 32 -> getLong (at_ 4%nat) off = Some n).
Proof.
  intros Hpre Hpost Hn at_ off.
  assert (forall width i x o, bigEndian width n !! i = Some x ->
            o = off + Z.of_nat i ->
            charCodeAt (at_ width) o = Some x) as Hat.
  { intros width i x o Hi ->.
    by apply charCodeAt_written; [| apply bigEndian_isByte | |]. }
  repeat split; intros Hlt.
  - unfold getByte.
    rewrite (Hat 1%nat 0%nat _ off eq_refl) by lia. f_equal. bigEndian_arith.
  - unfold getShort.
    rewrite (Hat 2%nat 0%nat _ off eq_refl), (Hat 2%nat 1%nat _ (off + 1) eq_refl)
      by lia.
    cbn [addInt scaleInt]. f_equal. bigEndian_arith.
  - unfold getInt24.
    rewrite (Hat 3%nat 0%nat _ off eq_refl), (Hat 3%nat 1%nat _ (off + 1) eq_refl),
      (Hat 3%nat 2%nat _ (off + 2) eq_refl) by lia.
    cbn [addInt scaleInt]. f_equal. bigEndian_arith.
  - unfold getLong.
    rewrite (Hat 4%nat 0%nat _ off eq_refl), (Hat 4%nat 1%nat _ (off + 1) eq_refl),
      (Hat 4%nat 2%nat _ (off + 2) eq_refl), (Hat 4%nat 3%nat _ (off + 3) eq_refl)
      by lia.
    cbn [addInt scaleInt]. f_equal. bigEndian_arith.
Qed.

Lemma readers_bigEndian_witness :
  getShort (fromCharCodes ([77; 84] ++ bigEndian 2 480 ++ [0])) 2 = Some 480
  /\ getInt24 (fromCharCodes ([77; 84] ++ bigEndian 3 500000 ++ [0])) 2
     = Some 500000
  /\ getLong (fromCharCodes ([77; 84] ++ bigEndian 4 4294967295 ++ [0])) 2
     = Some 4294967295.
Proof.
  assert (Forall isByte [77; 84]) as Hpre by (repeat constructor; unfold isByte; lia).
  assert (Forall isByte [0]) as Hpost by (repeat constructor; unfold isByte; lia).
  split; [|split].
  - apply (readers_bigEndian [77; 84] [0] 480 Hpre Hpost); lia.
  - apply (readers_bigEndian [77; 84] [0] 500000 Hpre Hpost); lia.
  - apply (readers_bigEndian [77; 84] [0] 4294967295 Hpre Hpost); lia.
Defined.

(** X2.  A reader returns [NaN] exactly when one of the bytes it reads
    lies outside the file, before its start or past its end; no reader
    throws.  A value that is returned lies within the range of its
    width. *)
Theorem readers_defined (s : string) (off : Z) :
  (is_Some (getByte s off) <-> 0 <= off /\ off + 1 <= strlen s)
  /\ (is_Some (getShort s off) <-> 0 <= off /\ off + 2 <= strlen s)
  /\ (is_Some (getInt24 s off) <-> 0 <= off /\ off + 3 <= strlen s)
  /\ (is_Some (getLong s off) <-> 0 <= off /\ off + 4 <= strlen s)
  /\ (forall v, getByte s off = Some v -> 0 <= v < 2 ^ 8)
  /\ (forall v, getShort s off = Some v -> 0 <= v < 2 ^ 16)
  /\ (forall v, getInt24 s off = Some v -> 0 <= v < 2 ^ 24)
  /\ (forall v, getLong s off = Some v -> 0 <= v < 2 ^ 32).
Proof.
  unfold getByte, getShort, getInt24, getLong.
  rewrite ?addInt_is_Some, ?scaleInt_is_Some, ?charCodeAt_defined.
  do 4 (split; [lia|]).
  split; [|split; [|split]]; intros v H.
  all: revert H; unfold addInt, scaleInt; intros H;
    repeat match type of H with
           | context [charCodeAt ?f ?o] =>
               let E := fresh "E" in
               destruct (charCodeAt f o) eqn:E;
               [apply charCodeAt_byte in E|discriminate]
           end;
    injection H as <-;
    change (Z.shiftl 1 24) with 16777216; change (Z.shiftl 1 16) with 65536;
    change (Z.shiftl 1 8) with 256; change (Z.shiftl 1 0) with 1;
    change (2 ^ 8) with 256; change (2 ^ 16) with 65536;
    change (2 ^ 24) with 16777216; change (2 ^ 32) with 4294967296; lia.
Qed.

Section VarString.

(** The two variable-length readers on the bytes of a quantity. *)
Lemma getVar_bytesAt s off hs b :
  bytesAt s off (hs ++ [b]) ->
  Forall (fun x => Z.land x 0x80 <> 0) hs -> Z.land b 0x80 = 0 ->
  getVarVal s off = fold_left vlqStep (hs ++ [b]) 0
  /\ getVarLen s off = Z.of_nat (length hs) + 1.
Proof.
  intros Hb Hh Hc.
  assert (length hs < varFuel s off)%nat as Hf.
  { apply bytesAt_bound in Hb; [|by destruct hs].
    rewrite length_app in Hb. simpl in Hb. unfold varFuel. lia. }
  split.
  - by apply getVarVal_loop_run.
  - unfold getVarLen. rewrite (getVarLen_loop_run s hs b); auto. lia.
Qed.

Lemma getVar_vlqEncode s off n :
  0 <= n -> bytesAt s off (vlqEncode n) ->
  getVarVal s off = n
  /\ getVarLen s off = Z.of_nat (length (vlqEncode n)).
Proof.
  intros Hn Hb.
  destruct (vlqEncode_spec n Hn) as (hs & b & He & Hv & Hh & Hc & _).
  rewrite He in Hb. destruct (getVar_bytesAt s off hs b Hb Hh Hc) as [H1 H2].
  rewrite H1, H2, <- He, Hv. split; [reflexivity|].
  rewrite He, length_app. simpl. lia.
Qed.

Lemma vlqEncode_isByte n : 0 <= n -> Forall isByte (vlqEncode n).
Proof. intros Hn. by destruct (vlqEncode_spec n Hn) as (? & ? & _ & _ & _ & _ & ?). Qed.

Lemma substring_fromCharCodes l : forall a k,
  String.substring a k (fromCharCodes l) = fromCharCodes (take k (drop a l)).
Proof.
  induction l as [|x l IH]; intros a k.
  - destruct a, k; reflexivity.
  - destruct a as [|a].
    + destruct k as [|k]; [reflexivity|].
      change (String (ascii_of_N (Z.to_N x))
                (String.substring 0 k (fromCharCodes l))
              = String (ascii_of_N (Z.to_N x)) (fromCharCodes (take k l))).
      f_equal. rewrite (IH 0%nat k). by rewrite drop_0.
    + change (String.substring a k (fromCharCodes l)
              = fromCharCodes (take k (drop a l))). apply IH.
Qed.

Lemma length_fromCharCodes l : String.length (fromCharCodes l) = length l.
Proof.
  induction l as [|x l IH]; [reflexivity|].
  change (S (String.length (fromCharCodes l)) = S (length l)). by rewrite IH.
Qed.

End VarString.

(** X3.  [getVarString] reads back a string stored under its length:
    where a file holds the variable-length encoding of a length followed
    by bytes, the method returns the bytes that the length covers, and,
    when the file ends before the length is reached, the bytes that are
    left. *)
Theorem getVarString_roundtrip (pre avail : list Z) (n : Z) :
  Forall isByte pre -> Forall isByte avail -> 0 <= n ->
  getVarString (fromCharCodes (pre ++ vlqEncode n ++ avail))
    (Z.of_nat (length pre))
  = fromCharCodes (take (Z.to_nat n) avail).
Proof.
  intros Hpre Havail Hn.
  pose proof (vlqEncode_isByte n Hn) as Henc.
  destruct (getVar_vlqEncode (fromCharCodes (pre ++ vlqEncode n ++ avail))
              (Z.of_nat (length pre)) n Hn) as [Hval Hlen].
  { apply bytesAt_fromCharCodes.
    apply Forall_app; split; [exact Hpre|]. by apply Forall_app. }
  unfold getVarString, substring. rewrite Hval, Hlen.
  rewrite substring_fromCharCodes. f_equal.
  replace (Z.to_nat (Z.of_nat (length pre) + Z.of_nat (length (vlqEncode n))))
    with (length pre + length (vlqEncode n))%nat by lia.
  replace (Z.to_nat (Z.of_nat (length pre) + Z.of_nat (length (vlqEncode n)) + n
                     - (Z.of_nat (length pre) + Z.of_nat (length (vlqEncode n)))))
    with (Z.to_nat n) by lia.
  rewrite <- drop_drop, drop_app_length, drop_app_length. reflexivity.
Qed.

Lemma getVarString_roundtrip_witness :
  getVarString
    (fromCharCodes ([255; 3] ++ vlqEncode 5 ++ [80; 105; 97; 110; 111; 0; 255]))
    2
  = "Piano"%string.
Proof.
  apply (getVarString_roundtrip [255; 3] [80; 105; 97; 110; 111; 0; 255] 5).
  - repeat constructor; unfold isByte; lia.
  - repeat constructor; unfold isByte; lia.
  - lia.
Defined.

(** X4.  The length that [getEventLength] gives for a meta event is
    that of the event: with the cursor on the type byte of a meta event
    of any type, followed by the variable-length encoding of the length
    of its data and by the data, the cursor plus the result is the place
    of the byte after the data, so the event loop lands on the next
    event. *)
Theorem getEventLength_meta (pre data post : list Z) (type : Z) :
  Forall isByte pre -> isByte type -> Forall isByte data -> Forall isByte post ->
  let event := [type] ++ vlqEncode (Z.of_nat (length data)) ++ data in
  getEventLength (fromCharCodes (pre ++ event ++ post)) 0xff
    (Z.of_nat (length pre))
  = Some (Z.of_nat (length event)).
Proof.
  intros Hpre Htype Hdata Hpost event.
  pose proof (vlqEncode_isByte (Z.of_nat (length data)) ltac:(lia)) as Henc.
  destruct (getVar_vlqEncode (fromCharCodes (pre ++ event ++ post))
              (Z.of_nat (length pre) + 1) (Z.of_nat (length data)) ltac:(lia))
    as [Hval Hlen].
  { replace (Z.of_nat (length pre) + 1) with (Z.of_nat (length (pre ++ [type])))
      by (rewrite length_app; simpl; lia).
    unfold event.
    replace (pre ++ ([type] ++ vlqEncode (Z.of_nat (length data)) ++ data) ++ post)
      with ((pre ++ [type]) ++ vlqEncode (Z.of_nat (length data)) ++ (data ++ post))
      by (by rewrite <- !app_assoc).
    apply bytesAt_fromCharCodes.
    apply Forall_app; split; [apply Forall_app; split; [exact Hpre|by constructor]|].
    apply Forall_app; split; [exact Henc|]. by apply Forall_app. }
  unfold getEventLength. cbn [Z.land Z.shiftr Z.eqb orb]. 
  change (Z.shiftr (Z.land 255 240) 4) with 15. cbn [Z.eqb Pos.eqb orb].
  rewrite Hval, Hlen. f_equal. unfold event. rewrite !length_app. simpl. lia.
Qed.

Lemma getEventLength_meta_witness :
  getEventLength
    (fromCharCodes ([0] ++ ([81] ++ vlqEncode 3 ++ [7; 161; 32]) ++ [0; 144]))
    0xff 1
  = Some 5.
Proof.
  apply (getEventLength_meta [0] [7; 161; 32] [0; 144] 81).
  - repeat constructor; unfold isByte; lia.
  - unfold isByte; lia.
  - repeat constructor; unfold isByte; lia.
  - repeat constructor; unfold isByte; lia.
Defined.

Section StatusTable.

Lemma statusTop_div status : 0 <= status < 256 ->
  Z.shiftr (Z.land status 0xf0) 4 = status / 16.
Proof.
  intros H. rewrite Z.shiftr_div_pow2 by lia. change (2 ^ 4) with 16.
  assert (Z.land status 240 = 16 * (status / 16)) as ->; [|
    rewrite Z.mul_comm, Z.div_mul; lia].
  apply Z.bits_inj'. intros n Hn.
  rewrite Z.land_spec.
  replace (16 * (status / 16)) with (Z.shiftl (Z.shiftr status 4) 4)
    by (rewrite Z.shiftl_mul_pow2, Z.shiftr_div_pow2 by lia;
        change (2 ^ 4) with 16; lia).
  destruct (Z.ltb_spec n 4).
  - rewrite Z.shiftl_spec_low by lia.
    assert (n = 0 \/ n = 1 \/ n = 2 \/ n = 3) as [-> | [-> | [-> | ->]]] by lia;
      cbn; apply andb_false_r.
  - rewrite Z.shiftl_spec_high, Z.shiftr_spec by lia.
    replace (n - 4 + 4) with n by lia.
    destruct (Z.ltb_spec n 8).
    + assert (n = 4 \/ n = 5 \/ n = 6 \/ n = 7) as [-> | [-> | [-> | ->]]] by lia;
        cbn; apply andb_true_r.
    + assert (Z.testbit status n = false) as ->; [|reflexivity].
      apply Z.bits_above_log2; [lia|].
      destruct (Z.eq_dec status 0) as [->|]; [cbn; lia|].
      apply Z.lt_le_trans with 8; [|lia].
      apply Z.log2_lt_pow2; lia.
Qed.

End StatusTable.

(** X5.  What [getEventLength] says of each status byte.  Note-off,
    note-on, key pressure, controller and pitch bend carry two data
    bytes and program change and channel pressure one, whatever the file
    holds; a status below 0x80 and the system statuses from 0xF1 to 0xFE
    get no length at all ([undefined]), which stops the scan of the
    track. *)
Theorem getEventLength_table (s : string) (status off : Z) :
  (0x80 <= status <= 0xBF \/ 0xE0 <= status <= 0xEF ->
   getEventLength s status off = Some 2)
  /\ (0xC0 <= status <= 0xDF -> getEventLength s status off = Some 1)
  /\ (0 <= status <= 0x7F \/ 0xF1 <= status <= 0xFE ->
      getEventLength s status off = None).
Proof.
  unfold getEventLength.
  repeat split; intros H;
    (rewrite statusTop_div by lia);
    repeat match goal with
           | |- context [?a =? ?b] =>
               destruct (Z.eqb_spec a b); cbn [orb]
           end;
    try reflexivity; exfalso; Z.div_mod_to_equations; lia.
Qed.

Lemma getEventLength_table_witness :
  getEventLength "" 0x93 0 = Some 2 /\ getEventLength "" 0xC5 0 = Some 1
  /\ getEventLength "" 0x40 0 = None.
Proof.
  split; [|split].
  - apply (proj1 (getEventLength_table "" 0x93 0)). lia.
  - apply (proj1 (proj2 (getEventLength_table "" 0xC5 0))). lia.
  - apply (proj2 (proj2 (getEventLength_table "" 0x40 0))). lia.
Defined.

(* ================================================================== *)
(** * What the constructor reaches                                     *)
(* ================================================================== *)

Section EventCases.

Lemma land15_range a : 0 <= Z.land a 0x0f < 16.
Proof.
  change 0x0f with (Z.ones 4). rewrite Z.land_ones by lia.
  apply Z.mod_pos_bound. lia.
Qed.

(** What one turn of the event loop does to the object: nothing, one
    call of [addNote] on a channel of the current track, or one meta
    event. *)
Lemma event_body_cases ct tr off s m m' s' :
  event_body ct tr off s m = Returns (m', s') ->
  ticks s' = ticks s + getVarVal (file m) off
  /\ (seconds s' = seconds s
      \/ seconds s' = getTime m (ticks s')
         /\ JS.truthy (timeDivision m) = true)
  /\ ((m' = m /\ midiChannelPrefix s' = midiChannelPrefix s)
      \/ (exists beats x pitch vel r,
            0 <= x < 16 /\ midiChannelPrefix s' = midiChannelPrefix s
            /\ addNote (seconds s') beats (ct * 16 + x) pitch vel m
               = Returns (m', r))
      \/ (exists off' b1,
            metaEvent ct tr off' (ticks s') (midiChannelPrefix s) b1 m
            = Returns (m', midiChannelPrefix s'))).
Proof.
  unfold event_body, obind. intros H.
  break_hyps.
  all: cbn [ticks seconds midiChannelPrefix].
  all: split; [reflexivity|].
  all: split;
    [ first [ by left
            | right; split; [reflexivity|];
              repeat match goal with
                     | H : _ && _ = true |- _ => apply andb_prop in H as [? ?]
                     end; assumption ] |].
  all: first
    [ by left
    | right; left; do 5 eexists;
      split; [apply land15_range|]; split; [reflexivity|]; eassumption
    | right; right; do 2 eexists; eassumption ].
Qed.

End EventCases.

(** An induction principle for the constructor: a property [P] of the
    object between two chunks and a property [Q] of the object and of
    the variables of the event loop within a track hold throughout as
    soon as they hold at the start and every step keeps them. *)
Section Reach.

Variable contents : string.
Variable halfSpeed : bool.
Variable P : Z -> MidiFile -> Prop.
Variable Q : Z -> nat -> track_state -> MidiFile -> Prop.

Hypothesis P_header : P 0 (MidiFile_header contents halfSpeed).
Hypothesis P_skip : forall ct m,
  P ct m ->
  P ct (set_counters (chunkCount m + 1) (noteOns m) (noteOffs m) m).
Hypothesis Q_enter : forall ct m off,
  P ct m ->
  Q ct (length (tracks m)) (mkTrackState 0 (Some off) 0 (Some 0) (JS.ofZ 0))
    (set_tracks (tracks m ++ [new_Track])
       (set_counters (chunkCount m + 1) (noteOns m) (noteOffs m) m)).
Hypothesis Q_event : forall ct tr off s m m' s',
  Q ct tr s m -> chunkOffset s = Some off ->
  event_body ct tr off s m = Returns (m', s') -> Q ct tr s' m'.
Hypothesis Q_leave : forall ct tr s m, Q ct tr s m -> P (ct + 1) m.

Lemma inChunk_Some cursor chunkEnd off :
  inChunk cursor chunkEnd = Some off -> cursor = Some off.
Proof.
  unfold inChunk. destruct cursor as [o|], chunkEnd as [e|]; try discriminate.
  destruct (o <? e); [|discriminate]. by intros [= <-].
Qed.

Lemma events_while_reach ct tr chunkEnd : forall fuel s m m' s',
  events_while fuel ct tr chunkEnd s m = Returns (m', s') ->
  Q ct tr s m -> Q ct tr s' m'.
Proof.
  induction fuel as [|fuel IH]; intros s m m' s' H Hq.
  - by injection H as <- <-.
  - cbn [events_while] in H.
    destruct (inChunk (chunkOffset s) chunkEnd) as [off|] eqn:Hin;
      [|by injection H as <- <-].
    apply inChunk_Some in Hin. unfold obind in H.
    destruct (event_body ct tr off s m) as [[m1 s1]|] eqn:Hb; [|discriminate].
    eapply IH; [exact H|]. by eapply Q_event.
Qed.

Lemma chunk_body_reach off ct m m' s' :
  chunk_body off ct m = Returns (m', s') ->
  P ct m -> P (currentTrack s') m'.
Proof.
  unfold chunk_body, obind. intros H Hp.
  destruct (String.eqb _ _).
  - destruct (events_while _ _ _ _ _ _) as [[m1 s1]|] eqn:He; [|discriminate].
    injection H as <- <-. cbn [currentTrack].
    eapply Q_leave. eapply events_while_reach; [exact He|].
    exact (Q_enter ct m (off + 8) Hp).
  - injection H as <- <-. cbn [currentTrack]. by apply P_skip.
Qed.

Lemma chunks_while_reach : forall fuel s m m' s',
  chunks_while fuel s m = Returns (m', s') ->
  P (currentTrack s) m -> P (currentTrack s') m'.
Proof.
  induction fuel as [|fuel IH]; intros s m m' s' H Hp.
  - by injection H as <- <-.
  - cbn [chunks_while] in H.
    destruct (inFile (offset s) (fileLength m)) as [off|];
      [|by injection H as <- <-].
    unfold obind in H.
    destruct (chunk_body off (currentTrack s) m) as [[m1 s1]|] eqn:Hb;
      [|discriminate].
    eapply IH; [exact H|]. by eapply chunk_body_reach.
Qed.

(** The object returned is the object at the end of the last chunk
    with its notes sorted, or the object of the header when the
    progress bar had been cancelled. *)
Lemma MidiFile_new_reach canceled m :
  MidiFile_new contents halfSpeed canceled = Returns m ->
  exists ct m0,
    P ct m0
    /\ (m = m0 \/ m = set_notes (sortNotes (store m0) (notes m0)) m0).
Proof.
  unfold MidiFile_new, obind. destruct canceled.
  - intros [= <-]. exists 0, (MidiFile_header contents halfSpeed). auto.
  - destruct (chunks_while _ _ _) as [[m1 s1]|] eqn:Hc; [|discriminate].
    intros [= <-]. exists (currentTrack s1), m1. split; [|by right].
    apply chunks_while_reach in Hc; [exact Hc|exact P_header].
Qed.

(** When the constructor throws, a turn of the event loop has. *)
Lemma events_while_throws ct tr chunkEnd : forall fuel s m,
  events_while fuel ct tr chunkEnd s m = TypeError ->
  Q ct tr s m ->
  exists off s0 m0,
    Q ct tr s0 m0 /\ chunkOffset s0 = Some off
    /\ event_body ct tr off s0 m0 = TypeError.
Proof.
  induction fuel as [|fuel IH]; intros s m H Hq; [discriminate|].
  cbn [events_while] in H.
  destruct (inChunk (chunkOffset s) chunkEnd) as [off|] eqn:Hin; [|discriminate].
  apply inChunk_Some in Hin. unfold obind in H.
  destruct (event_body ct tr off s m) as [[m1 s1]|] eqn:Hb.
  - eapply IH; [exact H|]. by eapply Q_event.
  - by exists off, s, m.
Qed.

Lemma chunk_body_throws off ct m :
  chunk_body off ct m = TypeError -> P ct m ->
  exists ct0 tr off0 s0 m0,
    Q ct0 tr s0 m0 /\ chunkOffset s0 = Some off0
    /\ event_body ct0 tr off0 s0 m0 = TypeError.
Proof.
  unfold chunk_body, obind. intros H Hp.
  destruct (String.eqb _ _); [|discriminate].
  destruct (events_while _ _ _ _ _ _) as [[m1 s1]|] eqn:He; [discriminate|].
  apply events_while_throws in He as (off0 & s0 & m0 & ?);
    [by eexists _, _, off0, s0, m0|].
  exact (Q_enter ct m (off + 8) Hp).
Qed.

Lemma chunks_while_throws : forall fuel s m,
  chunks_while fuel s m = TypeError -> P (currentTrack s) m ->
  exists ct0 tr off0 s0 m0,
    Q ct0 tr s0 m0 /\ chunkOffset s0 = Some off0
    /\ event_body ct0 tr off0 s0 m0 = TypeError.
Proof.
  induction fuel as [|fuel IH]; intros s m H Hp; [discriminate|].
  cbn [chunks_while] in H.
  destruct (inFile (offset s) (fileLength m)) as [off|]; [|discriminate].
  unfold obind in H.
  destruct (chunk_body off (currentTrack s) m) as [[m1 s1]|] eqn:Hb.
  - eapply IH; [exact H|]. by eapply chunk_body_reach.
  - by eapply chunk_body_throws.
Qed.

Lemma MidiFile_new_throws canceled :
  MidiFile_new contents halfSpeed canceled = TypeError ->
  exists ct0 tr off0 s0 m0,
    Q ct0 tr s0 m0 /\ chunkOffset s0 = Some off0
    /\ event_body ct0 tr off0 s0 m0 = TypeError.
Proof.
  unfold MidiFile_new, obind. destruct canceled; [discriminate|].
  destruct (chunks_while _ _ _) as [[m1 s1]|] eqn:Hc; [discriminate|].
  intros _. eapply chunks_while_throws; [exact Hc|exact P_header].
Qed.

End Reach.

(* ================================================================== *)
(** * The bookkeeping of the constructor                               *)
(* ================================================================== *)

Section Counted.

Lemma sameNote_refl n : sameNote n n.
Proof. by repeat split. Qed.

Lemma resolveAt_sameNote time beats h o :
  Forall2 sameNote h (resolveAt time beats h o).
Proof.
  unfold resolveAt. destruct o as [r|]; [|by apply Forall2_same_length_lookup_2;
    [|intros i x y H1 H2; assert (x = y) as -> by congruence; apply sameNote_refl]].
  destruct (h !! r) as [n|] eqn:Hr;
    [|by apply Forall2_same_length_lookup_2;
      [|intros i x y H1 H2; assert (x = y) as -> by congruence; apply sameNote_refl]].
  apply Forall2_same_length_lookup_2; [by rewrite length_insert|].
  intros i x y H1 H2. destruct (decide (i = r)) as [->|Hne].
  - rewrite list_lookup_insert_eq in H2 by (by eapply lookup_lt_Some).
    assert (x = n) as -> by congruence. injection H2 as <-. by repeat split.
  - rewrite list_lookup_insert_ne in H2 by done.
    assert (x = y) as -> by congruence. apply sameNote_refl.
Qed.

Lemma filter_sameNote (p : Note -> bool) h h' :
  (forall n n', sameNote n n' -> p n' = p n) ->
  Forall2 sameNote h h' ->
  length (List.filter p h') = length (List.filter p h).
Proof.
  intros Hp. induction 1 as [|n n' h h' Hn _ IH]; [reflexivity|].
  cbn [List.filter]. rewrite (Hp n n' Hn). destruct (p n); cbn; by rewrite IH.
Qed.

Lemma isNoteOn_sameNote n n' : sameNote n n' -> isNoteOn n' = isNoteOn n.
Proof. intros (_ & _ & _ & _ & Hv). unfold isNoteOn. by rewrite Hv. Qed.

Lemma findChannel_counters index m m' c :
  findChannel index m = Returns (m', c) ->
  noteOns m' = noteOns m /\ noteOffs m' = noteOffs m
  /\ chunkCount m' = chunkCount m /\ length (tracks m') = length (tracks m).
Proof.
  unfold findChannel. intros H. repeat break_in H; try discriminate;
    injection H as <- <-; cbn [noteOns noteOffs chunkCount tracks set_tracks set_channels];
    rewrite ?length_insert; auto.
Qed.

(** What [addNote] does to the notes and to the counters. *)
Lemma addNote_effect time beats channel pitch vel m m' r :
  addNote time beats channel pitch vel m = Returns (m', r) ->
  notes m' = notes m ++ [length (store m)]
  /\ (exists h, store m' = h ++ [new_Note time beats channel pitch vel]
                /\ Forall2 sameNote (store m) h)
  /\ noteOns m' = noteOns m + (if JS.truthyInt vel then 1 else 0)
  /\ noteOffs m' = noteOffs m + (if JS.truthyInt vel then 0 else 1)
  /\ chunkCount m' = chunkCount m /\ length (tracks m') = length (tracks m).
Proof.
  intros Ha. pose proof (addNote_store _ _ _ _ _ _ _ _ Ha) as [_ Hs].
  revert Ha. unfold addNote. intros H.
  destruct (findChannel channel _) as [[m1 c]|] eqn:Hf; [|discriminate].
  pose proof (findChannel_counters _ _ _ _ Hf) as (H1 & H2 & H3 & H4).
  apply findChannel_spec in Hf as (_ & Hn & _). cbn [obind] in H.
  assert (notes m' = notes m ++ [length (store m)]
          /\ noteOns m' = noteOns m + (if JS.truthyInt vel then 1 else 0)
          /\ noteOffs m' = noteOffs m + (if JS.truthyInt vel then 0 else 1)
          /\ chunkCount m' = chunkCount m
          /\ length (tracks m') = length (tracks m)) as (? & ? & ? & ? & ?).
  { destruct (JS.truthyInt vel); injection H as <- <-;
      cbn [notes noteOns noteOffs chunkCount tracks set_store set_counters
           set_channels set_notes] in *; repeat split; try lia; congruence. }
  repeat split; try assumption.
  destruct (JS.truthyInt vel) eqn:Hv.
  - exists (store m). split; [exact Hs|].
    apply Forall2_same_length_lookup_2; [done|].
    intros i x y Hx Hy. assert (x = y) as -> by congruence. apply sameNote_refl.
  - set (new := new_Note time beats channel pitch vel) in *.
    set (o := nearest _ _) in Hs.
    pose proof (resolveAt_sameNote time beats (store m ++ [new]) o) as Hsame.
    rewrite <- Hs in Hsame.
    apply Forall2_app_inv_l in Hsame as (h & t & Hh & Ht & Heq).
    exists h. split; [|exact Hh].
    rewrite Heq. f_equal.
    destruct t as [|n' [|? ?]]; try (by apply Forall2_length in Ht).
    apply Forall2_cons_1 in Ht as [_ _].
    (* the new note is not the one resolved: its velocity is zero *)
    f_equal.
    assert (store m' !! length (store m) = Some n') as Hl.
    { rewrite Heq. apply Forall2_length in Hh.
      rewrite lookup_app_r by lia. by rewrite <- Hh, Nat.sub_diag. }
    rewrite Hs in Hl. unfold resolveAt in Hl.
    destruct o as [r0|] eqn:Ho.
    + destruct ((store m ++ [new]) !! r0) as [n0|] eqn:Hr0.
      * destruct (decide (r0 = length (store m))) as [->|Hne].
        { subst o. apply nearest_Some in Ho as [_ Hp].
          unfold isNoteOnOf in Hp. rewrite Hr0 in Hp.
          rewrite lookup_app_r, Nat.sub_diag in Hr0 by lia.
          injection Hr0 as <-. cbn [new new_Note note_vel] in Hp.
          rewrite Hv in Hp. discriminate. }
        rewrite list_lookup_insert_ne in Hl by done.
        rewrite lookup_app_r, Nat.sub_diag in Hl by lia. by injection Hl.
      * rewrite lookup_app_r, Nat.sub_diag in Hl by lia. by injection Hl.
    + rewrite lookup_app_r, Nat.sub_diag in Hl by lia. by injection Hl.
Qed.

Lemma metaEvent_keeps ct tr off tk prefix b1 m m' p :
  metaEvent ct tr off tk prefix b1 m = Returns (m', p) ->
  store m' = store m /\ notes m' = notes m
  /\ noteOns m' = noteOns m /\ noteOffs m' = noteOffs m
  /\ chunkCount m' = chunkCount m /\ length (tracks m') = length (tracks m).
Proof.
  unfold metaEvent, obind. intros H.
  repeat (break_in H; try discriminate); injection H as <- <-;
    cbn [store notes noteOns noteOffs chunkCount tracks set_tracks set_channels
         addTempo set_tempo addTimeSignatureAt set_timeSignature];
    rewrite ?length_insert; auto 10.
  all: match goal with
       | Hf : findChannel _ _ = Returns _ |- _ =>
           pose proof (findChannel_counters _ _ _ _ Hf) as (? & ? & ? & ?);
           apply findChannel_spec in Hf as (? & ? & _)
       end; auto 10.
Qed.

End Counted.

Section CountedReach.

Lemma insertNote_perm h r l : insertNote h r l ≡ₚ r :: l.
Proof.
  induction l as [|r' l IH]; [reflexivity|].
  cbn [insertNote]. destruct (noteBefore h r' r); [|reflexivity].
  rewrite IH. apply Permutation_swap.
Qed.

Lemma sortNotes_perm h l : sortNotes h l ≡ₚ l.
Proof.
  unfold sortNotes. induction l as [|r l IH]; [reflexivity|].
  cbn [fold_right]. rewrite insertNote_perm. by rewrite IH.
Qed.

Lemma counted_header contents halfSpeed :
  counted (MidiFile_header contents halfSpeed).
Proof. unfold MidiFile_header. destruct (negb _); by repeat split. Qed.

Lemma counted_addNote time beats channel pitch vel m m' r :
  counted m -> addNote time beats channel pitch vel m = Returns (m', r) ->
  counted m'.
Proof.
  intros (Hon & Hoff & Hn & Ht) Ha.
  apply addNote_effect in Ha
    as (Hnotes & (h & Hs & Hsame) & Hon' & Hoff' & Hcc & Htr).
  pose proof (Forall2_length _ _ _ Hsame) as Hlen.
  unfold counted. rewrite Hs, Hnotes, Hon', Hoff', Hcc, Htr, !List.filter_app, !length_app.
  rewrite (filter_sameNote isNoteOn _ _ isNoteOn_sameNote Hsame).
  rewrite (filter_sameNote (fun n => negb (isNoteOn n)) (store m) h); [|
    by intros n n' Hnn; rewrite (isNoteOn_sameNote _ _ Hnn)|exact Hsame].
  cbn [List.filter].
  change (isNoteOn (new_Note time beats channel pitch vel))
    with (JS.truthyInt vel).
  repeat split.
  - destruct (JS.truthyInt vel); cbn [length]; lia.
  - destruct (JS.truthyInt vel); cbn [negb length]; lia.
  - rewrite <- Hlen, Nat.add_1_r, seq_S, Hn. reflexivity.
  - exact Ht.
Qed.

Lemma counted_metaEvent ct tr off tk prefix b1 m m' p :
  counted m -> metaEvent ct tr off tk prefix b1 m = Returns (m', p) ->
  counted m'.
Proof.
  intros Hc Hm. apply metaEvent_keeps in Hm as (Hs & Hn & Hon & Hoff & Hcc & Ht).
  unfold counted in *. by rewrite Hs, Hn, Hon, Hoff, Hcc, Ht.
Qed.

Lemma counted_event ct tr off s m m' s' :
  counted m -> event_body ct tr off s m = Returns (m', s') -> counted m'.
Proof.
  intros Hc Hb.
  apply event_body_cases in Hb
    as (_ & _ & [[-> _]|[(? & ? & ? & ? & ? & _ & _ & Ha)|(? & ? & Hm)]]).
  - exact Hc.
  - by eapply counted_addNote.
  - by eapply counted_metaEvent.
Qed.

End CountedReach.

(** X6.  The bookkeeping of every object that the constructor returns:
    [noteOns] is the number of notes with a velocity above zero and
    [noteOffs] the number of the others (note-off events and note-on
    events of velocity 0 alike), [notes] holds every note object exactly
    once, whatever the sort did, and no more tracks were allocated than
    chunks were counted. *)
Theorem MidiFile_new_counted (contents : string) (halfSpeed canceled : bool)
    (m : MidiFile) :
  MidiFile_new contents halfSpeed canceled = Returns m ->
  noteOns m = Z.of_nat (length (List.filter isNoteOn (store m)))
  /\ noteOffs m
     = Z.of_nat (length (List.filter (fun n => negb (isNoteOn n)) (store m)))
  /\ noteOns m + noteOffs m = Z.of_nat (length (notes m))
  /\ notes m ≡ₚ seq 0 (length (store m))
  /\ Z.of_nat (length (tracks m)) <= chunkCount m.
Proof.
  intros Hm.
  apply (MidiFile_new_reach contents halfSpeed (fun _ => counted)
           (fun _ _ _ => counted)) in Hm as (ct & m0 & Hc & Heq).
  - assert (counted m) as (Hon & Hoff & Hn & Ht).
    { destruct Heq as [->| ->]; [exact Hc|].
      destruct Hc as (Hon & Hoff & Hn & Ht). repeat split; try assumption.
      cbn [notes set_notes store]. by rewrite sortNotes_perm. }
    repeat split; try assumption.
    rewrite (Permutation_length Hn), length_seq, Hon, Hoff.
    clear. induction (store m) as [|n h IH]; [reflexivity|].
    cbn [List.filter length]. destruct (isNoteOn n); cbn [negb length]; lia.
  - apply counted_header.
  - intros ct m0 (Hon & Hoff & Hn & Ht). repeat split; try assumption.
    cbn [tracks chunkCount set_counters]. lia.
  - intros ct m0 off (Hon & Hoff & Hn & Ht). repeat split; try assumption.
    cbn [tracks chunkCount set_counters set_tracks]. rewrite length_app. cbn. lia.
  - intros ct tr off s m0 m' s' Hc _ Hb. by eapply counted_event.
  - auto.
Qed.

Lemma MidiFile_new_counted_witness :
  exists m, MidiFile_new twoTrackFile false false = Returns m
    /\ noteOns m = 2 /\ noteOffs m = 2 /\ notes m = [0; 2; 1; 3]%nat
    /\ notes m ≡ₚ seq 0 (length (store m)).
Proof.
  destruct (MidiFile_new twoTrackFile false false) as [m|] eqn:E;
    [|vm_compute in E; discriminate E].
  exists m. split; [reflexivity|].
  destruct (MidiFile_new_counted twoTrackFile false false m E)
    as (_ & _ & _ & Hp & _).
  vm_compute in E. injection E as <-.
  repeat split; try reflexivity. exact Hp.
Defined.

(* ================================================================== *)
(** * The registry of the channels                                     *)
(* ================================================================== *)

Section Registered.

Lemma nthZ_Some {A} (l : list A) i x :
  nthZ l i = Some x -> 0 <= i /\ l !! Z.to_nat i = Some x.
Proof. unfold nthZ. destruct (Z.ltb_spec i 0); [discriminate|]. auto. Qed.

Lemma div16_nonneg k : 0 <= k / 16 -> 0 <= k.
Proof. intros H. Z.div_mod_to_equations. lia. Qed.

(** The tracks after [findChannel]: the track of a new channel lists
    one channel more, and nothing else has changed. *)
Lemma findChannel_tracks index m m' c :
  findChannel index m = Returns (m', c) ->
  (is_Some (channels m !! index) /\ m' = m)
  \/ (channels m !! index = None /\ c = new_Channel index /\ 0 <= index
      /\ channels m' = <[index := c]> (channels m)
      /\ exists t, tracks m !! Z.to_nat (index / 16) = Some t
           /\ tracks m'
              = <[Z.to_nat (index / 16) :=
                    mkTrack (tr_index t) (tr_channels t ++ [index]) (tr_name t)]>
                  (tracks m)).
Proof.
  unfold findChannel. intros H.
  destruct (channels m !! index) as [c0|] eqn:Hc.
  - injection H as <- <-. left. split; [by eexists|reflexivity].
  - right. cbn [tracks set_channels] in H.
    destruct (nthZ (tracks m) (index / 16)) as [t|] eqn:Ht; [|discriminate].
    injection H as <- <-. apply nthZ_Some in Ht as [H0 Ht].
    repeat split; [by apply div16_nonneg|]. by exists t.
Qed.

Lemma channelsFiled_findChannel index m m' c :
  channelsFiled m -> findChannel index m = Returns (m', c) -> channelsFiled m'.
Proof.
  intros Hch Hf.
  pose proof (findChannel_spec _ _ _ _ Hf) as (Hs & _ & _ & _ & _).
  apply findChannel_tracks in Hf
    as [[_ ->]|(Hnone & -> & H0 & Hc' & t & Ht & Ht')]; [done|].
  intros k c0 Hk. rewrite Ht', Hs.
  rewrite Hc' in Hk. destruct (decide (k = index)) as [->|Hne].
  - rewrite lookup_insert_eq in Hk. injection Hk as <-.
    cbn [new_Channel ch_index ch_trackIndex ch_midiChannel ch_notes].
    repeat split; try assumption.
    + eexists. split; [apply list_lookup_insert_eq; by eapply lookup_lt_Some|].
      cbn [tr_channels]. set_solver.
    + intros r Hr. by apply elem_of_nil in Hr.
  - rewrite lookup_insert_ne in Hk by done.
    destruct (Hch k c0 Hk) as (? & ? & ? & ? & (t0 & Ht0 & Hin) & Hn).
    repeat split; try assumption.
    destruct (decide (Z.to_nat (k / 16) = Z.to_nat (index / 16))) as [He|Hd].
    + rewrite He in *. assert (t0 = t) as -> by congruence.
      eexists. split; [apply list_lookup_insert_eq; by eapply lookup_lt_Some|].
      cbn [tr_channels]. set_solver.
    + exists t0. split; [|exact Hin]. by rewrite list_lookup_insert_ne.
Qed.

Lemma notesHeldBelow_findChannel bound index m m' c :
  notesHeldBelow bound m -> findChannel index m = Returns (m', c) ->
  notesHeldBelow bound m'.
Proof.
  intros Hst Hf.
  pose proof (findChannel_spec _ _ _ _ Hf) as (Hs & _ & _ & _ & _).
  apply findChannel_tracks in Hf
    as [[_ ->]|(Hnone & -> & H0 & Hc' & t & Ht & Ht')]; [done|].
  intros r n Hlt Hr. rewrite Hs in Hr. destruct (Hst r n Hlt Hr) as (c0 & Hc0 & Hin).
  exists c0. split; [|exact Hin]. rewrite Hc'.
  rewrite lookup_insert_ne; [exact Hc0|]. congruence.
Qed.

Lemma registered_findChannel index m m' c :
  registered m -> findChannel index m = Returns (m', c) -> registered m'.
Proof.
  intros [Hch Hst] Hf. split; [by eapply channelsFiled_findChannel|].
  pose proof (findChannel_spec _ _ _ _ Hf) as (Hs & _).
  rewrite Hs. by eapply notesHeldBelow_findChannel.
Qed.

Lemma registered_addNote time beats channel pitch vel m m' r :
  registered m -> addNote time beats channel pitch vel m = Returns (m', r) ->
  registered m'.
Proof.
  intros [Hch0 Hst0] Ha.
  pose proof (addNote_effect _ _ _ _ _ _ _ _ Ha)
    as (_ & (h & Hs & Hsame) & _).
  pose proof (Forall2_length _ _ _ Hsame) as Hlen.
  revert Ha. unfold addNote. intros H.
  destruct (findChannel channel _) as [[m1 c]|] eqn:Hf; [|discriminate].
  pose proof (findChannel_spec _ _ _ _ Hf) as (Hs1 & _ & _ & _ & Hthis).
  cbn [store set_notes set_store] in Hs1.
  assert (channelsFiled m1) as Hch.
  { eapply channelsFiled_findChannel; [|exact Hf].
    intros k c0 Hk. destruct (Hch0 k c0 Hk) as (? & ? & ? & ? & ? & Hn).
    repeat split; try assumption.
    intros r0 Hr0. destruct (Hn r0 Hr0) as (n & Hn0 & ?). exists n.
    split; [|done]. cbn [store set_notes set_store].
    rewrite lookup_app_l; [done|by eapply lookup_lt_Some]. }
  assert (notesHeldBelow (length (store m)) m1) as Hst.
  { eapply notesHeldBelow_findChannel; [|exact Hf].
    intros r0 n Hlt Hr0. cbn [store set_notes set_store channels] in *.
    rewrite lookup_app_l in Hr0 by lia. by apply Hst0. }
  cbn [obind] in H.
  assert (channels m' = <[channel := mkChannel (ch_index c) (ch_trackIndex c)
                             (ch_midiChannel c) (ch_notes c ++ [length (store m)])
                             (ch_insrument c)]> (channels m1)
          /\ tracks m' = tracks m1) as [Hc' Ht'].
  { destruct (JS.truthyInt vel); injection H as <- <-; by split. }
  clear H.
  assert (forall i n, (i < length (store m))%nat -> store m1 !! i = Some n ->
            exists n', store m' !! i = Some n' /\ note_channel n' = note_channel n)
    as Hold.
  { intros i n Hlt Hi. rewrite Hs1 in Hi.
    rewrite lookup_app_l in Hi by lia.
    destruct (Forall2_lookup_l _ _ _ _ _ Hsame Hi) as (n' & Hn' & Hsn).
    exists n'. split; [by rewrite Hs, lookup_app_l by lia|].
    by destruct Hsn as (_ & _ & ? & _). }
  assert (store m' !! length (store m)
          = Some (new_Note time beats channel pitch vel)) as Hnew
    by (rewrite Hs, Hlen; by apply list_lookup_middle).
  assert (forall r0 n, store m1 !! r0 = Some n ->
            exists n', store m' !! r0 = Some n' /\ note_channel n' = note_channel n)
    as Hold'.
  { intros r0 n Hr0.
    destruct (decide (r0 = length (store m))) as [->|Hne].
    - rewrite Hs1, list_lookup_middle in Hr0 by reflexivity. injection Hr0 as <-.
      eexists. split; [exact Hnew|reflexivity].
    - apply Hold; [|exact Hr0]. apply lookup_lt_Some in Hr0.
      rewrite Hs1, length_app in Hr0. cbn in Hr0. lia. }
  split.
  - intros k c0 Hk. rewrite Hc' in Hk. rewrite Ht'.
    destruct (decide (k = channel)) as [->|Hne].
    + rewrite lookup_insert_eq in Hk. injection Hk as <-.
      destruct (Hch channel c Hthis) as (? & ? & ? & ? & Htr & Hn).
      cbn [ch_index ch_trackIndex ch_midiChannel ch_notes].
      repeat split; try assumption.
      intros r0 Hr0. apply elem_of_app in Hr0 as [Hr0|Hr0].
      * destruct (Hn r0 Hr0) as (n & Hn0 & Hnc).
        destruct (Hold' r0 n Hn0) as (n' & ? & ?). exists n'. split; [done|congruence].
      * apply list_elem_of_singleton in Hr0 as ->.
        eexists. split; [exact Hnew|reflexivity].
    + rewrite lookup_insert_ne in Hk by done.
      destruct (Hch k c0 Hk) as (? & ? & ? & ? & Htr & Hn).
      repeat split; try assumption.
      intros r0 Hr0. destruct (Hn r0 Hr0) as (n & Hn0 & Hnc).
      destruct (Hold' r0 n Hn0) as (n' & ? & ?). exists n'. split; [done|congruence].
  - intros i n' _ Hi. rewrite Hc'.
    destruct (decide (i = length (store m))) as [->|Hne].
    + rewrite Hnew in Hi. injection Hi as <-. cbn [new_Note note_channel].
      rewrite lookup_insert_eq. eexists. split; [reflexivity|].
      cbn [ch_notes]. set_solver.
    + assert (i < length (store m))%nat as Hlt.
      { apply lookup_lt_Some in Hi. rewrite Hs, length_app in Hi. cbn in Hi. lia. }
      destruct (lookup_lt_is_Some_2 (store m) i Hlt) as [n Hn].
      assert (store m1 !! i = Some n) as Hn1
        by (by rewrite Hs1, lookup_app_l by lia).
      destruct (Hold i n Hlt Hn1) as (n'' & Hn'' & Hnc).
      assert (n'' = n') as -> by congruence.
      destruct (Hst i n Hlt Hn1) as (c0 & Hc0 & Hin). rewrite Hnc.
      destruct (decide (note_channel n = channel)) as [He|Hd].
      * rewrite He in *. rewrite lookup_insert_eq.
        assert (c0 = c) as -> by congruence.
        eexists. split; [reflexivity|]. cbn [ch_notes]. set_solver.
      * rewrite lookup_insert_ne by done. by exists c0.
Qed.

Lemma registered_ext m m' :
  channels m' = channels m -> tracks m' = tracks m -> store m' = store m ->
  registered m -> registered m'.
Proof. unfold registered, channelsFiled, notesHeldBelow. by intros -> -> ->. Qed.

Lemma registered_metaEvent ct tr off tk prefix b1 m m' p :
  registered m -> metaEvent ct tr off tk prefix b1 m = Returns (m', p) ->
  registered m'.
Proof.
  unfold metaEvent, obind. intros Hreg H.
  repeat (break_in H; try discriminate); injection H as <- <-; try exact Hreg;
    try (by eapply registered_ext; [..|exact Hreg]).
  - (* track name *)
    destruct Hreg as [Hch Hst]. split; [|exact Hst].
    intros k c0 Hk. cbn [channels tracks store set_tracks] in *.
    destruct (Hch k c0 Hk) as (? & ? & ? & ? & (t0 & Ht0 & Hin) & Hn).
    repeat split; try assumption.
    match goal with
    | Ht : tracks m !! ?i = Some ?t |- _ =>
        destruct (decide (Z.to_nat (k / 16) = i)) as [He|Hd];
        [ rewrite He in *; assert (t0 = t) as -> by congruence;
          eexists; split;
          [apply list_lookup_insert_eq; by eapply lookup_lt_Some|exact Hin]
        | exists t0; split; [by rewrite list_lookup_insert_ne|exact Hin] ]
    end.
  - (* instrument name *)
    match goal with
    | Hf : findChannel ?i _ = Returns (?m1, ?c) |- _ =>
        pose proof (registered_findChannel _ _ _ _ Hreg Hf) as [Hch Hst];
        apply findChannel_spec in Hf as (_ & _ & _ & _ & Hthis);
        split;
        [ intros k c0 Hk; cbn [channels tracks store set_channels] in *;
          destruct (decide (k = i)) as [->|Hne];
          [ rewrite lookup_insert_eq in Hk; injection Hk as <-;
            exact (Hch _ _ Hthis)
          | rewrite lookup_insert_ne in Hk by done; exact (Hch _ _ Hk) ]
        | intros r n Hlt Hr; cbn [channels tracks store set_channels] in *;
          destruct (Hst r n Hlt Hr) as (c0 & Hc0 & Hin);
          destruct (decide (note_channel n = i)) as [He|Hne];
          [ rewrite He in *; rewrite lookup_insert_eq;
            assert (c0 = c) as -> by congruence;
            eexists; split; [reflexivity|exact Hin]
          | rewrite lookup_insert_ne by done; by exists c0 ] ]
    end.
Qed.

Lemma registered_event ct tr off s m m' s' :
  registered m -> event_body ct tr off s m = Returns (m', s') -> registered m'.
Proof.
  intros Hc Hb.
  apply event_body_cases in Hb
    as (_ & _ & [[-> _]|[(? & ? & ? & ? & ? & _ & _ & Ha)|(? & ? & Hm)]]).
  - exact Hc.
  - by eapply registered_addNote.
  - by eapply registered_metaEvent.
Qed.

Lemma registered_header contents halfSpeed :
  registered (MidiFile_header contents halfSpeed).
Proof.
  unfold MidiFile_header. destruct (negb _); split; intros ? ? H; try done;
    cbn in H; lia.
Qed.

End Registered.

(** X7.  The registry of the channels in every object that the
    constructor returns.  Each channel is filed in [channels] under its
    own index, 16 times the index of its track plus its MIDI channel;
    that track exists and lists the channel; the notes of the channel
    exist and carry its index; and each note object is held by the
    channel that its field [channel] names. *)
Theorem MidiFile_new_registered (contents : string) (halfSpeed canceled : bool)
    (m : MidiFile) :
  MidiFile_new contents halfSpeed canceled = Returns m ->
  (forall k c, channels m !! k = Some c ->
     ch_index c = k /\ ch_trackIndex c = k / 16 /\ ch_midiChannel c = k mod 16
     /\ (exists t, tracks m !! Z.to_nat (ch_trackIndex c) = Some t
                   /\ k ∈ tr_channels t)
     /\ (forall r, r ∈ ch_notes c ->
                   exists n, store m !! r = Some n /\ note_channel n = k))
  /\ (forall r n, store m !! r = Some n ->
        exists c, channels m !! note_channel n = Some c /\ r ∈ ch_notes c).
Proof.
  intros Hm.
  apply (MidiFile_new_reach contents halfSpeed (fun _ => registered)
           (fun _ _ _ => registered)) in Hm as (ct & m0 & Hc & Heq).
  - assert (registered m) as [Hch Hst].
    { destruct Heq as [->| ->]; [exact Hc|].
      by eapply registered_ext; [..|exact Hc]. }
    split.
    + intros k c Hk. destruct (Hch k c Hk) as (H1 & H2 & H3 & H0 & Ht & Hn).
      repeat split; try assumption.
      * rewrite H3. apply Z.rem_mod_nonneg; lia.
      * by rewrite H2.
    + intros r n Hr. apply (Hst r n); [by eapply lookup_lt_Some|exact Hr].
  - apply registered_header.
  - intros ct m0 Hr. by eapply registered_ext; [..|exact Hr].
  - intros ct m0 off [Hch Hst]. split; [|exact Hst].
    intros k c Hk. destruct (Hch k c Hk) as (? & ? & ? & ? & (t & Ht & Hin) & Hn).
    repeat split; try assumption.
    exists t. split; [|exact Hin]. cbn [tracks set_tracks set_counters].
    by apply lookup_app_l_Some.
  - intros ct tr off s m0 m' s' Hc _ Hb. by eapply registered_event.
  - auto.
Qed.

Lemma MidiFile_new_registered_witness :
  exists m, MidiFile_new twoTrackFile false false = Returns m
    /\ (exists c, channels m !! 17 = Some c
          /\ ch_trackIndex c = 1 /\ ch_midiChannel c = 1
          /\ ch_notes c = [2; 3]%nat)
    /\ (forall r n, store m !! r = Some n ->
          exists c, channels m !! note_channel n = Some c /\ r ∈ ch_notes c).
Proof.
  destruct (MidiFile_new twoTrackFile false false) as [m|] eqn:E;
    [|vm_compute in E; discriminate E].
  exists m. split; [reflexivity|].
  destruct (MidiFile_new_registered twoTrackFile false false m E) as [_ Hst].
  split; [|exact Hst].
  vm_compute in E. injection E as <-. eexists. split; [reflexivity|].
  repeat split.
Defined.

(* ================================================================== *)
(** * Where the constructor can throw                                  *)
(* ================================================================== *)

Section Throws.

Lemma statusTop_range st : 0 <= Z.shiftr (Z.land st 0xf0) 4 < 16.
Proof.
  replace (Z.land st 0xf0) with (Z.land (Z.land st 255) 0xf0)
    by (by rewrite <- Z.land_assoc).
  change 255 with (Z.ones 8). rewrite Z.land_ones by lia.
  pose proof (Z.mod_pos_bound st (2 ^ 8) ltac:(lia)) as Hb.
  change (2 ^ 8) with 256 in *.
  rewrite statusTop_div by lia. Z.div_mod_to_equations. lia.
Qed.

Lemma track_of_channel (tr : nat) x :
  0 <= x < 16 -> (Z.of_nat tr * 16 + x) / 16 = Z.of_nat tr.
Proof. intros H. Z.div_mod_to_equations. lia. Qed.

Lemma nthZ_of_nat {A} (l : list A) (tr : nat) : nthZ l (Z.of_nat tr) = l !! tr.
Proof.
  unfold nthZ. destruct (Z.ltb_spec (Z.of_nat tr) 0); [lia|].
  by rewrite Nat2Z.id.
Qed.

(** A note of the current track is always added. *)
Lemma addNote_in_track time beats (tr : nat) x pitch vel m :
  is_Some (tracks m !! tr) -> 0 <= x < 16 ->
  addNote time beats (Z.of_nat tr * 16 + x) pitch vel m <> TypeError.
Proof.
  intros Htr Hx.
  destruct (addNote_returns time beats (Z.of_nat tr * 16 + x) pitch vel m)
    as (m' & r & ->); [|discriminate].
  right. by rewrite track_of_channel, nthZ_of_nat.
Qed.

(** The dispatch on the status of an event throws for an instrument
    name alone, and then under a channel prefix outside 0..15. *)
Lemma dispatch_throws (tr : nat) m st o time beats b2 tk prefix :
  is_Some (tracks m !! tr) ->
  (if (if st =? 0xff then st else Z.shiftr (Z.land st 0xf0) 4) =? 8 then
     let* (m0, _) :=
       addNote time beats (Z.of_nat tr * 16 + Z.land st 0x0f)
         (charCodeAt (file m) o) (Some 0) m in
     Returns (m0, prefix)
   else if (if st =? 0xff then st else Z.shiftr (Z.land st 0xf0) 4) =? 9 then
     let* (m0, _) :=
       addNote time beats (Z.of_nat tr * 16 + Z.land st 0x0f)
         (charCodeAt (file m) o) b2 m in
     Returns (m0, prefix)
   else if (if st =? 0xff then st else Z.shiftr (Z.land st 0xf0) 4) =? 0xff then
     metaEvent (Z.of_nat tr) tr o tk prefix (charCodeAt (file m) o) m
   else Returns (m, prefix)) = TypeError ->
  st = 0xff /\ charCodeAt (file m) o = Some 4
  /\ (forall p, prefix = Some p -> p < 0 \/ 16 <= p).
Proof.
  intros Htr H.
  pose proof (statusTop_range st) as Htop.
  pose proof (land15_range st) as Hx.
  destruct (Z.eqb_spec st 0xff) as [->|Hst].
  - cbn [Z.eqb Pos.eqb] in H. split; [reflexivity|].
    unfold metaEvent in H.
    destruct (charCodeAt (file m) o) as [b1|]; [|discriminate].
    destruct Htr as [t Ht]. rewrite Ht in H.
    destruct (Z.eq_dec b1 3) as [->|]; [discriminate|].
    destruct (Z.eq_dec b1 4) as [->|Hn4].
    + split; [reflexivity|]. intros p ->. unfold obind in H.
      destruct (findChannel _ m) as [[m1 c]|] eqn:Hf; [discriminate|].
      destruct (Z.ltb_spec p 0); [by left|].
      destruct (Z.leb_spec 16 p); [by right|]. exfalso.
      destruct (findChannel_returns (Z.of_nat tr * 16 + p) m) as (? & ? & Hr);
        [|congruence].
      right. rewrite track_of_channel, nthZ_of_nat by lia. by eexists.
    + exfalso. clear Ht.
      destruct b1 as [|b1|b1]; try discriminate.
      do 7 (destruct b1 as [b1|b1|]; try discriminate; try lia).
  - exfalso. revert H.
    repeat match goal with
           | |- context [?a =? ?b] => destruct (Z.eqb_spec a b); try lia
           end; unfold obind.
    all: try discriminate.
    all: match goal with
         | Hx : 0 <= ?x < 16, Htr : is_Some (tracks ?mm !! ?tr)
           |- context [addNote ?t ?b ?c ?p ?v ?mm] =>
             pose proof (addNote_in_track t b tr x p v mm Htr Hx);
             destruct (addNote t b c p v mm) as [[? ?]|]; [discriminate|done]
         end.
Qed.

Lemma event_body_throws (tr : nat) off s m :
  is_Some (tracks m !! tr) ->
  event_body (Z.of_nat tr) tr off s m = TypeError ->
  exists off', off < off' /\ charCodeAt (file m) off' = Some 4
    /\ (charCodeAt (file m) (off' - 1) = Some 0xff \/ previousStatus s = 0xff)
    /\ (forall p, midiChannelPrefix s = Some p -> p < 0 \/ 16 <= p).
Proof.
  intros Htr. unfold event_body.
  pose proof (getVarLen_pos (file m) off) as Hlen.
  set (ticks' := ticks s + getVarVal (file m) off).
  destruct (negb (ticks' =? 0) && _ && _).
  all: set (off1 := off + getVarLen (file m) off) in *.
  all: destruct (negb (JS.band (charCodeAt (file m) off1) 128 =? 0)) eqn:Hbit.
  all: intros H;
    match type of H with
    | obind ?d _ = TypeError =>
        assert (d = TypeError) as Hd
          by (destruct d as [[? ?]|]; [discriminate H|reflexivity])
    end;
    apply dispatch_throws in Hd as (Hst & Hb1 & Hp); [|exact Htr].
  1,3: exists (off1 + 1); split; [lia|]; split; [exact Hb1|]; split; [|exact Hp];
    left; replace (off1 + 1 - 1) with off1 by lia;
    destruct (charCodeAt (file m) off1) as [b|]; [by rewrite <- Hst|discriminate Hst].
  all: exists off1; split; [lia|]; split; [exact Hb1|]; split; [|exact Hp];
    by right.
Qed.

End Throws.

Section ThrowsReach.

Lemma event_body_status ct tr off s m m' s' :
  event_body ct tr off s m = Returns (m', s') ->
  previousStatus s' = previousStatus s
  \/ exists o, off < o /\ charCodeAt (file m) o = Some (previousStatus s')
       /\ forall c', chunkOffset s' = Some c' -> o < c'.
Proof.
  unfold event_body.
  pose proof (getVarLen_pos (file m) off) as Hlen.
  set (ticks' := ticks s + getVarVal (file m) off).
  destruct (negb (ticks' =? 0) && _ && _).
  all: set (off1 := off + getVarLen (file m) off) in *.
  all: destruct (negb (JS.band (charCodeAt (file m) off1) 128 =? 0)) eqn:Hbit.
  all: intros H;
    match type of H with
    | obind ?d _ = Returns _ =>
        destruct d as [[? ?]|]; [|discriminate H]
    end; cbn [obind] in H; injection H as <- <-; cbn [previousStatus chunkOffset];
    try (by left).
  all: right; exists off1; split; [lia|];
    destruct (charCodeAt (file m) off1) as [b|] eqn:Hb; [|discriminate Hbit];
    split; [reflexivity|];
    change (default 0 (Some b)) with b; intros c' Hc';
    destruct (getEventLength (file m) b (off1 + 1)) as [l|] eqn:Hg;
    [|discriminate Hc']; apply getEventLength_pos in Hg; injection Hc' as <-; lia.
Qed.

End ThrowsReach.

(** X8.  The constructor can throw at one kind of event only.  A turn of
    the event loop on a track that exists throws only at a meta event of
    type 4, an instrument name, met under a channel prefix that is [NaN]
    or outside 0..15: note-on and note-off events never throw.  Hence a
    file on which the constructor throws holds a byte 0xFF and, after
    it, a byte 0x04; [prefixFile] is such a file. *)
Theorem MidiFile_new_throws_only :
  (forall (tr : nat) off s m,
     is_Some (tracks m !! tr) ->
     event_body (Z.of_nat tr) tr off s m = TypeError ->
     exists off', off < off' /\ charCodeAt (file m) off' = Some 4
       /\ (charCodeAt (file m) (off' - 1) = Some 0xff \/ previousStatus s = 0xff)
       /\ (forall p, midiChannelPrefix s = Some p -> p < 0 \/ 16 <= p))
  /\ (forall contents halfSpeed canceled,
        MidiFile_new contents halfSpeed canceled = TypeError ->
        exists off0 off, off0 < off /\ charCodeAt contents off0 = Some 0xff
                         /\ charCodeAt contents off = Some 4)
  /\ MidiFile_new prefixFile false false = TypeError.
Proof.
  split; [exact event_body_throws|]. split; [|reflexivity].
  intros contents halfSpeed canceled Hm.
  apply (MidiFile_new_throws contents halfSpeed
           (fun ct m => Z.of_nat (length (tracks m)) = ct /\ file m = contents)
           (fun ct tr s m =>
              Z.of_nat tr = ct /\ length (tracks m) = S tr /\ file m = contents
              /\ (previousStatus s = 0xff ->
                  exists off0, charCodeAt contents off0 = Some 0xff
                    /\ forall c, chunkOffset s = Some c -> off0 < c)))
    in Hm as (ct & tr & off & s & m & (Hct & Hlen & Hfile & Hprev) & Hcur & Hb).
  - subst ct. apply event_body_throws in Hb as (off' & Hlt & H4 & Hff & _);
      [|apply lookup_lt_is_Some; lia].
    rewrite Hfile in *. destruct Hff as [Hff|Hff].
    + exists (off' - 1), off'. split; [lia|]. by split.
    + destruct (Hprev Hff) as (off0 & H0 & Hlt0).
      exists off0, off'. split; [specialize (Hlt0 off Hcur); lia|]. by split.
  - split; [|unfold MidiFile_header; by destruct (negb _)].
    unfold MidiFile_header. by destruct (negb _).
  - by intros ct m [? ?].
  - intros ct m off [Hct Hfile]. cbn [tracks set_tracks set_counters file].
    rewrite length_app. cbn [length]. repeat split; try lia; try assumption.
    discriminate.
  - intros ct tr off s m m' s' (Hct & Hlen & Hfile & Hprev) Hcur Hb.
    pose proof (event_body_inv _ _ _ _ _ _ _ Hb) as (Hh & Hmoved & _).
    pose proof (event_body_status _ _ _ _ _ _ _ Hb) as Hstatus.
    assert (length (tracks m') = length (tracks m)) as Hl.
    { apply event_body_cases in Hb
        as (_ & _ & [[-> _]|[(? & ? & ? & ? & ? & _ & _ & Ha)|(? & ? & Hme)]]).
      - reflexivity.
      - by apply addNote_effect in Ha as (_ & _ & _ & _ & _ & ?).
      - by apply metaEvent_keeps in Hme as (_ & _ & _ & _ & _ & ?). }
    assert (file m' = file m) as Hf by (unfold headerFields in Hh; congruence).
    repeat split; try congruence.
    intros Hff. destruct Hstatus as [Hsame|(o & Ho & Hbyte & Hlt)].
    + destruct Hprev as (off0 & H0 & Hlt0); [congruence|].
      exists off0. split; [exact H0|]. intros c' Hc'.
      specialize (Hlt0 off Hcur). unfold movedOn in Hmoved. rewrite Hc' in Hmoved. lia.
    + exists o. split; [by rewrite <- Hfile, <- Hff|exact Hlt].
  - intros ct tr s m (Hct & Hlen & Hfile & _). split; [lia|exact Hfile].
Qed.

(* ================================================================== *)
(** * [findChannel]                                                    *)
(* ================================================================== *)

(** X9.  [findChannel] finds or creates.  It throws exactly when the
    channel does not exist yet and the track [floor(index / 16)] is not
    allocated.  When it returns, the channel is filed under its index and
    no other channel has changed; a second call finds the same channel
    and changes nothing; a channel that existed leaves the object as it
    was; and a channel that did not exist is [new Channel(index)], pushed
    on the channel list of its track. *)
Theorem findChannel_lookup (index : Z) (m : MidiFile) :
  (findChannel index m = TypeError
   <-> channels m !! index = None /\ nthZ (tracks m) (index / 16) = None)
  /\ (forall m' c, findChannel index m = Returns (m', c) ->
        channels m' !! index = Some c
        /\ findChannel index m' = Returns (m', c)
        /\ (forall k, k <> index -> channels m' !! k = channels m !! k)
        /\ (is_Some (channels m !! index) -> m' = m)
        /\ (channels m !! index = None ->
            c = new_Channel index
            /\ exists t, nthZ (tracks m) (index / 16) = Some t
                 /\ nthZ (tracks m') (index / 16)
                    = Some (mkTrack (tr_index t) (tr_channels t ++ [index])
                              (tr_name t)))).
Proof.
  split.
  - unfold findChannel. destruct (channels m !! index) as [c|].
    + split; [discriminate|]. by intros [? _].
    + cbn [tracks set_channels].
      destruct (nthZ (tracks m) (index / 16)); split; try discriminate; auto.
      by intros [_ ?].
  - intros m' c Hf.
    pose proof (findChannel_spec _ _ _ _ Hf) as (_ & _ & _ & Hother & Hthis).
    split; [exact Hthis|]. split; [|split; [exact Hother|]].
    { unfold findChannel. by rewrite Hthis. }
    apply findChannel_tracks in Hf
      as [[Hsome ->]|(Hnone & -> & H0 & Hc' & t & Ht & Ht')].
    + split; [done|]. intros Hn. rewrite Hn in Hsome. by destruct Hsome.
    + split; [intros [? ?]; congruence|]. intros _. split; [reflexivity|].
      assert (0 <= index / 16) as Hd by (Z.div_mod_to_equations; lia).
      exists t. unfold nthZ. destruct (Z.ltb_spec (index / 16) 0); [lia|].
      split; [exact Ht|]. rewrite Ht'.
      apply list_lookup_insert_eq. by eapply lookup_lt_Some.
Qed.

(* ================================================================== *)
(** * [getTempo]                                                       *)
(* ================================================================== *)

Section ActiveTempo.

(** Along an ascending map the ticks ascend from the head on. *)
Lemma ascending_head e rest : ascending (e :: rest) ->
  forall i x, rest !! i = Some x -> tempo_tick e < tempo_tick x.
Proof.
  revert e. induction rest as [|n rest IH]; intros e Ha i x Hi; [done|].
  destruct Ha as [Hlt Ha]. destruct i as [|i].
  - injection Hi as <-. exact Hlt.
  - specialize (IH n Ha i x Hi). lia.
Qed.

Lemma getTempo_for_cons e rest tick result :
  getTempo_for (e :: rest) tick result
  = if tempo_tick e <? tick then
      match rest with
      | next :: _ =>
          if tick <=? tempo_tick next
          then tempo_microsecondsPerQuarterNote e
          else getTempo_for rest tick (tempo_microsecondsPerQuarterNote e)
      | [] => getTempo_for rest tick (tempo_microsecondsPerQuarterNote e)
      end
    else getTempo_for rest tick (tempo_microsecondsPerQuarterNote e).
Proof. reflexivity. Qed.

(** No entry lies before the tick: the loop runs to its end. *)
Lemma getTempo_for_end tick : forall rest result,
  (forall i x, rest !! i = Some x -> tick <= tempo_tick x) ->
  getTempo_for rest tick result
  = match last rest with
    | Some z => tempo_microsecondsPerQuarterNote z
    | None => result
    end.
Proof.
  induction rest as [|e rest IH]; intros result Hall; [reflexivity|].
  cbn [getTempo_for].
  destruct (Z.ltb_spec (tempo_tick e) tick) as [Hlt|_].
  { specialize (Hall 0%nat e eq_refl). lia. }
  rewrite IH by (intros i x Hi; apply (Hall (S i) x Hi)).
  rewrite last_cons. by destruct (last rest).
Qed.

(** The tick lies after the last entry. *)
Lemma getTempo_for_last tick : forall rest result z,
  ascending rest -> last rest = Some z -> tempo_tick z < tick ->
  getTempo_for rest tick result = tempo_microsecondsPerQuarterNote z.
Proof.
  induction rest as [|e rest IH]; intros result z Ha Hl Hz; [done|].
  rewrite getTempo_for_cons. destruct rest as [|n rest].
  - injection Hl as <-. by destruct (Z.ltb_spec (tempo_tick e) tick).
  - assert (last (n :: rest) = Some z) as Hl' by (by rewrite last_cons_cons in Hl).
    assert (tempo_tick n <= tempo_tick z) as Hn.
    { destruct (last_Some (n :: rest) z) as [Hx _]. destruct (Hx Hl') as [l' Hl''].
      destruct l' as [|n' l']; [injection Hl'' as -> _; lia|].
      injection Hl'' as -> Hr.
      assert (rest !! length l' = Some z) as Hi
        by (rewrite Hr; by apply list_lookup_middle).
      pose proof (ascending_head n' rest (ascending_tail _ _ Ha) _ _ Hi). lia. }
    destruct (Z.ltb_spec (tempo_tick e) tick).
    + destruct (Z.leb_spec tick (tempo_tick n)); [lia|].
      by apply IH; [eapply ascending_tail|..].
    + by apply IH; [eapply ascending_tail|..].
Qed.

(** The tick lies between two entries. *)
Lemma getTempo_for_between tick : forall i rest result a b,
  ascending rest -> rest !! i = Some a -> rest !! S i = Some b ->
  tempo_tick a < tick <= tempo_tick b ->
  getTempo_for rest tick result = tempo_microsecondsPerQuarterNote a.
Proof.
  induction i as [|i IH]; intros rest result a b Ha Hia Hib Ht.
  - destruct rest as [|e [|n rest]]; try done.
    injection Hia as <-. injection Hib as <-. cbn [getTempo_for].
    destruct (Z.ltb_spec (tempo_tick e) tick); [|lia].
    destruct (Z.leb_spec tick (tempo_tick n)); [reflexivity|lia].
  - destruct rest as [|e [|n rest]]; try done.
    rewrite getTempo_for_cons.
    assert (tempo_tick n <= tempo_tick a) as Hn.
    { destruct i as [|i]; [injection Hia as <-; lia|].
      pose proof (ascending_head n rest (ascending_tail _ _ Ha) i a Hia). lia. }
    destruct (Z.ltb_spec (tempo_tick e) tick).
    + destruct (Z.leb_spec tick (tempo_tick n)); [lia|].
      by eapply IH; [eapply ascending_tail|..].
    + by eapply IH; [eapply ascending_tail|..].
Qed.

End ActiveTempo.

(** X10.  The tempo that [getTempo] reports.  On an empty map it is the
    default, 500000.  On a map whose ticks ascend, a tempo change counts
    from just after its own tick up to and including the tick of the next
    change; after the last change the last tempo holds.  At or before the
    tick of the first change the loop finds no entry to stop at and
    reports the tempo of the last entry of the map, neither the first
    tempo nor the default. *)
Theorem getTempo_active (m : MidiFile) (tick : Z) :
  (tempoMap m = [] -> getTempo m tick = Some 500000)
  /\ (ascending (tempoMap m) ->
      (forall i a b,
         tempoMap m !! i = Some a -> tempoMap m !! S i = Some b ->
         tempo_tick a < tick <= tempo_tick b ->
         getTempo m tick = tempo_microsecondsPerQuarterNote a)
      /\ (forall z, last (tempoMap m) = Some z -> tempo_tick z < tick ->
            getTempo m tick = tempo_microsecondsPerQuarterNote z)
      /\ (forall e z, head (tempoMap m) = Some e -> last (tempoMap m) = Some z ->
            tick <= tempo_tick e ->
            getTempo m tick = tempo_microsecondsPerQuarterNote z)).
Proof.
  unfold getTempo. split; [by intros ->|]. intros Ha. split; [|split].
  - intros i a b Hia Hib Ht. by eapply getTempo_for_between.
  - intros z Hl Hz. by eapply getTempo_for_last.
  - intros e z He Hl Ht. rewrite getTempo_for_end, Hl; [reflexivity|].
    intros i x Hi. destruct (tempoMap m) as [|e' rest]; [done|].
    injection He as ->. destruct i as [|i]; [injection Hi as <-; lia|].
    pose proof (ascending_head e rest Ha i x Hi). lia.
Qed.

Lemma getTempo_active_witness :
  getTempo sampleTempoObject 700 = Some 498753
  /\ getTempo sampleTempoObject 960 = Some 498753
  /\ getTempo sampleTempoObject 5000 = Some 480000
  /\ getTempo sampleTempoObject 0 = Some 480000.
Proof.
  destruct (getTempo_active sampleTempoObject 700) as [_ H700].
  destruct (getTempo_active sampleTempoObject 960) as [_ H960].
  destruct (getTempo_active sampleTempoObject 5000) as [_ H5000].
  destruct (getTempo_active sampleTempoObject 0) as [_ H0].
  assert (ascending (tempoMap sampleTempoObject)) as Ha by (cbn; lia).
  split; [|split; [|split]].
  - apply (proj1 (H700 Ha) 1%nat (mkTempo 480 (Some 498753))
             (mkTempo 960 (Some 495868)) eq_refl eq_refl). cbn. lia.
  - apply (proj1 (H960 Ha) 1%nat (mkTempo 480 (Some 498753))
             (mkTempo 960 (Some 495868)) eq_refl eq_refl). cbn. lia.
  - apply (proj1 (proj2 (H5000 Ha)) (mkTempo 1440 (Some 480000)) eq_refl).
    cbn. lia.
  - apply (proj2 (proj2 (H0 Ha)) (mkTempo 0 (Some 500000))
             (mkTempo 1440 (Some 480000)) eq_refl eq_refl). cbn. lia.
Defined.

(* ================================================================== *)
(** * [getTempo] and [getTime]                                         *)
(* ================================================================== *)

Section Slope.

Variable D : Qc.

Lemma segQ_add u d1 d2 : segQ u (d1 + d2) D = (segQ u d1 D + segQ u d2 D)%Qc.
Proof. unfold segQ, Qcdiv. rewrite Z2Qc_inj_add. ring. Qed.

Lemma elapsedFrom_cons e rest cur tc target :
  elapsedFrom (e :: rest) D cur tc target
  = if tc <? target then
      (segQ (usQ e) (nextStop rest target - tc) D
       + elapsedFrom rest D (usQ e) (nextStop rest target) target)%Qc
    else 0%Qc.
Proof. reflexivity. Qed.

(** Up to the next change the seconds grow at the tempo of the turn. *)
Lemma elapsedFrom_single e rest cur tc t :
  tc <= t -> nextStop rest t = t ->
  elapsedFrom (e :: rest) D cur tc t = segQ (usQ e) (t - tc) D.
Proof.
  intros Hle Hstop. rewrite elapsedFrom_cons, Hstop, elapsedFrom_at.
  destruct (Z.ltb_spec tc t); [ring|].
  replace (t - tc) with 0 by lia. by rewrite segQ_0.
Qed.

(** Past the next change the turn has run its full length. *)
Lemma elapsedFrom_step e0 e1 rest cur tc t :
  tc <= tempo_tick e1 -> tempo_tick e1 <= t ->
  elapsedFrom (e0 :: e1 :: rest) D cur tc t
  = (segQ (usQ e0) (tempo_tick e1 - tc) D
     + elapsedFrom (e1 :: rest) D (usQ e0) (tempo_tick e1) t)%Qc.
Proof.
  intros H1 H2. rewrite elapsedFrom_cons.
  assert (nextStop (e1 :: rest) t = tempo_tick e1) as ->.
  { cbn [nextStop]. destruct (Z.leb_spec t (tempo_tick e1)); lia. }
  destruct (Z.ltb_spec tc t); [reflexivity|].
  assert (t = tempo_tick e1) as -> by lia.
  replace (tempo_tick e1 - tc) with 0 by lia.
  rewrite segQ_0, elapsedFrom_at. ring.
Qed.

(** Between two changes the seconds grow at the tempo of the first. *)
Lemma elapsedFrom_segment t1 t2 : t1 <= t2 ->
  forall i rest e cur tc,
  ascending rest -> rest !! i = Some e ->
  (forall next, rest !! S i = Some next -> t2 <= tempo_tick next) ->
  tempo_tick e <= t1 -> tc <= t1 -> stopBound rest tc ->
  elapsedFrom rest D cur tc t2
  = (elapsedFrom rest D cur tc t1 + segQ (usQ e) (t2 - t1) D)%Qc.
Proof.
  intros Ht. induction i as [|i IH]; intros rest e cur tc Ha Hi Hnext He Htc Hb.
  - destruct rest as [|e' rest]; [done|]. injection Hi as ->.
    assert (forall t, t <= t2 -> nextStop rest t = t) as Hstop.
    { intros t Hle. destruct rest as [|n rest]; [reflexivity|].
      cbn [nextStop]. specialize (Hnext n eq_refl).
      destruct (Z.leb_spec t (tempo_tick n)); lia. }
    rewrite !elapsedFrom_single by (try apply Hstop; lia).
    rewrite <- segQ_add. f_equal. lia.
  - destruct rest as [|e0 [|e1 rest]]; try done.
    assert (tempo_tick e1 <= tempo_tick e) as H1.
    { destruct i as [|i]; [injection Hi as <-; lia|].
      pose proof (ascending_head e1 rest (ascending_tail _ _ Ha) i e Hi). lia. }
    cbn [stopBound] in Hb.
    rewrite !(elapsedFrom_step e0 e1) by lia.
    rewrite (IH (e1 :: rest) e (usQ e0) (tempo_tick e1));
      [ring|by eapply ascending_tail|exact Hi|exact Hnext|lia|lia|].
    destruct rest as [|e2 rest]; [done|]. cbn [stopBound].
    destruct Ha as (_ & Ha & _). lia.
Qed.

End Slope.

(** In the exact numbers of the embedding, the seconds between two ticks
    of one segment of the tempo map are the ticks between them at the
    tempo of the segment. *)
Lemma getTime_within_segment (m : MidiFile) (D : Qc) (i : nat) (e : Tempo)
    (t1 t2 : Z) :
  tempoMap_valid (tempoMap m) -> timeDivision m = JS.Fin D -> (0 < D)%Qc ->
  tempoMap m !! i = Some e ->
  (forall next, tempoMap m !! S i = Some next -> t2 <= tempo_tick next) ->
  tempo_tick e <= t1 -> t1 <= t2 -> tempo_tick e < t2 ->
  getTempo m t2 = tempo_microsecondsPerQuarterNote e
  /\ getTime m t2
     = (getTime m t1
        + JS.ofInt (getTempo m t2) * JS.ofZ (t2 - t1) / timeDivision m
          / JS.ofZ 1000000)%js.
Proof.
  intros Hv Htd HD Hi Hnext He Ht Hlt.
  pose proof (tempoMap_valid_defined _ Hv) as Hdef.
  pose proof (tempoMap_valid_bound _ Hv) as Hb.
  destruct Hv as (Hticks & Hpos & Ha).
  assert (D <> 0%Qc) as HD0 by (by apply Qc_pos_not_zero).
  assert (getTempo m t2 = tempo_microsecondsPerQuarterNote e) as Hg.
  { unfold getTempo. destruct (tempoMap m !! S i) as [next|] eqn:Hn.
    - eapply getTempo_for_between; [exact Ha|exact Hi|exact Hn|].
      specialize (Hnext next eq_refl). lia.
    - eapply getTempo_for_last; [exact Ha| |exact Hlt].
      apply lookup_ge_None in Hn. apply lookup_lt_Some in Hi as Hl.
      rewrite last_lookup. replace (Nat.pred (length (tempoMap m))) with i by lia.
      exact Hi. }
  split; [exact Hg|]. rewrite Hg.
  rewrite ofInt_usQ by (eapply Forall_lookup_1 in Hdef; [exact Hdef|exact Hi]).
  unfold getTime. rewrite Htd, !(getTime_on_elapsed D HD0) by exact Hdef.
  rewrite (seg_Fin D HD0). f_equal.
  eapply (elapsedFrom_segment D t1 t2 Ht i); try eassumption.
  eapply Forall_lookup_1 in Hticks; [|exact Hi]. cbn beta in Hticks. lia.
Qed.

(** X11.  [getTempo] gives the tempo at which [getTime] counts on from a
    tempo change.  Over a tempo map whose ticks ascend and whose tempos
    are positive, for a tempo change (the first one only when it lies at
    tick 0) and a tick [t] after it, up to the next change,
    [getTempo(t)] is the tempo of the change and
    [getTime(t) = getTime(tick of the change)
                  + getTempo(t) * (t - tick of the change)
                    / timeDivision / 1000000],
    the sum, the product and the quotients taken as [getTime] takes
    them. *)
Theorem getTempo_slope (m : MidiFile) (D : Qc) (i : nat) (e : Tempo) (t : Z) :
  tempoMap_valid (tempoMap m) -> timeDivision m = JS.Fin D -> (0 < D)%Qc ->
  tempoMap m !! i = Some e -> (i = 0%nat -> tempo_tick e = 0) ->
  (forall next, tempoMap m !! S i = Some next -> t <= tempo_tick next) ->
  tempo_tick e < t ->
  getTempo m t = tempo_microsecondsPerQuarterNote e
  /\ getTime m t
     = (getTime m (tempo_tick e)
        + JS.ofInt (getTempo m t) * JS.ofZ (t - tempo_tick e) / timeDivision m
          / JS.ofZ 1000000)%js.
Proof.
  intros Hv Htd HD Hi _ Hnext Hlt.
  apply (getTime_within_segment m D i e (tempo_tick e) t); auto; lia.
Qed.

Lemma getTempo_slope_witness :
  getTime sampleTempoObject 960
  = (getTime sampleTempoObject 480
     + JS.ofInt (getTempo sampleTempoObject 960) * JS.ofZ (960 - 480)
       / timeDivision sampleTempoObject / JS.ofZ 1000000)%js.
Proof.
  apply (getTempo_slope sampleTempoObject (Qc_of_Z 480) 1%nat
           (mkTempo 480 (Some 498753)) 960).
  - split; [|split].
    + repeat (constructor; [cbn; lia|]). constructor.
    + repeat (constructor; [eexists; split; [reflexivity|lia]|]). constructor.
    + cbn. lia.
  - reflexivity.
  - reflexivity.
  - reflexivity.
  - discriminate.
  - intros next [= <-]. cbn. lia.
  - cbn. lia.
Defined.

(* ================================================================== *)
(** * [createTimeSignatureMap]                                         *)
(* ================================================================== *)

Section TimeSignatures.

Lemma stamped_stamped m ts : stamped m (stamped m ts) = stamped m ts.
Proof. reflexivity. Qed.

(** The loop from turn [i] on: the entries before [i] are done. *)
Lemma createTimeSignatureMap_for_run m0 : forall turns i m,
  (i + turns = length (timeSignatureMap m))%nat ->
  tempoMap m = tempoMap m0 -> timeDivision m = timeDivision m0 ->
  createTimeSignatureMap_for turns i m
  = set_timeSignatureMap
      (take i (timeSignatureMap m)
       ++ map (stamped m0) (drop i (timeSignatureMap m))) m.
Proof.
  induction turns as [|turns IH]; intros i m Hlen Htm Htd.
  - cbn [createTimeSignatureMap_for].
    rewrite drop_ge, app_nil_r, take_ge by lia. by destruct m.
  - cbn [createTimeSignatureMap_for].
    destruct (timeSignatureMap m !! i) as [ts|] eqn:Hi;
      [|apply lookup_ge_None in Hi; lia].
    rewrite IH; cbn [timeSignatureMap set_timeSignatureMap set_timeSignature
                     tempoMap timeDivision];
      [|rewrite length_insert; lia|exact Htm|exact Htd].
    unfold set_timeSignatureMap, set_timeSignature.
    cbn [microsecondsPerQuarterNote timeSignatureNumerator
         timeSignatureDenominator timeSignatureMetronomeInterval
         timeSignatureHemiDemiSemiNotesPerQuarterNote file fileLength isMidiFlag
         format trackCount timeDivision framesPerSecond ticksPerBeat chunkCount
         noteOns noteOffs store notes channels tracks tempoMap].
    f_equal.
    rewrite (drop_S _ _ _ Hi). cbn [map].
    assert (getTime m (ts_tick ts) = getTime m0 (ts_tick ts)) as ->
      by (unfold getTime; by rewrite Htm, Htd).
    rewrite (take_S_r _ _ _ (list_lookup_insert_eq _ _ _ (lookup_lt_Some _ _ _ Hi))).
    rewrite take_insert_ge by lia. rewrite drop_insert_lt by lia.
    by rewrite <- app_assoc.
Qed.

Lemma createTimeSignatureMap_map m :
  createTimeSignatureMap m
  = (set_timeSignatureMap (map (stamped m) (timeSignatureMap m)) m,
     map (stamped m) (timeSignatureMap m)).
Proof.
  unfold createTimeSignatureMap.
  rewrite (createTimeSignatureMap_for_run m) by (reflexivity || lia).
  by rewrite take_0, drop_0.
Qed.

(** [getTime] does not decrease over a valid tempo map. *)
Lemma getTime_mono m D t1 t2 :
  tempoMap_valid (tempoMap m) -> timeDivision m = JS.Fin D -> (0 < D)%Qc ->
  t1 <= t2 -> numLe (getTime m t1) (getTime m t2).
Proof.
  intros Hv Htd HD Ht. unfold getTime, numLe. rewrite Htd.
  assert (D <> 0%Qc) as HD0 by (by apply Qc_pos_not_zero).
  rewrite !getTime_on_elapsed by auto using tempoMap_valid_defined.
  apply ge_Fin. pose proof (tempoMap_valid_bound _ Hv) as Hb.
  destruct Hv as (Ht0 & Hp & Ha).
  apply elapsedFrom_mono; auto;
    rewrite <- Z2Qc_inj_0, <- Z2Qc_inj_le; lia.
Qed.

End TimeSignatures.

(** X12.  [createTimeSignatureMap] stamps every time signature with the
    second of its tick, [getTime(tick)], in place: the array returned is
    the object's own, as long as before, with every other field of every
    entry and of the object unchanged; a second call changes nothing.
    Over a valid tempo map the seconds follow the ticks: an entry whose
    tick is not later gets a second that is not later, wherever the two
    entries stand in the array. *)
Theorem createTimeSignatureMap_seconds (m : MidiFile) :
  snd (createTimeSignatureMap m) = map (stamped m) (timeSignatureMap m)
  /\ timeSignatureMap (fst (createTimeSignatureMap m))
     = snd (createTimeSignatureMap m)
  /\ fst (createTimeSignatureMap m)
     = set_timeSignatureMap (snd (createTimeSignatureMap m)) m
  /\ createTimeSignatureMap (fst (createTimeSignatureMap m))
     = createTimeSignatureMap m
  /\ (forall D, tempoMap_valid (tempoMap m) -> timeDivision m = JS.Fin D ->
        (0 < D)%Qc ->
        forall i j a b,
          snd (createTimeSignatureMap m) !! i = Some a ->
          snd (createTimeSignatureMap m) !! j = Some b ->
          ts_tick a <= ts_tick b -> numLe (ts_second a) (ts_second b)).
Proof.
  rewrite createTimeSignatureMap_map. cbn [fst snd].
  split; [reflexivity|]. split; [reflexivity|]. split; [reflexivity|]. split.
  - rewrite createTimeSignatureMap_map.
    change (timeSignatureMap
              (set_timeSignatureMap (map (stamped m) (timeSignatureMap m)) m))
      with (map (stamped m) (timeSignatureMap m)).
    change (stamped (set_timeSignatureMap (map (stamped m) (timeSignatureMap m)) m))
      with (stamped m).
    rewrite List.map_map. reflexivity.
  - intros D Hv Htd HD i j a b Hi Hj Hab.
    apply list_lookup_fmap_Some_1 in Hi as (a0 & -> & _).
    apply list_lookup_fmap_Some_1 in Hj as (b0 & -> & _).
    cbn [stamped withSecond ts_second ts_tick] in *.
    by eapply getTime_mono.
Qed.

(* ================================================================== *)
(** * The half-speed checkbox                                          *)
(* ================================================================== *)

Section Doubling.

Lemma Qc_two_pos : (0 < Qc_of_Z 2)%Qc.
Proof. by apply Qc_of_Z_pos. Qed.

Lemma Qc_two_not_zero : Qc_of_Z 2 <> 0%Qc.
Proof. apply Qc_pos_not_zero, Qc_two_pos. Qed.

Lemma isZero_two : JS.isZero (Qc_of_Z 2) = false.
Proof. apply isZero_pos, Qc_two_pos. Qed.

Lemma isNeg_two : JS.isNeg (Qc_of_Z 2) = false.
Proof. reflexivity. Qed.

Lemma isZero_spec q : JS.isZero q = true <-> q = 0%Qc.
Proof.
  unfold JS.isZero. destruct (q ?= 0)%Qc eqn:E; split; try discriminate; try done.
  - intros _. by apply Qceq_alt.
  - intros ->. by rewrite (proj1 (Qceq_alt 0 0) eq_refl) in E.
  - intros ->. by rewrite (proj1 (Qceq_alt 0 0) eq_refl) in E.
Qed.

Lemma isNeg_spec q : JS.isNeg q = true <-> (q < 0)%Qc.
Proof.
  unfold JS.isNeg, Qclt. rewrite Qlt_alt. unfold Qccompare.
  destruct (this q ?= this 0%Qc)%Q; split; try discriminate; done.
Qed.

Lemma isZero_double q : JS.isZero (Qc_of_Z 2 * q) = JS.isZero q.
Proof.
  apply eq_true_iff_eq. rewrite !isZero_spec. split.
  - intros H. apply Qcmult_integral in H as [H|H]; [|exact H].
    by destruct Qc_two_not_zero.
  - intros ->. ring.
Qed.

Lemma isZero_half q : JS.isZero (q / Qc_of_Z 2) = JS.isZero q.
Proof.
  rewrite <- (isZero_double (q / Qc_of_Z 2)). f_equal.
  field. apply Qc_two_not_zero.
Qed.

Lemma isNeg_double q : JS.isNeg (Qc_of_Z 2 * q) = JS.isNeg q.
Proof.
  apply eq_true_iff_eq. rewrite !isNeg_spec. split.
  - intros H. destruct (Qclt_le_dec q 0) as [Hq|Hq]; [exact Hq|]. exfalso.
    pose proof (Qcmult_le_compat_r 0 q (Qc_of_Z 2) Hq (Qclt_le_weak _ _ Qc_two_pos)) as H'.
    rewrite Qcmult_0_l, Qcmult_comm in H'. by apply Qcle_not_lt in H'.
  - intros H. rewrite Qcmult_comm.
    replace 0%Qc with (0 * Qc_of_Z 2)%Qc by ring.
    by apply Qcmult_lt_compat_r; [apply Qc_two_pos|].
Qed.

Lemma isNeg_half q : JS.isNeg (q / Qc_of_Z 2) = JS.isNeg q.
Proof.
  rewrite <- (isNeg_double (q / Qc_of_Z 2)). f_equal.
  field. apply Qc_two_not_zero.
Qed.

End Doubling.

Section DoublingNumbers.

(** Doubling goes through sums, differences and quotients, whatever
    the numbers are. *)
Lemma double_add a b :
  (JS.ofZ 2 * (a + b) = JS.ofZ 2 * a + JS.ofZ 2 * b)%js.
Proof.
  destruct a as [|sa|p], b as [|sb|q]; js_simpl; try reflexivity.
  - destruct (eqb sa sb); js_simpl; reflexivity.
  - apply (f_equal JS.Fin); ring.
Qed.

Lemma double_neg a : (JS.ofZ 2 * JS.neg a)%js = JS.neg (JS.ofZ 2 * a)%js.
Proof.
  destruct a as [|sa|p]; js_simpl; try reflexivity. apply (f_equal JS.Fin); ring.
Qed.

Lemma double_sub a b :
  (JS.ofZ 2 * (a - b) = JS.ofZ 2 * a - JS.ofZ 2 * b)%js.
Proof. unfold JS.sub. by rewrite double_add, double_neg. Qed.

Lemma double_zero : (JS.ofZ 2 * JS.ofZ 0)%js = JS.ofZ 0.
Proof. js_simpl. apply (f_equal JS.Fin). rewrite Z2Qc_inj_0. ring. Qed.

(** Dividing by half the divisor doubles the quotient. *)
Lemma div_half x td : (x / (td / JS.ofZ 2) = JS.ofZ 2 * (x / td))%js.
Proof.
  destruct x as [|sx|p], td as [|st|q]; js_simpl; try reflexivity.
  - by rewrite isNeg_half.
  - rewrite isZero_half. destruct (JS.isZero q) eqn:Hq.
    + destruct (JS.isZero p); js_simpl; reflexivity.
    + js_simpl. apply (f_equal JS.Fin); field.
      repeat split; try apply Qc_two_not_zero.
      all: intros ->; by rewrite (proj2 (isZero_spec 0) eq_refl) in Hq.
Qed.

Lemma double_div a (M : Z) : 0 < M ->
  (JS.ofZ 2 * a / JS.ofZ M = JS.ofZ 2 * (a / JS.ofZ M))%js.
Proof.
  intros HM. pose proof (Qc_of_Z_pos M HM) as Hpos.
  assert (JS.isZero (Qc_of_Z M) = false) as Hz by (by apply isZero_pos).
  assert (JS.isNeg (Qc_of_Z M) = false) as Hn.
  { destruct (JS.isNeg (Qc_of_Z M)) eqn:E; [|reflexivity].
    apply isNeg_spec in E. exfalso. eapply Qclt_not_le; [exact E|].
    by apply Qclt_le_weak. }
  destruct a as [|sa|p]; js_simpl; rewrite ?Hn, ?Hz; js_simpl; try reflexivity.
  apply (f_equal JS.Fin); field. by apply Qc_pos_not_zero.
Qed.

Lemma truthy_half td : JS.truthy (td / JS.ofZ 2)%js = JS.truthy td.
Proof.
  destruct td as [|s|q]; js_simpl; try reflexivity. by rewrite isZero_half.
Qed.

Lemma lt_double x :
  JS.lt (JS.ofZ 2 * x)%js (JS.ofZ 0) = JS.lt x (JS.ofZ 0).
Proof.
  destruct x as [|s|q]; js_simpl; try reflexivity. f_equal.
  rewrite Z2Qc_inj_0.
  pose proof (isNeg_double q) as H. unfold JS.isNeg in H.
  destruct (Qc_of_Z 2 * q ?= 0)%Qc, (q ?= 0)%Qc; try reflexivity; discriminate.
Qed.

End DoublingNumbers.

Section Slowed.

(** [getTime] under half the time division. *)
Lemma getTime_body_slowed tm td target sec cur tc ptc idx :
  getTime_body tm (td / JS.ofZ 2)%js target
    (mkGetTime (JS.ofZ 2 * sec)%js cur tc ptc idx)
  = let r := getTime_body tm td target (mkGetTime sec cur tc ptc idx) in
    mkGetTime (JS.ofZ 2 * gt_seconds r)%js
      (gt_currentMicrosecondsPerQuarterNote r) (gt_tickCounter r)
      (gt_prevTickCounter r) (gt_index r).
Proof.
  unfold getTime_body.
  cbn [gt_index gt_seconds gt_currentMicrosecondsPerQuarterNote
       gt_prevTickCounter gt_tickCounter].
  destruct (tm !! idx) as [tempo|]; [destruct (tm !! (idx + 1)%nat) as [next|]|];
    cbv zeta; cbn [gt_index gt_seconds gt_currentMicrosecondsPerQuarterNote
                   gt_prevTickCounter gt_tickCounter];
    by rewrite div_half, double_div, double_add by lia.
Qed.

Lemma getTime_while_slowed tm td target : forall fuel sec cur tc ptc idx,
  getTime_while fuel tm (td / JS.ofZ 2)%js target
    (mkGetTime (JS.ofZ 2 * sec)%js cur tc ptc idx)
  = let r := getTime_while fuel tm td target (mkGetTime sec cur tc ptc idx) in
    mkGetTime (JS.ofZ 2 * gt_seconds r)%js
      (gt_currentMicrosecondsPerQuarterNote r) (gt_tickCounter r)
      (gt_prevTickCounter r) (gt_index r).
Proof.
  induction fuel as [|fuel IH]; intros sec cur tc ptc idx; [reflexivity|].
  cbn [getTime_while gt_tickCounter].
  destruct (tc <? target); [|reflexivity].
  rewrite getTime_body_slowed. cbv zeta.
  destruct (getTime_body tm td target (mkGetTime sec cur tc ptc idx))
    as [sec' cur' tc' ptc' idx'].
  cbn [gt_index gt_seconds gt_currentMicrosecondsPerQuarterNote
       gt_prevTickCounter gt_tickCounter].
  apply IH.
Qed.

Lemma getTime_slowed m targetTick :
  getTime (slowed m) targetTick = (JS.ofZ 2 * getTime m targetTick)%js.
Proof.
  unfold getTime, getTime_on. cbn [slowed tempoMap timeDivision].
  rewrite <- double_zero at 1. by rewrite getTime_while_slowed.
Qed.

Lemma findChannel_slowed index m :
  findChannel index (slowed m)
  = omap (fun p => (slowed (fst p), snd p)) (findChannel index m).
Proof.
  unfold findChannel. cbn [slowed channels tracks set_channels set_tracks].
  repeat break_inner; reflexivity.
Qed.

Lemma slowedNote_resolved time beats n :
  slowedNote (resolved time beats n)
  = resolved (JS.ofZ 2 * time)%js (JS.ofZ 2 * beats)%js (slowedNote n).
Proof.
  unfold slowedNote, resolved.
  cbn [note_time note_beats note_channel note_pitch note_vel note_durTime
       note_durBeats option_map].
  by rewrite !double_sub.
Qed.

Lemma assignDuration_slowed chNotes time beats pitch : forall k h,
  assignDuration chNotes (JS.ofZ 2 * time)%js (JS.ofZ 2 * beats)%js pitch k
    (map slowedNote h)
  = map slowedNote (assignDuration chNotes time beats pitch k h).
Proof.
  induction k as [|k IH]; intros h; [reflexivity|].
  cbn [assignDuration]. destruct (chNotes !! k) as [r|]; [|apply IH].
  change (map slowedNote h) with (slowedNote <$> h).
  rewrite list_lookup_fmap.
  destruct (h !! r) as [note2|]; cbn [fmap option_fmap option_map]; [|apply IH].
  change (note_vel (slowedNote note2)) with (note_vel note2).
  change (note_pitch (slowedNote note2)) with (note_pitch note2).
  destruct (JS.truthyInt (note_vel note2) && _); [|apply IH].
  rewrite list_fmap_insert. f_equal.
  symmetry. apply slowedNote_resolved.
Qed.

Lemma addNote_slowed time beats channel pitch vel m :
  addNote (JS.ofZ 2 * time)%js (JS.ofZ 2 * beats)%js channel pitch vel (slowed m)
  = omap (fun p => (slowed (fst p), snd p))
      (addNote time beats channel pitch vel m).
Proof.
  unfold addNote. cbn [slowed store notes].
  rewrite length_map.
  change [new_Note (JS.ofZ 2 * time)%js (JS.ofZ 2 * beats)%js channel pitch vel]
    with (map slowedNote [new_Note time beats channel pitch vel]).
  rewrite <- map_app.
  change (set_notes (notes m ++ [length (store m)])
            (set_store
               (map slowedNote
                  (store m ++ [new_Note time beats channel pitch vel]))
               (slowed m)))
    with (slowed (set_notes (notes m ++ [length (store m)])
                    (set_store (store m ++ [new_Note time beats channel pitch vel])
                       m))).
  rewrite findChannel_slowed.
  destruct (findChannel channel _) as [[m1 c]|]; [|reflexivity].
  cbn [omap obind fst snd]. destruct (JS.truthyInt vel); [reflexivity|].
  cbn [omap fst snd]. f_equal. f_equal.
  cbn [slowed store set_counters set_channels set_store chunkCount noteOns
       noteOffs].
  unfold slowed, set_store, set_counters, set_channels.
  cbn [microsecondsPerQuarterNote timeSignatureNumerator
       timeSignatureDenominator timeSignatureMetronomeInterval
       timeSignatureHemiDemiSemiNotesPerQuarterNote file fileLength isMidiFlag
       format trackCount timeDivision framesPerSecond ticksPerBeat chunkCount
       noteOns noteOffs store notes channels tracks tempoMap timeSignatureMap].
  f_equal. apply assignDuration_slowed.
Qed.

Lemma metaEvent_slowed ct tr off tk prefix b1 m :
  metaEvent ct tr off tk prefix b1 (slowed m)
  = omap (fun p => (slowed (fst p), snd p)) (metaEvent ct tr off tk prefix b1 m).
Proof.
  unfold metaEvent.
  change (file (slowed m)) with (file m).
  change (tracks (slowed m)) with (tracks m).
  repeat (break_inner; try reflexivity).
  all: rewrite findChannel_slowed.
  all: destruct (findChannel _ m) as [[m1 c]|]; reflexivity.
Qed.

Lemma event_body_slowed ct tr off s m :
  event_body ct tr off (slowedState s) (slowed m)
  = omap (fun p => (slowed (fst p), slowedState (snd p)))
      (event_body ct tr off s m).
Proof.
  unfold event_body.
  change (file (slowed m)) with (file m).
  change (timeDivision (slowed m)) with (timeDivision m / JS.ofZ 2)%js.
  change (microsecondsPerQuarterNote (slowed m))
    with (microsecondsPerQuarterNote m).
  change (ticks (slowedState s)) with (ticks s).
  change (seconds (slowedState s)) with (JS.ofZ 2 * seconds s)%js.
  change (previousStatus (slowedState s)) with (previousStatus s).
  change (midiChannelPrefix (slowedState s)) with (midiChannelPrefix s).
  rewrite truthy_half, getTime_slowed, div_half.
  rewrite <- double_zero at 1.
  destruct (negb (ticks s + getVarVal (file m) off =? 0) && _ && _);
    destruct (negb (JS.band _ 128 =? 0)).
  all: repeat (break_inner; try reflexivity).
  all: rewrite ?addNote_slowed, ?metaEvent_slowed.
  all: try (destruct (addNote _ _ _ _ _ m) as [[? ?]|]; reflexivity).
  all: destruct (metaEvent _ _ _ _ _ _ m) as [[? ?]|]; reflexivity.
Qed.

Lemma events_while_slowed ct tr chunkEnd : forall fuel s m,
  events_while fuel ct tr chunkEnd (slowedState s) (slowed m)
  = omap (fun p => (slowed (fst p), slowedState (snd p)))
      (events_while fuel ct tr chunkEnd s m).
Proof.
  induction fuel as [|fuel IH]; intros s m; [reflexivity|].
  cbn [events_while]. change (chunkOffset (slowedState s)) with (chunkOffset s).
  destruct (inChunk (chunkOffset s) chunkEnd) as [off|]; [|reflexivity].
  rewrite event_body_slowed.
  destruct (event_body ct tr off s m) as [[m1 s1]|]; [|reflexivity].
  cbn [omap obind fst snd]. apply IH.
Qed.

Lemma slowedState_start off :
  slowedState (mkTrackState 0 (Some off) 0 (Some 0) (JS.ofZ 0))
  = mkTrackState 0 (Some off) 0 (Some 0) (JS.ofZ 0).
Proof.
  unfold slowedState.
  cbn [previousStatus chunkOffset ticks midiChannelPrefix seconds].
  by rewrite double_zero.
Qed.

Lemma chunk_body_slowed off ct m :
  chunk_body off ct (slowed m)
  = omap (fun p => (slowed (fst p), snd p)) (chunk_body off ct m).
Proof.
  unfold chunk_body. change (file (slowed m)) with (file m).
  destruct (String.eqb _ _); [|reflexivity].
  change (set_tracks
            (tracks (set_counters (chunkCount (slowed m) + 1) (noteOns (slowed m))
                       (noteOffs (slowed m)) (slowed m)) ++ [new_Track])
            (set_counters (chunkCount (slowed m) + 1) (noteOns (slowed m))
               (noteOffs (slowed m)) (slowed m)))
    with (slowed (set_tracks
                    (tracks (set_counters (chunkCount m + 1) (noteOns m)
                               (noteOffs m) m) ++ [new_Track])
                    (set_counters (chunkCount m + 1) (noteOns m) (noteOffs m) m))).
  change (tracks (set_counters (chunkCount (slowed m) + 1) (noteOns (slowed m))
                    (noteOffs (slowed m)) (slowed m)))
    with (tracks (set_counters (chunkCount m + 1) (noteOns m) (noteOffs m) m)).
  rewrite <- (slowedState_start (off + 8)) at 1.
  rewrite events_while_slowed.
  destruct (events_while _ _ _ _ _ _) as [[m1 s1]|]; reflexivity.
Qed.

Lemma chunks_while_slowed : forall fuel s m,
  chunks_while fuel s (slowed m)
  = omap (fun p => (slowed (fst p), snd p)) (chunks_while fuel s m).
Proof.
  induction fuel as [|fuel IH]; intros s m; [reflexivity|].
  cbn [chunks_while]. change (fileLength (slowed m)) with (fileLength m).
  destruct (inFile (offset s) (fileLength m)) as [off|]; [|reflexivity].
  rewrite chunk_body_slowed.
  destruct (chunk_body off (currentTrack s) m) as [[m1 s1]|]; [|reflexivity].
  cbn [omap obind fst snd]. apply IH.
Qed.

(** The sort compares the same notes the same way. *)
Lemma noteBefore_slowed h a b :
  noteBefore (map slowedNote h) a b = noteBefore h a b.
Proof.
  unfold noteBefore. change (map slowedNote h) with (slowedNote <$> h).
  rewrite !list_lookup_fmap.
  destruct (h !! a) as [x|], (h !! b) as [y|]; cbn [fmap option_fmap option_map];
    try reflexivity.
  change (note_time (slowedNote x)) with (JS.ofZ 2 * note_time x)%js.
  change (note_time (slowedNote y)) with (JS.ofZ 2 * note_time y)%js.
  by rewrite <- double_sub, lt_double.
Qed.

Lemma sortNotes_slowed h l : sortNotes (map slowedNote h) l = sortNotes h l.
Proof.
  unfold sortNotes. induction l as [|r l IH]; [reflexivity|].
  cbn [fold_right]. rewrite IH. generalize (fold_right (insertNote h) [] l).
  intros l'. induction l' as [|r' l' IH']; [reflexivity|].
  cbn [insertNote]. rewrite noteBefore_slowed, IH'. reflexivity.
Qed.

Lemma MidiFile_header_slowed contents :
  MidiFile_header contents true = slowed (MidiFile_header contents false).
Proof. unfold MidiFile_header. destruct (negb _); reflexivity. Qed.

Lemma MidiFile_new_slowed contents canceled :
  MidiFile_new contents true canceled
  = omap slowed (MidiFile_new contents false canceled).
Proof.
  unfold MidiFile_new. rewrite MidiFile_header_slowed.
  destruct canceled; [reflexivity|].
  change (fileLength (slowed (MidiFile_header contents false)))
    with (fileLength (MidiFile_header contents false)).
  rewrite chunks_while_slowed.
  destruct (chunks_while _ _ _) as [[m1 s1]|]; [|reflexivity].
  cbn [omap obind fst snd]. f_equal.
  unfold slowed at 1. cbn [store notes set_notes].
  rewrite sortNotes_slowed. reflexivity.
Qed.

End Slowed.

(** X13.  What the half-speed checkbox does.  Reading a file with the
    checkbox set gives the object that reading it without gives, with
    the time division halved and with the time, the beats and the
    durations of every note doubled, and nothing else changed: the same
    notes in the same order, the same channels, tracks, tempo and
    time-signature entries, and an exception in the same cases.  In such
    an object [getTime] is twice what it was. *)
Theorem halfSpeed_doubles (contents : string) (canceled : bool) :
  MidiFile_new contents true canceled
  = omap slowed (MidiFile_new contents false canceled)
  /\ forall m targetTick,
       getTime (slowed m) targetTick = (JS.ofZ 2 * getTime m targetTick)%js.
Proof. split; [apply MidiFile_new_slowed|apply getTime_slowed]. Qed.

(* ================================================================== *)
(** * [getLatestMidiNote]                                              *)
(* ================================================================== *)

Section LatestNote.

(** Once a duration is known the loop reads no note. *)
Lemma lastDuration_while_known m k noteTime d :
  lastDuration_while m k noteTime (Some d) = Returns (noteTime, Some d).
Proof. by destruct k. Qed.

(** The loop entered without a duration. *)
Lemma lastDuration_while_scan m : forall k noteTime,
  (forall i, (i < k)%nat -> is_Some (noteAt m i)) ->
  exists noteTime',
    lastDuration_while m k noteTime None
    = Returns match lastWithDuration_below m k with
              | Some n => (Some (note_time n), note_durTime n)
              | None => (noteTime', None)
              end.
Proof.
  induction k as [|k IH]; intros noteTime Hv; [by exists noteTime|].
  cbn [lastDuration_while lastWithDuration_below].
  destruct (Hv k ltac:(lia)) as [n ->].
  destruct (note_durTime n) as [d|] eqn:Hd.
  - rewrite lastDuration_while_known.
    rewrite bool_decide_eq_true_2 by (by eexists). rewrite Hd. by exists None.
  - rewrite bool_decide_eq_false_2 by (by intros [? ?]).
    apply IH. intros i Hi. apply Hv. lia.
Qed.

Lemma raiseLatest_undefined latest noteTime :
  raiseLatest latest noteTime None = latest.
Proof.
  unfold raiseLatest, addUndefined. destruct noteTime, latest; reflexivity.
Qed.

(** Raising twice to the same end changes nothing. *)
Lemma raiseLatest_again latest noteTime noteDur :
  raiseLatest (raiseLatest latest noteTime noteDur) noteTime noteDur
  = raiseLatest latest noteTime noteDur.
Proof.
  unfold raiseLatest. set (e := addUndefined noteTime noteDur).
  destruct (JS.lt latest e) eqn:Hlt; [|by rewrite Hlt].
  assert (JS.lt e e = false) as ->; [|reflexivity].
  destruct e as [|s|q]; cbn; [reflexivity|by destruct s|].
  by rewrite (proj1 (Qceq_alt q q) eq_refl).
Qed.

Lemma lastWithDuration_below_duration m : forall k n,
  lastWithDuration_below m k = Some n -> is_Some (note_durTime n).
Proof.
  induction k as [|k IH]; intros n H; [done|].
  cbn [lastWithDuration_below] in H.
  destruct (noteAt m k) as [n0|]; [|by apply IH].
  destruct (bool_decide_reflect (is_Some (note_durTime n0))) as [Hd|_];
    [by injection H as <-|by apply IH].
Qed.

(** The files after the first one with a duration are not read. *)
Lemma getLatestMidiNote_for_known noteTime d : forall midiFiles latest,
  raiseLatest latest noteTime (Some d) = latest ->
  getLatestMidiNote_for midiFiles latest noteTime (Some d) = Returns latest.
Proof.
  induction midiFiles as [|f l IH]; intros latest Hl; [reflexivity|].
  cbn [getLatestMidiNote_for].
  destruct (Nat.eqb (length (notes f)) 0); [by apply IH|].
  rewrite lastDuration_while_known. cbn [obind]. rewrite Hl. by apply IH.
Qed.

End LatestNote.

(** X14.  The latest note of one file.  When every entry of [notes]
    names a note, [getLatestMidiNote] of a single file returns the
    trailing duration added to the end, time plus duration, of the last
    entry of [notes] that has a duration, or to 0 when that end is not
    later than second 0 or when no note of the file has a duration. *)
Theorem getLatestMidiNote_one (settings : MidiCustomSettings) (m : MidiFile) :
  notesValid m ->
  getLatestMidiNote settings (OneFile m)
  = Returns (match lastWithDuration m with
             | Some n => endOf n
             | None => JS.ofZ 0
             end + trailingDuration settings)%js.
Proof.
  intros Hv. unfold getLatestMidiNote, lastWithDuration.
  destruct (lastDuration_while_scan m (length (notes m)) None Hv) as [t' ->].
  cbn [obind]. destruct (lastWithDuration_below m (length (notes m))) as [n|];
    cbn [obind]; [reflexivity|].
  by rewrite raiseLatest_undefined.
Qed.

Lemma getLatestMidiNote_one_witness :
  getLatestMidiNote new_MidiCustomSettings (OneFile overlapState)
  = Returns (JS.Fin (Q2Qc (9 # 2))).
Proof.
  rewrite (getLatestMidiNote_one new_MidiCustomSettings overlapState).
  - fin_reflexivity.
  - intros i Hi. destruct i as [|[|[|i]]]; try (by eexists).
    vm_compute in Hi. lia.
Defined.

Section LatestOfMany.

Lemma getLatestMidiNote_for_first f post n : forall pre noteTime,
  Forall notesValid pre ->
  Forall (fun g => lastWithDuration g = None) pre ->
  notesValid f -> lastWithDuration f = Some n ->
  getLatestMidiNote_for (pre ++ f :: post) (JS.ofZ 0) noteTime None
  = Returns (endOf n).
Proof.
  induction pre as [|g pre IH]; intros noteTime Hv Hnone Hvf Hf.
  - cbn [app getLatestMidiNote_for].
    destruct (Nat.eqb_spec (length (notes f)) 0) as [He|_].
    { unfold lastWithDuration in Hf. by rewrite He in Hf. }
    destruct (lastDuration_while_scan f (length (notes f)) noteTime Hvf)
      as [t' ->].
    unfold lastWithDuration in Hf. rewrite Hf. cbn [obind].
    destruct (lastWithDuration_below_duration _ _ _ Hf) as [d Hd].
    unfold endOf. rewrite Hd. apply getLatestMidiNote_for_known.
    apply raiseLatest_again.
  - apply Forall_cons in Hv as [Hvg Hv].
    apply Forall_cons in Hnone as [Hg Hnone].
    cbn [app getLatestMidiNote_for].
    destruct (Nat.eqb (length (notes g)) 0); [by apply IH|].
    destruct (lastDuration_while_scan g (length (notes g)) noteTime Hvg)
      as [t' ->].
    unfold lastWithDuration in Hg. rewrite Hg. cbn [obind].
    rewrite raiseLatest_undefined. by apply IH.
Qed.

End LatestOfMany.

(** X15.  The latest note of an array of files is that of one file.
    The variables that hold the time and the duration of the note found
    are shared by all turns of the loop over the files, so once a file
    has given a note with a duration no later file is read: the result
    for the array is the result for the first file that has a note with
    a duration, whatever the files after it hold, and be their notes
    later. *)
Theorem getLatestMidiNote_array (settings : MidiCustomSettings)
    (pre post : list MidiFile) (f : MidiFile) :
  Forall notesValid pre -> notesValid f ->
  Forall (fun g => lastWithDuration g = None) pre ->
  is_Some (lastWithDuration f) ->
  getLatestMidiNote settings (FileArray (pre ++ f :: post))
  = getLatestMidiNote settings (OneFile f).
Proof.
  intros Hv Hvf Hnone [n Hn].
  unfold getLatestMidiNote.
  rewrite (getLatestMidiNote_for_first f post n pre None) by done.
  destruct (lastDuration_while_scan f (length (notes f)) None Hvf) as [t' ->].
  unfold lastWithDuration in Hn. rewrite Hn. reflexivity.
Qed.

Lemma getLatestMidiNote_array_witness :
  getLatestMidiNote new_MidiCustomSettings
    (FileArray ([oneTrackObject] ++ overlapState :: [lateState]))
  = getLatestMidiNote new_MidiCustomSettings (OneFile overlapState)
  /\ getLatestMidiNote new_MidiCustomSettings (OneFile overlapState)
     = Returns (JS.Fin (Q2Qc (9 # 2)))
  /\ getLatestMidiNote new_MidiCustomSettings (OneFile lateState)
     = Returns (JS.Fin (Q2Qc (25 # 2))).
Proof.
  split; [|split; fin_reflexivity].
  apply (getLatestMidiNote_array new_MidiCustomSettings [oneTrackObject]
           [lateState] overlapState).
  - constructor; [|constructor]. intros i Hi. vm_compute in Hi. lia.
  - intros i Hi. destruct i as [|[|[|i]]]; try (by eexists).
    vm_compute in Hi. lia.
  - constructor; [reflexivity|constructor].
  - by eexists.
Defined.

(* ================================================================== *)
(** * [getXPositionAndWidthOfNote]                                     *)
(* ================================================================== *)

Section FiniteNumbers.

Lemma strictEq_Fin p q : JS.strictEq (JS.Fin p) (JS.Fin q) = bool_decide (p = q).
Proof.
  cbn [JS.strictEq]. destruct (bool_decide_reflect (p = q)) as [->|Hne].
  - apply isZero_spec. ring.
  - destruct (JS.isZero (p - q)) eqn:E; [|reflexivity].
    apply isZero_spec in E. destruct Hne.
    replace p with (q + (p - q))%Qc by ring. rewrite E. ring.
Qed.

Lemma lt_Fin p q : JS.lt (JS.Fin p) (JS.Fin q) = bool_decide (p < q)%Qc.
Proof.
  cbn [JS.lt JS.ge]. unfold Qccompare.
  destruct (bool_decide_reflect (p < q)%Qc) as [H|H];
    unfold Qclt in H; rewrite Qlt_alt in H.
  - by rewrite H.
  - by destruct (this p ?= this q)%Q.
Qed.

Lemma strictEq_refl x : x <> JS.NaN -> JS.strictEq x x = true.
Proof.
  destruct x as [|s|q]; [done|intros _; by destruct s|intros _].
  rewrite strictEq_Fin. by apply bool_decide_eq_true_2.
Qed.

Lemma isZero_120 : JS.isZero (Qc_of_Z 120) = false.
Proof. by apply isZero_pos, Qc_of_Z_pos. Qed.

Lemma deltaPosition_Fin settings k bpm ns cur :
  speedPerSecond settings = JS.Fin k ->
  deltaPosition settings (JS.Fin bpm) (JS.Fin ns - JS.Fin cur)%js
  = JS.Fin ((ns - cur) * rateQ k bpm)%Qc.
Proof.
  intros Hk. unfold deltaPosition, rateQ. rewrite Hk.
  cbn [JS.sub JS.neg JS.add JS.mul JS.div JS.ofZ]. rewrite isZero_120.
  cbn [JS.mul]. apply (f_equal JS.Fin). unfold Qcminus. ring.
Qed.

End FiniteNumbers.

Section Advance.

Variable settings : MidiCustomSettings.
Variable k : Qc.
Hypothesis speed_finite : speedPerSecond settings = JS.Fin k.

Lemma finiteMap_lookup bpmMap qs i e :
  finiteMap bpmMap qs -> qs !! i = Some e ->
  exists b, bpmMap !! i = Some b /\ finiteEntry b e.
Proof. intros Hf Hi. by eapply Forall2_lookup_r. Qed.

Lemma finiteMap_lookup_None bpmMap qs i :
  finiteMap bpmMap qs -> qs !! i = None -> bpmMap !! i = None.
Proof.
  intros Hf Hi. apply lookup_ge_None. apply lookup_ge_None in Hi.
  by rewrite (Forall2_length _ _ _ Hf).
Qed.

(** The loop on a finite map is [advanceQ]. *)
Lemma advance_while_Q bpmMap qs target : finiteMap bpmMap qs ->
  forall rest done si bpm sum cur fuel,
  qs = done ++ (si, bpm) :: rest -> (length rest + 2 <= fuel)%nat ->
  exists done' si',
    let '(sum', bpm', rest') := advanceQ k rest bpm sum cur target in
    qs = done' ++ (si', bpm') :: rest'
    /\ advance_while fuel settings bpmMap (JS.Fin target)
         (mkAdvance (JS.Fin sum) (JS.Fin cur) (length done))
       = Some (Returns (mkAdvance (JS.Fin sum') (JS.Fin target) (length done'))).
Proof.
  intros Hf. induction rest as [|[s b] rest IH];
    intros done si bpm sum cur fuel Hqs Hfuel.
  - destruct fuel as [|[|fuel]]; [cbn in Hfuel; lia..|].
    cbn [advanceQ advance_while av_currentSecond av_bpmIndex av_sum].
    rewrite strictEq_Fin.
    destruct (decide (cur = target)) as [->|Hne].
    { rewrite bool_decide_eq_true_2 by done. by exists done, si. }
    rewrite bool_decide_eq_false_2 by done.
    assert (qs !! length done = Some (si, bpm)) as Hi
      by (rewrite Hqs; by apply list_lookup_middle).
    destruct (finiteMap_lookup _ _ _ _ Hf Hi) as (e & -> & Hs & Hb).
    rewrite (finiteMap_lookup_None bpmMap qs)
      by (try exact Hf; apply lookup_ge_None; rewrite Hqs, length_app; cbn; lia).
    cbn [snd] in Hb. rewrite Hb, (deltaPosition_Fin _ _ _ _ _ speed_finite).
    cbn [JS.add]. rewrite strictEq_Fin, bool_decide_eq_true_2 by done.
    by exists done, si.
  - destruct fuel as [|fuel]; [cbn in Hfuel; lia|].
    cbn [advanceQ advance_while av_currentSecond av_bpmIndex av_sum].
    rewrite strictEq_Fin.
    destruct (decide (cur = target)) as [->|Hne].
    { rewrite bool_decide_eq_true_2 by done. by exists done, si. }
    rewrite bool_decide_eq_false_2 by done.
    assert (qs !! length done = Some (si, bpm)) as Hi
      by (rewrite Hqs; by apply list_lookup_middle).
    destruct (finiteMap_lookup _ _ _ _ Hf Hi) as (e & -> & Hs & Hb).
    assert (qs !! (length done + 1)%nat = Some (s, b)) as Hi'.
    { rewrite Hqs, lookup_app_r by lia.
      by replace (length done + 1 - length done)%nat with 1%nat by lia. }
    destruct (finiteMap_lookup _ _ _ _ Hf Hi') as (e' & -> & Hs' & Hb').
    cbn [fst snd] in *. rewrite Hb, Hs', lt_Fin.
    rewrite !(deltaPosition_Fin _ _ _ _ _ speed_finite). cbn [JS.add].
    destruct (decide (s < target)%Qc) as [Hlt|Hge].
    + rewrite bool_decide_eq_true_2 by done.
      destruct (IH (done ++ [(si, bpm)]) s b
                  (sum + (s - cur) * rateQ k bpm)%Qc s fuel) as (done' & si' & H).
      { by rewrite <- app_assoc. }
      { cbn in Hfuel. lia. }
      exists done', si'.
      destruct (advanceQ k rest b _ s target) as [[sum' bpm'] rest'].
      destruct H as [Hq Ha]. split; [exact Hq|].
      rewrite length_app in Ha. cbn [length] in Ha. exact Ha.
    + rewrite bool_decide_eq_false_2 by done.
      destruct fuel as [|fuel]; [cbn in Hfuel; lia|].
      cbn [advance_while av_currentSecond].
      rewrite strictEq_Fin, bool_decide_eq_true_2 by done.
      by exists done, si.
Qed.

End Advance.

Section AdvanceQ.

Variable k : Qc.

Lemma advanceQ_done rest bpm sum cur :
  advanceQ k rest bpm sum cur cur = (sum, bpm, rest).
Proof. destruct rest; cbn [advanceQ]; by rewrite decide_True. Qed.

Lemma advanceQ_nil bpm sum cur target : cur <> target ->
  advanceQ k [] bpm sum cur target
  = ((sum + (target - cur) * rateQ k bpm)%Qc, bpm, []).
Proof. intros H. cbn [advanceQ]. by rewrite decide_False. Qed.

Lemma advanceQ_stay s b rest bpm sum cur target :
  cur <> target -> ~ (s < target)%Qc ->
  advanceQ k ((s, b) :: rest) bpm sum cur target
  = ((sum + (target - cur) * rateQ k bpm)%Qc, bpm, (s, b) :: rest).
Proof. intros H1 H2. cbn [advanceQ]. by rewrite !decide_False. Qed.

Lemma advanceQ_next s b rest bpm sum cur target :
  cur <> target -> (s < target)%Qc ->
  advanceQ k ((s, b) :: rest) bpm sum cur target
  = advanceQ k rest b (sum + (s - cur) * rateQ k bpm)%Qc s target.
Proof.
  intros H1 H2. cbn [advanceQ]. by rewrite decide_False, decide_True.
Qed.

(** A sum that starts higher ends as much higher. *)
Lemma advanceQ_shift delta target : forall rest bpm sum cur,
  advanceQ k rest bpm (sum + delta)%Qc cur target
  = let '(sum', bpm', rest') := advanceQ k rest bpm sum cur target in
    ((sum' + delta)%Qc, bpm', rest').
Proof.
  induction rest as [|[s b] rest IH]; intros bpm sum cur.
  - destruct (decide (cur = target)) as [->|Hne].
    + by rewrite !advanceQ_done.
    + rewrite !advanceQ_nil by done. f_equal. f_equal. ring.
  - destruct (decide (cur = target)) as [->|Hne].
    + by rewrite !advanceQ_done.
    + destruct (decide (s < target)%Qc) as [Hlt|Hge].
      * rewrite !advanceQ_next by done. rewrite <- IH. f_equal. ring.
      * rewrite !advanceQ_stay by done. f_equal. f_equal. ring.
Qed.

Lemma Qclt_neq (x y : Qc) : (x < y)%Qc -> x <> y.
Proof. apply Qclt_not_eq. Qed.

Lemma Qcle_neq_lt (x y : Qc) : (x <= y)%Qc -> x <> y -> (x < y)%Qc.
Proof.
  intros Hle Hne. destruct (Qcle_lt_or_eq _ _ Hle) as [H|H]; [exact H|done].
Qed.

(** Going to [A] and on to [B] is going to [B]. *)
Lemma advanceQ_split A B w0 : (A <= B)%Qc ->
  forall rest bpm sum c, (c <= A)%Qc ->
  let '(sum1, bpm1, rest1) := advanceQ k rest bpm sum c A in
  let '(w, bpm2, rest2) := advanceQ k rest1 bpm1 w0 A B in
  advanceQ k rest bpm sum c B = ((sum1 + w - w0)%Qc, bpm2, rest2).
Proof.
  intros HAB.
  assert (forall rest bpm sum,
            let '(w, bpm2, rest2) := advanceQ k rest bpm w0 A B in
            advanceQ k rest bpm sum A B = ((sum + w - w0)%Qc, bpm2, rest2))
    as Hfrom.
  { intros rest bpm sum.
    replace (advanceQ k rest bpm sum A B)
      with (advanceQ k rest bpm (w0 + (sum - w0))%Qc A B)
      by (f_equal; ring).
    rewrite advanceQ_shift.
    destruct (advanceQ k rest bpm w0 A B) as [[w b2] r2]. f_equal. f_equal. ring. }
  induction rest as [|[s b] rest IH]; intros bpm sum c HcA.
  - destruct (decide (c = A)) as [->|Hne].
    { rewrite advanceQ_done. apply Hfrom. }
    pose proof (Qcle_neq_lt _ _ HcA Hne) as Hlt.
    rewrite (advanceQ_nil bpm sum c A) by done.
    destruct (decide (A = B)) as [->|HneB].
    + rewrite advanceQ_done, advanceQ_nil by done. f_equal. f_equal. ring.
    + rewrite !advanceQ_nil; try done.
      * f_equal. f_equal. ring.
      * apply Qclt_neq. eapply Qclt_le_trans; eassumption.
  - destruct (decide (c = A)) as [->|Hne].
    { rewrite advanceQ_done. apply Hfrom. }
    pose proof (Qcle_neq_lt _ _ HcA Hne) as Hlt.
    assert (c <> B) as HcB
      by (apply Qclt_neq; eapply Qclt_le_trans; eassumption).
    destruct (decide (s < A)%Qc) as [HsA|HsA].
    + rewrite (advanceQ_next s b rest bpm sum c A) by done.
      rewrite (advanceQ_next s b rest bpm sum c B);
        [|done|eapply Qclt_le_trans; eassumption].
      apply IH. by apply Qclt_le_weak.
    + rewrite (advanceQ_stay s b rest bpm sum c A) by done.
      destruct (decide (A = B)) as [->|HneB].
      * rewrite advanceQ_done, advanceQ_stay by done. f_equal. f_equal. ring.
      * destruct (decide (s < B)%Qc) as [HsB|HsB].
        -- rewrite !advanceQ_next by done.
           destruct (advanceQ k rest b (w0 + (s - A) * rateQ k bpm)%Qc s B)
             as [[w b2] r2] eqn:E.
           replace (sum + (s - c) * rateQ k bpm)%Qc
             with (w0 + (s - A) * rateQ k bpm
                   + (sum + (A - c) * rateQ k bpm - w0))%Qc by ring.
           rewrite (advanceQ_shift (sum + (A - c) * rateQ k bpm - w0)%Qc B rest b
                      (w0 + (s - A) * rateQ k bpm)%Qc s), E.
           f_equal. f_equal. ring.
        -- rewrite !advanceQ_stay by done. f_equal. f_equal. ring.
Qed.

End AdvanceQ.

Section Ends.

Variable settings : MidiCustomSettings.
Variable bpmMap : list BPM.

(** Towards a number the loop ends within its fuel. *)
Lemma advance_while_ends target : target <> JS.NaN ->
  forall fuel s, (length bpmMap - av_bpmIndex s + 2 <= fuel)%nat ->
  is_Some (advance_while fuel settings bpmMap target s).
Proof.
  intros Ht. induction fuel as [|fuel IH]; intros s Hfuel; [lia|].
  cbn [advance_while].
  destruct (JS.strictEq (av_currentSecond s) target); [by eexists|].
  destruct (bpmMap !! av_bpmIndex s) as [b|] eqn:Hb; [|by eexists].
  assert (is_Some (advance_while fuel settings bpmMap target
                     (mkAdvance
                        (av_sum s + deltaPosition settings (bpm_bpm b)
                                      (target - av_currentSecond s))%js
                        target (av_bpmIndex s)))) as Hstay.
  { destruct fuel as [|fuel']; [lia|]. cbn [advance_while av_currentSecond].
    rewrite strictEq_refl by done. by eexists. }
  destruct (bpmMap !! (av_bpmIndex s + 1)%nat) as [next|] eqn:Hn; [|exact Hstay].
  destruct (JS.lt (bpm_second next) target); [|exact Hstay].
  apply IH. cbn [av_bpmIndex]. apply lookup_lt_Some in Hn. lia.
Qed.

(** Towards [NaN] it never ends. *)
Lemma advance_while_NaN : forall fuel s,
  is_Some (bpmMap !! av_bpmIndex s) ->
  advance_while fuel settings bpmMap JS.NaN s = None.
Proof.
  induction fuel as [|fuel IH]; intros s [b Hb]; [reflexivity|].
  cbn [advance_while].
  assert (JS.strictEq (av_currentSecond s) JS.NaN = false) as ->
    by (by destruct (av_currentSecond s)).
  rewrite Hb.
  assert (forall x, JS.lt x JS.NaN = false) as Hlt by (by intros [| |]).
  destruct (bpmMap !! (av_bpmIndex s + 1)%nat) as [next|];
    rewrite ?Hlt; apply IH; cbn [av_bpmIndex]; by eexists.
Qed.

End Ends.

(** X16.  The end of the two loops of [getXPositionAndWidthOfNote].  For
    a note whose start and whose end, start plus duration, are numbers,
    both loops come to their end, with a result or with a [TypeError].
    For a start that is [NaN] the first loop, under the speed based on
    the BPM and over a map that is not empty, never ends: no number of
    turns brings [currentSecond != startTime] to false. *)
Theorem getXPositionAndWidthOfNote_ends :
  (forall settings startTime noteDur bpmMap,
     startTime <> JS.NaN -> (startTime + noteDur)%js <> JS.NaN ->
     is_Some (getXPositionAndWidthOfNote settings startTime noteDur bpmMap))
  /\ (forall settings noteDur bpmMap,
        bpmBasedSpeed settings = true -> bpmMap <> [] ->
        (forall fuel,
           advance_while fuel settings bpmMap JS.NaN
             (mkAdvance (JS.ofZ 0) (JS.ofZ 0) 0%nat) = None)
        /\ getXPositionAndWidthOfNote settings JS.NaN noteDur bpmMap = None).
Proof.
  split.
  - intros settings startTime noteDur bpmMap Hs He.
    unfold getXPositionAndWidthOfNote.
    destruct (bpmBasedSpeed settings); [|by eexists].
    destruct (advance_while_ends settings bpmMap startTime Hs
                (advanceFuel bpmMap) (mkAdvance (JS.ofZ 0) (JS.ofZ 0) 0%nat))
      as [[s1|] ->]; [unfold advanceFuel; cbn; lia| |by eexists].
    cbn [lbind].
    destruct (advance_while_ends settings bpmMap (startTime + noteDur)%js He
                (advanceFuel bpmMap)
                (mkAdvance (JS.ofZ 0) (av_currentSecond s1) (av_bpmIndex s1)))
      as [[s2|] ->]; [unfold advanceFuel; cbn; lia|by eexists..].
  - intros settings noteDur bpmMap Hb Hne.
    assert (forall fuel,
              advance_while fuel settings bpmMap JS.NaN
                (mkAdvance (JS.ofZ 0) (JS.ofZ 0) 0%nat) = None) as Hnever.
    { intros fuel. apply advance_while_NaN. cbn [av_bpmIndex].
      destruct bpmMap; [done|by eexists]. }
    split; [exact Hnever|].
    unfold getXPositionAndWidthOfNote. by rewrite Hb, Hnever.
Qed.

Lemma advance_while_empty fuel settings target s :
  advance_while (S fuel) settings [] target s
  = if JS.strictEq (av_currentSecond s) target then Some (Returns s)
    else Some TypeError.
Proof. reflexivity. Qed.

(** X17.  A file without a tempo event cannot be laid out by BPM.  Its
    tempo map is empty, so [createBpmMap] returns an empty map; over an
    empty map, with the speed based on the BPM, placing a note of a
    duration other than 0 throws, at [bpmMap[bpmIndex].bpm], and so does
    [addScrollerKeyframes], whatever the last note. *)
Theorem empty_bpmMap_throws (m : MidiFile) (thr : Threshold) (d : Z)
    (canceledAt : nat -> bool) (settings : MidiCustomSettings)
    (startTime noteDur : Qc) :
  tempoMap m = [] -> countDecimals thr = Returns d ->
  bpmBasedSpeed settings = true -> noteDur <> 0%Qc ->
  createBpmMap m thr canceledAt = Returns []
  /\ getXPositionAndWidthOfNote settings (JS.Fin startTime) (JS.Fin noteDur) []
     = Some TypeError
  /\ forall compHeight latestMidiNote canceled,
       addScrollerKeyframes settings compHeight [] latestMidiNote canceled
       = Some TypeError.
Proof.
  intros Htm Hd Hb Hdur. split; [|split; [|reflexivity]].
  - unfold createBpmMap. rewrite Hd, Htm. reflexivity.
  - unfold getXPositionAndWidthOfNote. rewrite Hb.
    unfold advanceFuel. rewrite !advance_while_empty.
    change (JS.ofZ 0) with (JS.Fin (Qc_of_Z 0)).
    cbn [av_currentSecond]. rewrite strictEq_Fin.
    destruct (bool_decide_reflect (Qc_of_Z 0 = startTime)) as [<-|Hne];
      [|reflexivity].
    cbn [lbind av_currentSecond av_bpmIndex JS.add].
    rewrite advance_while_empty. cbn [av_currentSecond].
    rewrite strictEq_Fin, bool_decide_eq_false_2; [reflexivity|].
    intros H. apply Hdur.
    replace noteDur with (Qc_of_Z 0 + noteDur - Qc_of_Z 0)%Qc by ring.
    rewrite <- H. ring.
Qed.

Lemma empty_bpmMap_throws_witness :
  createBpmMap oneTrackObject threshold05 (fun _ => false) = Returns []
  /\ getXPositionAndWidthOfNote new_MidiCustomSettings (JS.Fin (Qc_of_Z 1))
       (JS.Fin (Qc_of_Z 2)) []
     = Some TypeError.
Proof.
  destruct (empty_bpmMap_throws oneTrackObject threshold05 1 (fun _ => false)
              new_MidiCustomSettings (Qc_of_Z 1) (Qc_of_Z 2))
    as (H1 & H2 & _); try reflexivity; [discriminate|].
  by split.
Defined.

Section Layout.

Variable settings : MidiCustomSettings.
Variables o k : Qc.
Hypothesis bpmBased : bpmBasedSpeed settings = true.
Hypothesis offset_finite : noteHitXOffset settings = JS.Fin o.
Hypothesis speed_finite : speedPerSecond settings = JS.Fin k.

(** On a finite map the function is two runs of [advanceQ]. *)
Lemma getXPositionAndWidthOfNote_Q bpmMap s0 bpm0 rest startTime noteDur :
  finiteMap bpmMap ((s0, bpm0) :: rest) ->
  let '(sum1, bpm1, rest1) :=
    advanceQ k rest bpm0 (Qc_of_Z 0) (Qc_of_Z 0) startTime in
  let '(w, _, _) :=
    advanceQ k rest1 bpm1 (Qc_of_Z 0) startTime (startTime + noteDur)%Qc in
  getXPositionAndWidthOfNote settings (JS.Fin startTime) (JS.Fin noteDur) bpmMap
  = Some (Returns (JS.Fin (o + sum1)%Qc, JS.Fin w)).
Proof.
  intros Hf. pose proof (Forall2_length _ _ _ Hf) as Hlen. cbn in Hlen.
  unfold getXPositionAndWidthOfNote. rewrite bpmBased.
  destruct (advance_while_Q settings k speed_finite bpmMap _ startTime Hf
              rest [] s0 bpm0 (Qc_of_Z 0) (Qc_of_Z 0) (advanceFuel bpmMap)
              eq_refl) as (done1 & si1 & H1);
    [unfold advanceFuel; lia|].
  destruct (advanceQ k rest bpm0 (Qc_of_Z 0) (Qc_of_Z 0) startTime)
    as [[sum1 bpm1] rest1].
  destruct H1 as [Hqs1 H1].
  change (mkAdvance (JS.ofZ 0) (JS.ofZ 0) 0%nat)
    with (mkAdvance (JS.Fin (Qc_of_Z 0)) (JS.Fin (Qc_of_Z 0))
            (length (@nil (Qc * Qc)))).
  rewrite H1. cbn [lbind av_currentSecond av_bpmIndex av_sum JS.add].
  destruct (advance_while_Q settings k speed_finite bpmMap _
              (startTime + noteDur)%Qc Hf
              rest1 done1 si1 bpm1 (Qc_of_Z 0) startTime (advanceFuel bpmMap)
              Hqs1) as (done2 & si2 & H2).
  { unfold advanceFuel. apply (f_equal length) in Hqs1.
    rewrite length_app in Hqs1. cbn in Hqs1. lia. }
  destruct (advanceQ k rest1 bpm1 (Qc_of_Z 0) startTime (startTime + noteDur)%Qc)
    as [[w bpm2] rest2].
  destruct H2 as [_ H2].
  change (JS.ofZ 0) with (JS.Fin (Qc_of_Z 0)).
  rewrite H2. cbn [lbind av_sum]. by rewrite offset_finite.
Qed.

End Layout.

Section Constant.

Variable k : Qc.

(** Without a change of tempo before the target the sum grows by the
    seconds times the rate. *)
Lemma advanceQ_constant rest bpm sum cur target :
  (forall e, head rest = Some e -> (target <= e.1)%Qc) ->
  advanceQ k rest bpm sum cur target
  = ((sum + (target - cur) * rateQ k bpm)%Qc, bpm, rest).
Proof.
  intros Hhead. destruct (decide (cur = target)) as [->|Hne].
  { rewrite advanceQ_done. f_equal. f_equal. ring. }
  destruct rest as [|[s b] rest].
  - by rewrite advanceQ_nil.
  - rewrite advanceQ_stay; [done..|].
    apply Qcle_not_lt. exact (Hhead (s, b) eq_refl).
Qed.

Lemma rateQ_120 : rateQ k (Qc_of_Z 120) = k.
Proof.
  unfold rateQ. field. intros H.
  pose proof (Qc_of_Z_pos 120 eq_refl) as Hpos. rewrite H in Hpos.
  by apply Qclt_not_eq in Hpos.
Qed.

End Constant.

(** X19.  At a constant tempo the layout is linear.  Under the speed
    based on the BPM, when no entry of the BPM map after the first lies
    before the end of the note, the note is placed at [noteHitXOffset]
    plus its start times the rate, and its width is the rate times the
    seconds from its start to its end, [(startTime + noteDur) -
    startTime], where the rate is [speedPerSecond * (bpm / 120)] at the
    BPM of the first entry: the sums, differences, products and the
    quotient are those that the function takes.  At 120 BPM the rate is
    [speedPerSecond], and the position is that of the speed that is not
    based on the BPM, [noteHitXOffset + startTime * speedPerSecond], whose
    width is [noteDur * speedPerSecond]. *)
Theorem getXPositionAndWidthOfNote_linear (settings : MidiCustomSettings)
    (o k : Qc) (bpmMap : list BPM) (s0 bpm : Qc) (rest : list (Qc * Qc))
    (startTime noteDur : Qc) :
  noteHitXOffset settings = JS.Fin o -> speedPerSecond settings = JS.Fin k ->
  finiteMap bpmMap ((s0, bpm) :: rest) -> (0 <= noteDur)%Qc ->
  (forall e, head rest = Some e -> (startTime + noteDur <= e.1)%Qc) ->
  (bpmBasedSpeed settings = true ->
   getXPositionAndWidthOfNote settings (JS.Fin startTime) (JS.Fin noteDur) bpmMap
   = Some (Returns
             ((noteHitXOffset settings
               + JS.Fin startTime
                 * (speedPerSecond settings * (JS.Fin bpm / JS.ofZ 120)))%js,
              ((JS.Fin startTime + JS.Fin noteDur - JS.Fin startTime)
               * (speedPerSecond settings * (JS.Fin bpm / JS.ofZ 120)))%js)))
  /\ (bpmBasedSpeed settings = false ->
      getXPositionAndWidthOfNote settings (JS.Fin startTime) (JS.Fin noteDur) bpmMap
      = Some (Returns
                ((noteHitXOffset settings
                  + JS.Fin startTime * speedPerSecond settings)%js,
                 (JS.Fin noteDur * speedPerSecond settings)%js)))
  /\ (speedPerSecond settings * (JS.ofZ 120 / JS.ofZ 120))%js
     = speedPerSecond settings.
Proof.
  intros Ho Hk Hf Hd Hhead.
  assert (forall b : Qc,
            (JS.Fin k * (JS.Fin b / JS.ofZ 120))%js = JS.Fin (rateQ k b)) as Hrate.
  { intros b. unfold JS.ofZ, rateQ. cbn [JS.div]. rewrite isZero_120.
    reflexivity. }
  split; [|split].
  - intros Hb.
    pose proof (getXPositionAndWidthOfNote_Q settings o k Hb Ho Hk bpmMap s0 bpm
                  rest startTime noteDur Hf) as H.
    rewrite advanceQ_constant in H.
    2:{ intros e He. apply Qcle_trans with (startTime + noteDur)%Qc;
          [|by apply Hhead].
        replace startTime with (startTime + 0)%Qc at 1 by ring.
        by apply Qcplus_le_compat; [apply Qcle_refl|]. }
    rewrite advanceQ_constant in H by exact Hhead.
    rewrite H, Ho, Hk, Hrate. cbn [JS.add JS.sub JS.neg JS.mul].
    rewrite Z2Qc_inj_0.
    replace (o + (0 + (startTime - 0) * rateQ k bpm))%Qc
      with (o + startTime * rateQ k bpm)%Qc by ring.
    replace (0 + (startTime + noteDur - startTime) * rateQ k bpm)%Qc
      with ((startTime + noteDur + - startTime) * rateQ k bpm)%Qc by ring.
    reflexivity.
  - intros Hb. unfold getXPositionAndWidthOfNote. rewrite Hb. reflexivity.
  - rewrite Hk. change (JS.ofZ 120) with (JS.Fin (Qc_of_Z 120)).
    rewrite Hrate, rateQ_120. reflexivity.
Qed.

Lemma getXPositionAndWidthOfNote_linear_witness :
  getXPositionAndWidthOfNote new_MidiCustomSettings (JS.Fin (Qc_of_Z 1))
    (JS.Fin (Qc_of_Z 1))
    [mkBPM (JS.ofZ 0) (JS.ofZ 60) None; mkBPM (JS.ofZ 2) (JS.ofZ 120) None]
  = Some (Returns
            ((JS.ofZ 128
              + JS.Fin (Qc_of_Z 1) * (JS.ofZ 192 * (JS.ofZ 60 / JS.ofZ 120)))%js,
             ((JS.Fin (Qc_of_Z 1) + JS.Fin (Qc_of_Z 1) - JS.Fin (Qc_of_Z 1))
              * (JS.ofZ 192 * (JS.ofZ 60 / JS.ofZ 120)))%js)).
Proof.
  apply (getXPositionAndWidthOfNote_linear new_MidiCustomSettings
           (Qc_of_Z 128) (Qc_of_Z 192)
           [mkBPM (JS.ofZ 0) (JS.ofZ 60) None; mkBPM (JS.ofZ 2) (JS.ofZ 120) None]
           (Qc_of_Z 0) (Qc_of_Z 60) [(Qc_of_Z 2, Qc_of_Z 120)]).
  - reflexivity.
  - reflexivity.
  - repeat constructor.
  - by vm_compute.
  - intros e He. injection He as <-. by vm_compute.
  - reflexivity.
Defined.

(* ================================================================== *)
(** * The keys: [getYPositionAndHeightOfKey] and [isBlackNote]         *)
(* ================================================================== *)

Section Keys.

Variable settings : MidiCustomSettings.
Variables w b : Qc.
Hypothesis white_finite : whiteNoteSize settings = JS.Fin w.
Hypothesis black_finite : blackNoteSize settings = JS.Fin b.

Lemma residue_cases i : 0 <= i ->
  i mod 12 = 0 \/ i mod 12 = 1 \/ i mod 12 = 2 \/ i mod 12 = 3
  \/ i mod 12 = 4 \/ i mod 12 = 5 \/ i mod 12 = 6 \/ i mod 12 = 7
  \/ i mod 12 = 8 \/ i mod 12 = 9 \/ i mod 12 = 10 \/ i mod 12 = 11.
Proof. intros Hi. pose proof (Z.mod_pos_bound i 12). lia. Qed.

(** One turn of the loop: a white key next to a white key is a white
    size further, every other key half a white and half a black size. *)
Lemma keyStep_rem i x : 0 <= i ->
  keyStep settings i (JS.Fin x)
  = JS.Fin (x + (if (i mod 12 =? 0) || (i mod 12 =? 5) then w
                 else w / Qc_of_Z 2 + b / Qc_of_Z 2))%Qc.
Proof.
  intros Hi. unfold keyStep. rewrite Z.rem_mod_nonneg by lia.
  rewrite white_finite, black_finite.
  destruct (residue_cases i Hi)
    as [H|[H|[H|[H|[H|[H|[H|[H|[H|[H|[H|H]]]]]]]]]]];
    rewrite H; cbn [Z.eqb Pos.eqb orb JS.add JS.div JS.ofZ];
    rewrite ?isZero_two; cbn [JS.add];
    try reflexivity; apply (f_equal JS.Fin); ring.
Qed.

Lemma keyPosition_for_S fuel pitch i position :
  keyPosition_for (S fuel) settings pitch i position
  = if i <=? pitch
    then keyPosition_for fuel settings pitch (i + 1)
           (keyStep settings i position)
    else position.
Proof. reflexivity. Qed.

(** The loop adds to the position what it adds to 0. *)
Lemma keyPosition_for_Fin pitch : forall fuel i, 0 <= i ->
  exists y, forall x,
    keyPosition_for fuel settings pitch i (JS.Fin x) = JS.Fin (x + y)%Qc.
Proof.
  induction fuel as [|fuel IH]; intros i Hi.
  - exists 0%Qc. intros x. cbn. apply (f_equal JS.Fin). ring.
  - destruct (IH (i + 1) ltac:(lia)) as [y Hy].
    destruct (Z.leb_spec i pitch) as [Hle|Hgt].
    + eexists. intros x. rewrite keyPosition_for_S.
      rewrite (proj2 (Z.leb_le i pitch) Hle), keyStep_rem, Hy by done.
      apply (f_equal JS.Fin). rewrite <- Qcplus_assoc. reflexivity.
    + exists 0%Qc. intros x. rewrite keyPosition_for_S.
      rewrite (proj2 (Z.leb_gt i pitch) Hgt).
      apply (f_equal JS.Fin). ring.
Qed.

Lemma Qc_2 : Qc_of_Z 2 = (1 + 1)%Qc.
Proof. by apply Qc_is_canon. Qed.

Lemma Qc_5 : Qc_of_Z 5 = (1 + 1 + 1 + 1 + 1)%Qc.
Proof. by apply Qc_is_canon. Qed.

Lemma Qc_7 : Qc_of_Z 7 = (1 + 1 + 1 + 1 + 1 + 1 + 1)%Qc.
Proof. by apply Qc_is_canon. Qed.

(** Twelve keys from a key on: seven white and five black sizes. *)
Lemma keyPosition_for_octave i x : 0 <= i ->
  keyPosition_for 12 settings (i + 11) i (JS.Fin x)
  = JS.Fin (x + (Qc_of_Z 7 * w + Qc_of_Z 5 * b))%Qc.
Proof.
  intros Hi.
  do 12 (rewrite keyPosition_for_S;
         match goal with
         | |- context [?a <=? ?c] =>
             rewrite (proj2 (Z.leb_le a c)) by lia
         end;
         rewrite keyStep_rem by lia).
  cbn [keyPosition_for].
  destruct (residue_cases i Hi)
    as [H|[H|[H|[H|[H|[H|[H|[H|[H|[H|[H|H]]]]]]]]]]];
    repeat match goal with
      | |- context [(?e mod 12 =? 0) || (?e mod 12 =? 5)] =>
          let E := fresh in
          first
            [ assert (e mod 12 = 0) as E by (Z.div_mod_to_equations; lia)
            | assert (e mod 12 = 1) as E by (Z.div_mod_to_equations; lia)
            | assert (e mod 12 = 2) as E by (Z.div_mod_to_equations; lia)
            | assert (e mod 12 = 3) as E by (Z.div_mod_to_equations; lia)
            | assert (e mod 12 = 4) as E by (Z.div_mod_to_equations; lia)
            | assert (e mod 12 = 5) as E by (Z.div_mod_to_equations; lia)
            | assert (e mod 12 = 6) as E by (Z.div_mod_to_equations; lia)
            | assert (e mod 12 = 7) as E by (Z.div_mod_to_equations; lia)
            | assert (e mod 12 = 8) as E by (Z.div_mod_to_equations; lia)
            | assert (e mod 12 = 9) as E by (Z.div_mod_to_equations; lia)
            | assert (e mod 12 = 10) as E by (Z.div_mod_to_equations; lia)
            | assert (e mod 12 = 11) as E by (Z.div_mod_to_equations; lia) ];
          rewrite E; clear E; cbn [Z.eqb Pos.eqb orb]
      end;
    apply (f_equal JS.Fin); rewrite Qc_7, Qc_5, Qc_2; field; discriminate.
Qed.

(** The loop up to [q] is the loop up to [p] and the loop from the key
    above [p] on. *)
Lemma keyPosition_for_split p q : p <= q ->
  forall n i x, p - i + 1 = Z.of_nat n ->
  keyPosition_for (Z.to_nat (q - i + 1)) settings q i x
  = keyPosition_for (Z.to_nat (q - p)) settings q (p + 1)
      (keyPosition_for n settings p i x).
Proof.
  intros Hpq. induction n as [|n IH]; intros i x Hn.
  - cbn [keyPosition_for]. do 2 f_equal; lia.
  - replace (Z.to_nat (q - i + 1)) with (S (Z.to_nat (q - (i + 1) + 1))) by lia.
    rewrite !keyPosition_for_S.
    rewrite (proj2 (Z.leb_le i q)), (proj2 (Z.leb_le i p)) by lia.
    apply IH. lia.
Qed.

End Keys.

Section Halves.

Lemma Qc_add_pos (x y : Qc) : (0 < x)%Qc -> (0 <= y)%Qc -> (0 < x + y)%Qc.
Proof.
  intros Hx Hy. apply Qcle_lt_trans with (0 + y)%Qc.
  - by rewrite Qcplus_0_l.
  - apply Qclt_minus_iff.
    replace (x + y + - (0 + y))%Qc with x by ring. exact Hx.
Qed.

Lemma Qc_add_le (x y : Qc) : (0 <= y)%Qc -> (x <= x + y)%Qc.
Proof.
  intros Hy. replace x with (x + 0)%Qc at 1 by ring.
  by apply Qcplus_le_compat; [apply Qcle_refl|].
Qed.

Lemma Qc_add_lt (x y : Qc) : (0 < y)%Qc -> (x < x + y)%Qc.
Proof.
  intros Hy. apply Qclt_minus_iff.
  replace (x + y + - x)%Qc with y by ring. exact Hy.
Qed.

Lemma Qc_half_double (x : Qc) : x = (x / Qc_of_Z 2 + x / Qc_of_Z 2)%Qc.
Proof. rewrite Qc_2. field. discriminate. Qed.

Lemma Qc_half_pos (x : Qc) : (0 < x)%Qc -> (0 < x / Qc_of_Z 2)%Qc.
Proof.
  intros Hx. apply Qcnot_le_lt. intros Hle.
  apply (Qclt_not_le _ _ Hx). rewrite (Qc_half_double x).
  replace 0%Qc with (0 + 0)%Qc by ring. by apply Qcplus_le_compat.
Qed.

Lemma Qc_half_nonneg (x : Qc) : (0 <= x)%Qc -> (0 <= x / Qc_of_Z 2)%Qc.
Proof.
  intros Hx. destruct (Qcle_lt_or_eq _ _ Hx) as [Hlt|<-].
  - by apply Qclt_le_weak, Qc_half_pos.
  - replace (0 / Qc_of_Z 2)%Qc with 0%Qc; [apply Qcle_refl|].
    rewrite Qc_2. field. discriminate.
Qed.

End Halves.

Section KeysRise.

Variable settings : MidiCustomSettings.
Variables w b : Qc.
Hypothesis white_finite : whiteNoteSize settings = JS.Fin w.
Hypothesis black_finite : blackNoteSize settings = JS.Fin b.
Hypothesis white_pos : (0 < w)%Qc.
Hypothesis black_nonneg : (0 <= b)%Qc.

Lemma keyGap_pos (white : bool) :
  (0 < (if white then w else w / Qc_of_Z 2 + b / Qc_of_Z 2))%Qc.
Proof.
  destruct white; [exact white_pos|].
  apply Qc_add_pos; [by apply Qc_half_pos|by apply Qc_half_nonneg].
Qed.

(** With sizes above 0 every turn of the loop raises the position. *)
Lemma keyPosition_for_rises pitch : forall fuel i, 0 <= i ->
  exists y, (0 <= y)%Qc
    /\ ((0 < fuel)%nat -> i <= pitch -> (0 < y)%Qc)
    /\ forall x,
         keyPosition_for fuel settings pitch i (JS.Fin x) = JS.Fin (x + y)%Qc.
Proof.
  induction fuel as [|fuel IH]; intros i Hi.
  - exists 0%Qc. split; [apply Qcle_refl|]. split; [lia|].
    intros x. cbn. apply (f_equal JS.Fin). ring.
  - destruct (IH (i + 1) ltac:(lia)) as (y & Hy0 & _ & Hy).
    destruct (Z.leb_spec i pitch) as [Hle|Hgt].
    + eexists. split; [|split].
      2:{ intros _ _. apply Qc_add_pos; [apply keyGap_pos|exact Hy0]. }
      { apply Qclt_le_weak, Qc_add_pos; [apply keyGap_pos|exact Hy0]. }
      intros x. rewrite keyPosition_for_S.
      rewrite (proj2 (Z.leb_le i pitch) Hle).
      rewrite (keyStep_rem settings w b) by done. rewrite Hy.
      apply (f_equal JS.Fin). rewrite <- Qcplus_assoc. reflexivity.
    + exists 0%Qc. split; [apply Qcle_refl|]. split; [lia|].
      intros x. rewrite keyPosition_for_S.
      rewrite (proj2 (Z.leb_gt i pitch) Hgt).
      apply (f_equal JS.Fin). ring.
Qed.

End KeysRise.

(** X20.  The keyboard repeats every octave.  With sizes that are finite
    numbers and a bottom threshold [bottom >= 0], for a pitch [p >= 0]
    that is at the threshold or above it, or the key just below it, the
    key an octave higher has the same height and lies seven white and
    five black sizes further. *)
Theorem getYPositionAndHeightOfKey_octave (settings : MidiCustomSettings)
    (w b : Qc) (bottom p : Z) :
  whiteNoteSize settings = JS.Fin w -> blackNoteSize settings = JS.Fin b ->
  pitchBottomThreshold settings = Some bottom ->
  0 <= bottom -> 0 <= p -> bottom <= p + 1 ->
  exists y h,
    getYPositionAndHeightOfKey settings (Some p) = (JS.Fin y, h)
    /\ getYPositionAndHeightOfKey settings (Some (p + 12))
       = (JS.Fin (y + (Qc_of_Z 7 * w + Qc_of_Z 5 * b))%Qc, h).
Proof.
  intros Hw Hb Hbt Hbottom Hp Hle.
  unfold getYPositionAndHeightOfKey. rewrite Hbt.
  destruct (keyPosition_for_Fin settings w b Hw Hb p
              (Z.to_nat (p - bottom + 1)) bottom Hbottom) as [y Hy].
  exists (Qc_of_Z 0 + y)%Qc, (keyHeight settings p). split.
  - change (JS.ofZ 0) with (JS.Fin (Qc_of_Z 0)). by rewrite Hy.
  - rewrite (keyPosition_for_split settings p (p + 12) ltac:(lia)
               (Z.to_nat (p - bottom + 1)) bottom) by lia.
    change (JS.ofZ 0) with (JS.Fin (Qc_of_Z 0)). rewrite Hy.
    replace (Z.to_nat (p + 12 - p)) with 12%nat by lia.
    replace (p + 12) with (p + 1 + 11) by lia.
    rewrite (keyPosition_for_octave settings w b Hw Hb) by lia.
    f_equal. unfold keyHeight.
    rewrite !Z.rem_mod_nonneg by lia.
    replace (p + 1 + 11) with (p + 1 * 12) by lia.
    by rewrite Z_mod_plus_full.
Qed.

Lemma getYPositionAndHeightOfKey_octave_witness :
  exists y h,
    getYPositionAndHeightOfKey new_MidiCustomSettings (Some 60) = (JS.Fin y, h)
    /\ getYPositionAndHeightOfKey new_MidiCustomSettings (Some (60 + 12))
       = (JS.Fin (y + (Qc_of_Z 7 * Qc_of_Z 10 + Qc_of_Z 5 * Qc_of_Z 6))%Qc, h).
Proof.
  apply (getYPositionAndHeightOfKey_octave new_MidiCustomSettings
           (Qc_of_Z 10) (Qc_of_Z 6) 21 60); try reflexivity; lia.
Defined.

(** X21.  Higher keys lie higher.  With a white size above 0, a black
    size of 0 or more and a bottom threshold [bottom >= 0], of two
    pitches the higher one, when it is at the threshold or above it, has
    the greater position; a pitch below the threshold has position 0. *)
Theorem getYPositionAndHeightOfKey_rises (settings : MidiCustomSettings)
    (w b : Qc) (bottom p q : Z) :
  whiteNoteSize settings = JS.Fin w -> blackNoteSize settings = JS.Fin b ->
  (0 < w)%Qc -> (0 <= b)%Qc ->
  pitchBottomThreshold settings = Some bottom -> 0 <= bottom ->
  p < q -> bottom <= q ->
  exists y y',
    (getYPositionAndHeightOfKey settings (Some p)).1 = JS.Fin y
    /\ (getYPositionAndHeightOfKey settings (Some q)).1 = JS.Fin y'
    /\ (y < y')%Qc
    /\ (p < bottom -> y = 0%Qc).
Proof.
  intros Hw Hb Hwpos Hbpos Hbt Hbottom Hpq Hq.
  unfold getYPositionAndHeightOfKey. rewrite Hbt. cbn [fst].
  change (JS.ofZ 0) with (JS.Fin (Qc_of_Z 0)).
  destruct (Z.lt_ge_cases p bottom) as [Hlow|Hhigh].
  - replace (Z.to_nat (p - bottom + 1)) with 0%nat by lia.
    cbn [keyPosition_for].
    destruct (keyPosition_for_rises settings w b Hw Hb Hwpos Hbpos q
                (Z.to_nat (q - bottom + 1)) bottom Hbottom)
      as (y' & _ & Hpos & Hy').
    exists (Qc_of_Z 0), (Qc_of_Z 0 + y')%Qc.
    split; [reflexivity|]. split; [apply Hy'|].
    split; [|by rewrite Z2Qc_inj_0].
    apply Qc_add_lt, Hpos; lia.
  - destruct (keyPosition_for_rises settings w b Hw Hb Hwpos Hbpos p
                (Z.to_nat (p - bottom + 1)) bottom Hbottom)
      as (y & _ & _ & Hy).
    destruct (keyPosition_for_rises settings w b Hw Hb Hwpos Hbpos q
                (Z.to_nat (q - p)) (p + 1) ltac:(lia))
      as (d & _ & Hpos & Hd).
    exists (Qc_of_Z 0 + y)%Qc, (Qc_of_Z 0 + y + d)%Qc.
    split; [apply Hy|]. split.
    + rewrite (keyPosition_for_split settings p q ltac:(lia)
                 (Z.to_nat (p - bottom + 1)) bottom) by lia.
      by rewrite Hy, Hd.
    + split; [|lia]. apply Qc_add_lt, Hpos; lia.
Qed.

Lemma getYPositionAndHeightOfKey_rises_witness :
  exists y y',
    (getYPositionAndHeightOfKey new_MidiCustomSettings (Some 20)).1 = JS.Fin y
    /\ (getYPositionAndHeightOfKey new_MidiCustomSettings (Some 21)).1 = JS.Fin y'
    /\ (y < y')%Qc
    /\ (20 < 21 -> y = 0%Qc).
Proof.
  apply (getYPositionAndHeightOfKey_rises new_MidiCustomSettings
           (Qc_of_Z 10) (Qc_of_Z 6) 21 20 21); try reflexivity; try lia;
    by vm_compute.
Defined.

(** X22.  The height follows the colour.  For a pitch [p >= 0]
    [isBlackNote] is defined, and the height of the key is the black
    size when it is true and the white size when it is false; the black
    notes are those whose pitch is 1, 3, 6, 8 or 10 modulo 12.  For a
    pitch that was read past the end of the file [isBlackNote] is
    undefined and the key has position 0 and height 0. *)
Theorem isBlackNote_height (settings : MidiCustomSettings) :
  (forall p, 0 <= p ->
     exists black,
       isBlackNote (Some p) = Some black
       /\ (getYPositionAndHeightOfKey settings (Some p)).2
          = (if black then blackNoteSize settings else whiteNoteSize settings)
       /\ (black = true <-> p mod 12 = 1 \/ p mod 12 = 3 \/ p mod 12 = 6
                            \/ p mod 12 = 8 \/ p mod 12 = 10))
  /\ isBlackNote None = None
  /\ getYPositionAndHeightOfKey settings None = (JS.ofZ 0, JS.ofZ 0).
Proof.
  split; [|by split].
  intros p Hp. unfold isBlackNote, getYPositionAndHeightOfKey, keyHeight.
  cbn [snd]. rewrite Z.rem_mod_nonneg by lia.
  destruct (residue_cases p Hp)
    as [H|[H|[H|[H|[H|[H|[H|[H|[H|[H|[H|H]]]]]]]]]]];
    rewrite H; eexists; (split; [reflexivity|]); (split; [reflexivity|]);
    split; intros; try discriminate; try lia; reflexivity.
Qed.

(* ================================================================== *)
(** * [addScrollerKeyframes]                                           *)
(* ================================================================== *)

Section Scroller.

Variable settings : MidiCustomSettings.
Variables o k : Qc.
Hypothesis bpmBased : bpmBasedSpeed settings = true.
Hypothesis offset_finite : noteHitXOffset settings = JS.Fin o.
Hypothesis speed_finite : speedPerSecond settings = JS.Fin k.

Variable compHeight : JS.number.
Variable bpmMap : list BPM.
Variables s0 bpm0 : Qc.
Variable rest0 : list (Qc * Qc).
Hypothesis map_finite : finiteMap bpmMap ((s0, bpm0) :: rest0).

Variable latest : Qc.
Variable canceledAt : nat -> bool.

Lemma Qc_minus_one : Qc_of_Z (-1) = (- (1))%Qc.
Proof. by apply Qc_is_canon. Qed.

(** A key frame whose x is minus the way of the notes up to its time
    is on the hit line. *)
Lemma onHitLine_Q t x y :
  (advanceQ k rest0 bpm0 (Qc_of_Z 0) (Qc_of_Z 0) t).1.1 = (- x)%Qc ->
  onHitLine settings bpmMap (mkKeyframe (JS.Fin t) (JS.Fin x) y).
Proof.
  intros Hsum. exists t, x. split; [reflexivity|]. split; [reflexivity|].
  pose proof (getXPositionAndWidthOfNote_Q settings o k bpmBased
                offset_finite speed_finite bpmMap s0 bpm0 rest0 t
                (Qc_of_Z 0) map_finite) as H.
  destruct (advanceQ k rest0 bpm0 (Qc_of_Z 0) (Qc_of_Z 0) t)
    as [[sum1 bpm1] rest1].
  cbn [fst] in Hsum. subst sum1.
  replace (t + Qc_of_Z 0)%Qc with t in H by (rewrite Z2Qc_inj_0; ring).
  rewrite advanceQ_done in H.
  change (JS.ofZ 0) with (JS.Fin (Qc_of_Z 0)).
  rewrite H, offset_finite. reflexivity.
Qed.

(** The last turn: the key frame at the last note. *)
Lemma scroller_last_turn cur pos bpm sum :
  sum = (- pos + (latest - cur) * rateQ k bpm)%Qc ->
  (pos + (latest - cur) * rateQ k bpm * Qc_of_Z (-1))%Qc = (- sum)%Qc.
Proof. intros ->. rewrite Qc_minus_one. ring. Qed.

Lemma scroller_while_aligned : forall rest done si bpm pos cur keys fuel turn,
  (s0, bpm0) :: rest0 = done ++ (si, bpm) :: rest ->
  (length rest + 2 <= fuel)%nat ->
  (cur < latest)%Qc ->
  Sorted Qclt (cur :: map fst rest) ->
  (forall T, (cur < T)%Qc ->
     advanceQ k rest0 bpm0 (Qc_of_Z 0) (Qc_of_Z 0) T
     = advanceQ k rest bpm (- pos)%Qc cur T) ->
  Forall (onHitLine settings bpmMap) keys ->
  exists s',
    scroller_while fuel settings compHeight bpmMap (JS.Fin latest)
      canceledAt turn
      (mkScroller (JS.Fin cur) (length done) (JS.Fin pos) keys)
    = Some (Returns s')
    /\ Forall (onHitLine settings bpmMap) (sc_keys s')
    /\ sc_keys s' <> []
    /\ ((forall n, canceledAt n = false) ->
        exists kf, last (sc_keys s') = Some kf
                   /\ kf_time kf = JS.Fin latest).
Proof.
  assert (forall (done : list (Qc * Qc)) si bpm rest pos cur keys fuel turn b,
            (s0, bpm0) :: rest0 = done ++ (si, bpm) :: rest ->
            bpmMap !! length done = Some b -> bpm_bpm b = JS.Fin bpm ->
            (1 <= fuel)%nat -> (cur < latest)%Qc ->
            (forall T, (cur < T)%Qc ->
               advanceQ k rest0 bpm0 (Qc_of_Z 0) (Qc_of_Z 0) T
               = advanceQ k rest bpm (- pos)%Qc cur T) ->
            (forall e, head rest = Some e -> ~ (e.1 < latest)%Qc) ->
            Forall (onHitLine settings bpmMap) keys ->
            let s' :=
              mkScroller (JS.Fin latest) (length done) (JS.Fin pos)
                (keys ++ [mkKeyframe (JS.Fin latest)
                            (JS.Fin pos
                             + deltaPosition settings (bpm_bpm b)
                                 (JS.Fin latest - JS.Fin cur)
                               * JS.ofZ (-1))%js
                            (compHeight / JS.ofZ 2)%js]) in
            (if canceledAt turn then Some (Returns s')
             else scroller_while fuel settings compHeight bpmMap
                    (JS.Fin latest) canceledAt (S turn) s')
            = Some (Returns s')
            /\ Forall (onHitLine settings bpmMap) (sc_keys s')
            /\ sc_keys s' <> []
            /\ ((forall n, canceledAt n = false) ->
                exists kf, last (sc_keys s') = Some kf
                           /\ kf_time kf = JS.Fin latest)) as Hstays.
  { intros done si bpm rest pos cur keys fuel turn b Hqs Hb Hbpm Hfuel Hcur
      Hinv Hhead Hkeys s'.
    split; [|split; [|split]].
    - destruct (canceledAt turn); [reflexivity|].
      destruct fuel as [|fuel]; [lia|].
      cbn [scroller_while s' sc_currentSecond].
      by rewrite strictEq_Fin, bool_decide_eq_true_2.
    - cbn [s' sc_keys]. apply Forall_app. split; [exact Hkeys|].
      apply Forall_singleton. rewrite Hbpm.
      rewrite (deltaPosition_Fin settings k) by exact speed_finite.
      cbn [JS.mul JS.add JS.ofZ]. apply onHitLine_Q.
      rewrite (Hinv latest Hcur).
      assert (cur <> latest) as Hne by (by apply Qclt_neq).
      rewrite (scroller_last_turn cur pos bpm _ eq_refl).
      rewrite Qcopp_involutive.
      destruct rest as [|[s b'] rest'].
      + by rewrite advanceQ_nil.
      + rewrite advanceQ_stay; [done..|]. exact (Hhead (s, b') eq_refl).
    - cbn [s' sc_keys]. intros H. by apply app_eq_nil in H as [_ H].
    - intros _. eexists. cbn [s' sc_keys]. rewrite last_snoc.
      split; reflexivity. }
  induction rest as [|[s b'] rest IH];
    intros done si bpm pos cur keys fuel turn Hqs Hfuel Hcur Hsorted Hinv Hkeys.
  - destruct fuel as [|fuel]; [cbn in Hfuel; lia|].
    cbn [scroller_while sc_currentSecond sc_bpmIndex sc_currentPosition sc_keys].
    rewrite strictEq_Fin, bool_decide_eq_false_2 by (by apply Qclt_neq).
    assert (((s0, bpm0) :: rest0) !! length done = Some (si, bpm)) as Hi
      by (rewrite Hqs; by apply list_lookup_middle).
    destruct (finiteMap_lookup _ _ _ _ map_finite Hi) as (e & He & _ & Hb).
    rewrite He.
    rewrite (finiteMap_lookup_None _ _ (length done + 1) map_finite).
    2:{ rewrite Hqs. apply lookup_ge_None. rewrite length_app. cbn. lia. }
    eexists. eapply Hstays; try eassumption; [cbn in Hfuel; lia|done].
  - destruct fuel as [|fuel]; [cbn in Hfuel; lia|].
    cbn [scroller_while sc_currentSecond sc_bpmIndex sc_currentPosition sc_keys].
    rewrite strictEq_Fin, bool_decide_eq_false_2 by (by apply Qclt_neq).
    assert (((s0, bpm0) :: rest0) !! length done = Some (si, bpm)) as Hi
      by (rewrite Hqs; by apply list_lookup_middle).
    destruct (finiteMap_lookup _ _ _ _ map_finite Hi) as (e & He & _ & Hb).
    rewrite He.
    assert (((s0, bpm0) :: rest0) !! (length done + 1)%nat = Some (s, b'))
      as Hi'.
    { rewrite Hqs. rewrite lookup_app_r by lia.
      by replace (length done + 1 - length done)%nat with 1%nat by lia. }
    destruct (finiteMap_lookup _ _ _ _ map_finite Hi') as (e' & -> & Hs' & Hb').
    cbn [fst snd] in Hs', Hb', Hb. rewrite Hs', lt_Fin.
    assert (cur < s)%Qc as Hcs.
    { apply Sorted_inv in Hsorted as [_ Hhd]. by apply HdRel_inv in Hhd. }
    destruct (bool_decide_reflect (s < latest)%Qc) as [Hlt|Hge].
    + rewrite Hb. rewrite (deltaPosition_Fin settings k) by exact speed_finite.
      cbn [JS.mul JS.add JS.ofZ].
      assert ((pos + (s - cur) * rateQ k bpm * Qc_of_Z (-1))%Qc
              = (- (- pos + (s - cur) * rateQ k bpm))%Qc) as Hpos
        by (rewrite Qc_minus_one; ring).
      assert (Forall (onHitLine settings bpmMap)
                (keys ++ [mkKeyframe (JS.Fin s)
                            (JS.Fin (pos + (s - cur) * rateQ k bpm
                                           * Qc_of_Z (-1))%Qc)
                            (compHeight / JS.ofZ 2)%js])) as Hkeys'.
      { apply Forall_app. split; [exact Hkeys|].
        apply Forall_singleton, onHitLine_Q.
        rewrite (Hinv s Hcs), advanceQ_stay;
          [|by apply Qclt_neq|apply Qcle_not_lt, Qcle_refl].
        cbn [fst]. by rewrite Hpos, Qcopp_involutive. }
      destruct (canceledAt turn) eqn:Hc.
      * eexists. split; [reflexivity|]. cbn [sc_keys].
        split; [exact Hkeys'|]. split.
        -- intros H. by apply app_eq_nil in H as [_ H].
        -- intros Hnever. by rewrite Hnever in Hc.
      * replace (length done + 1)%nat with (length (done ++ [(si, bpm)]))
          by (rewrite length_app; reflexivity).
        apply (IH (done ++ [(si, bpm)]) s b').
        -- by rewrite <- app_assoc.
        -- cbn in Hfuel. lia.
        -- exact Hlt.
        -- by apply Sorted_inv in Hsorted as [Hsorted _].
        -- intros T HT. rewrite Hinv by (by apply Qclt_trans with s).
           rewrite advanceQ_next;
             [|apply Qclt_neq; by apply Qclt_trans with s|exact HT].
           by rewrite Hpos, Qcopp_involutive.
        -- exact Hkeys'.
    + eexists.
      eapply Hstays; try eassumption; [cbn in Hfuel; lia|].
      intros e1 He1. injection He1 as <-. exact Hge.
Qed.

End Scroller.

(** X23.  The scroller brings every note to the hit line.  Under the
    speed based on the BPM, over a BPM map of finite numbers whose
    seconds after the first entry are above 0 and rise, and for a last
    note after second 0, [addScrollerKeyframes] ends without the alert,
    whenever the progress bar is canceled, and sets at least one key
    frame; at the time of each key frame a note that starts then has an
    x position that, with the x of the scroller, adds up to
    [noteHitXOffset]; when the progress bar is never canceled, the last
    key frame is at the last note. *)
Theorem addScrollerKeyframes_onHitLine (settings : MidiCustomSettings)
    (o k : Qc) (compHeight : JS.number) (bpmMap : list BPM) (s0 bpm0 : Qc)
    (rest : list (Qc * Qc)) (latest : Qc) (canceledAt : nat -> bool) :
  bpmBasedSpeed settings = true ->
  noteHitXOffset settings = JS.Fin o -> speedPerSecond settings = JS.Fin k ->
  finiteMap bpmMap ((s0, bpm0) :: rest) ->
  Sorted Qclt (0%Qc :: map fst rest) -> (0 < latest)%Qc ->
  exists keys,
    addScrollerKeyframes settings compHeight bpmMap (JS.Fin latest) canceledAt
    = Some (Returns (keys, false))
    /\ Forall (onHitLine settings bpmMap) keys
    /\ keys <> []
    /\ ((forall n, canceledAt n = false) ->
        exists kf, last keys = Some kf /\ kf_time kf = JS.Fin latest).
Proof.
  intros Hb Ho Hk Hf Hsorted Hlatest.
  unfold addScrollerKeyframes.
  pose proof (Forall2_length _ _ _ Hf) as Hlen. cbn in Hlen.
  destruct bpmMap as [|b0 bpmMap'] eqn:Hmap; [cbn in Hlen; lia|].
  cbn [lookup list_lookup]. rewrite <- Hmap in *.
  destruct (scroller_while_aligned settings o k Hb Ho Hk compHeight bpmMap
              s0 bpm0 rest Hf latest canceledAt rest [] s0 bpm0
              (Qc_of_Z 0) (Qc_of_Z 0) [] (advanceFuel bpmMap) 0%nat)
    as (s' & Hrun & Hkeys & Hne & Hlast).
  - reflexivity.
  - unfold advanceFuel. lia.
  - by rewrite Z2Qc_inj_0.
  - by rewrite Z2Qc_inj_0.
  - intros T _. f_equal. rewrite Z2Qc_inj_0. ring.
  - constructor.
  - exists (sc_keys s').
    change (mkScroller (JS.ofZ 0) 0%nat (JS.ofZ 0) [])
      with (mkScroller (JS.Fin (Qc_of_Z 0)) (length (@nil (Qc * Qc)))
              (JS.Fin (Qc_of_Z 0)) []).
    rewrite Hrun. cbn [lbind].
    change (JS.ofZ 0) with (JS.Fin (Qc_of_Z 0)).
    rewrite strictEq_Fin, bool_decide_eq_false_2.
    + by repeat split.
    + rewrite Z2Qc_inj_0. intros ->. by apply Qclt_not_eq in Hlatest.
Qed.

Lemma addScrollerKeyframes_onHitLine_witness :
  exists keys,
    addScrollerKeyframes new_MidiCustomSettings (JS.ofZ 1080)
      [mkBPM (JS.ofZ 0) (JS.ofZ 120) None; mkBPM (JS.ofZ 2) (JS.ofZ 60) None]
      (JS.Fin (Qc_of_Z 5)) (fun _ => false)
    = Some (Returns (keys, false))
    /\ Forall (onHitLine new_MidiCustomSettings
                 [mkBPM (JS.ofZ 0) (JS.ofZ 120) None;
                  mkBPM (JS.ofZ 2) (JS.ofZ 60) None]) keys
    /\ keys <> []
    /\ ((forall n, (fun _ : nat => false) n = false) ->
        exists kf, last keys = Some kf /\ kf_time kf = JS.Fin (Qc_of_Z 5)).
Proof.
  apply (addScrollerKeyframes_onHitLine new_MidiCustomSettings
           (Qc_of_Z 128) (Qc_of_Z 192) (JS.ofZ 1080)
           [mkBPM (JS.ofZ 0) (JS.ofZ 120) None; mkBPM (JS.ofZ 2) (JS.ofZ 60) None]
           (Qc_of_Z 0) (Qc_of_Z 120) [(Qc_of_Z 2, Qc_of_Z 60)]).
  - reflexivity.
  - reflexivity.
  - reflexivity.
  - repeat constructor.
  - repeat constructor.
  - by vm_compute.
Defined.

(* ================================================================== *)
(** * The order of the notes on the time axis                          *)
(* ================================================================== *)

Section Order.

Variable k : Qc.
Hypothesis speed_nonneg : (0 <= k)%Qc.

Lemma Qc_mul_nonneg (a b : Qc) : (0 <= a)%Qc -> (0 <= b)%Qc -> (0 <= a * b)%Qc.
Proof.
  intros Ha Hb. replace 0%Qc with (0 * b)%Qc by ring.
  by apply Qcmult_le_compat_r.
Qed.

Lemma Qc_sub_nonneg (a b : Qc) : (a <= b)%Qc -> (0 <= b - a)%Qc.
Proof. intros H. by apply Qcle_minus_iff in H. Qed.

Lemma rateQ_nonneg bpm : (0 <= bpm)%Qc -> (0 <= rateQ k bpm)%Qc.
Proof.
  intros Hb. unfold rateQ. apply Qc_mul_nonneg; [exact speed_nonneg|].
  unfold Qcdiv. apply Qc_mul_nonneg; [exact Hb|]. by vm_compute.
Qed.

(** Over seconds that rise, with BPMs that are not negative, the loop
    towards a later second does not lower the sum; the entries that
    are left lie at the target or after it. *)
Lemma advanceQ_mono target : forall rest bpm sum cur,
  (cur <= target)%Qc -> Sorted Qcle (cur :: map fst rest) ->
  (0 <= bpm)%Qc -> Forall (fun e => 0 <= e.2)%Qc rest ->
  let '(sum', bpm', rest') := advanceQ k rest bpm sum cur target in
  (sum <= sum')%Qc /\ (0 <= bpm')%Qc /\ Forall (fun e => 0 <= e.2)%Qc rest'
  /\ Sorted Qcle (target :: map fst rest').
Proof.
  induction rest as [|[s b] rest IH]; intros bpm sum cur Hct Hsorted Hbpm Hrest.
  - destruct (decide (cur = target)) as [->|Hne].
    + rewrite advanceQ_done. repeat split; [apply Qcle_refl|done..].
    + rewrite advanceQ_nil by done. repeat split; [|done|done|repeat constructor].
      apply Qc_add_le, Qc_mul_nonneg;
        [by apply Qc_sub_nonneg|by apply rateQ_nonneg].
  - destruct (decide (cur = target)) as [->|Hne].
    { rewrite advanceQ_done. repeat split; [apply Qcle_refl|done..]. }
    apply Forall_cons in Hrest as [Hb Hrest]. cbn [snd] in Hb.
    apply Sorted_inv in Hsorted as [Hsorted Hhd].
    apply HdRel_inv in Hhd. cbn [fst map] in Hhd, Hsorted.
    destruct (decide (s < target)%Qc) as [Hlt|Hge].
    + rewrite advanceQ_next by done.
      specialize (IH b (sum + (s - cur) * rateQ k bpm)%Qc s
                    (Qclt_le_weak _ _ Hlt) Hsorted Hb Hrest).
      destruct (advanceQ k rest b (sum + (s - cur) * rateQ k bpm)%Qc s target)
        as [[sum' bpm'] rest'].
      destruct IH as (Hsum & Hbpm' & Hrest' & Hsorted').
      repeat split; try done.
      eapply Qcle_trans; [|exact Hsum].
      apply Qc_add_le, Qc_mul_nonneg;
        [by apply Qc_sub_nonneg|by apply rateQ_nonneg].
    + rewrite advanceQ_stay by done. repeat split; try done.
      * apply Qc_add_le, Qc_mul_nonneg;
          [by apply Qc_sub_nonneg|by apply rateQ_nonneg].
      * by constructor.
      * constructor; [exact Hsorted|]. constructor. by apply Qcnot_lt_le.
Qed.

End Order.

(** X18.  The notes keep their order.  Under the speed based on the BPM,
    with a speed and BPMs that are not negative, over a BPM map of
    finite numbers whose seconds after the first entry are not negative
    and do not fall, a note that starts later (from second 0 on) is
    never placed to the left of a note that starts earlier, and the
    width of a note whose duration is not negative is not negative. *)
Theorem getXPositionAndWidthOfNote_order (settings : MidiCustomSettings)
    (o k : Qc) (bpmMap : list BPM) (s0 bpm0 : Qc) (rest : list (Qc * Qc))
    (startTime startTime' noteDur noteDur' : Qc) :
  bpmBasedSpeed settings = true ->
  noteHitXOffset settings = JS.Fin o -> speedPerSecond settings = JS.Fin k ->
  finiteMap bpmMap ((s0, bpm0) :: rest) ->
  (0 <= k)%Qc -> (0 <= bpm0)%Qc -> Forall (fun e => 0 <= e.2)%Qc rest ->
  Sorted Qcle (0%Qc :: map fst rest) ->
  (0 <= startTime)%Qc -> (startTime <= startTime')%Qc -> (0 <= noteDur)%Qc ->
  exists x w x' w',
    getXPositionAndWidthOfNote settings (JS.Fin startTime) (JS.Fin noteDur) bpmMap
    = Some (Returns (JS.Fin x, JS.Fin w))
    /\ getXPositionAndWidthOfNote settings (JS.Fin startTime') (JS.Fin noteDur')
         bpmMap
       = Some (Returns (JS.Fin x', JS.Fin w'))
    /\ (x <= x')%Qc /\ (0 <= w)%Qc.
Proof.
  intros Hb Ho Hk Hf Hk0 Hbpm Hrest Hsorted Hs Hss Hd.
  pose proof (getXPositionAndWidthOfNote_Q settings o k Hb Ho Hk bpmMap s0 bpm0
                rest startTime noteDur Hf) as H1.
  pose proof (getXPositionAndWidthOfNote_Q settings o k Hb Ho Hk bpmMap s0 bpm0
                rest startTime' noteDur' Hf) as H2.
  assert (Qc_of_Z 0 = 0%Qc) as H0 by apply Z2Qc_inj_0.
  assert (Qc_of_Z 0 <= startTime)%Qc as Hs' by (by rewrite H0).
  pose proof (advanceQ_split k startTime startTime' (Qc_of_Z 0) Hss rest bpm0
                (Qc_of_Z 0) (Qc_of_Z 0) Hs') as Hsplit.
  pose proof (advanceQ_mono k Hk0 startTime rest bpm0 (Qc_of_Z 0) (Qc_of_Z 0)
                Hs' ltac:(by rewrite H0) Hbpm Hrest) as Hm1.
  destruct (advanceQ k rest bpm0 (Qc_of_Z 0) (Qc_of_Z 0) startTime)
    as [[sum1 bpm1] rest1].
  destruct Hm1 as (_ & Hbpm1 & Hrest1 & Hsorted1).
  pose proof (advanceQ_mono k Hk0 startTime' rest1 bpm1 (Qc_of_Z 0) startTime
                Hss Hsorted1 Hbpm1 Hrest1) as Hm2.
  pose proof (advanceQ_mono k Hk0 (startTime + noteDur)%Qc rest1 bpm1 (Qc_of_Z 0)
                startTime (Qc_add_le _ _ Hd) Hsorted1 Hbpm1 Hrest1) as Hm3.
  destruct (advanceQ k rest1 bpm1 (Qc_of_Z 0) startTime (startTime + noteDur)%Qc)
    as [[w bpm2] rest2].
  destruct Hm3 as (Hw & _).
  destruct (advanceQ k rest1 bpm1 (Qc_of_Z 0) startTime startTime')
    as [[between bpm3] rest3].
  destruct Hm2 as (Hbetween & _).
  rewrite Hsplit in H2.
  destruct (advanceQ k rest3 bpm3 (Qc_of_Z 0) startTime'
              (startTime' + noteDur')%Qc) as [[w' bpm4] rest4].
  exists (o + sum1)%Qc, w, (o + (sum1 + between - Qc_of_Z 0))%Qc, w'.
  split; [exact H1|]. split; [exact H2|]. split.
  - rewrite H0 in *.
    replace (o + (sum1 + between - 0))%Qc with (o + sum1 + between)%Qc by ring.
    by apply Qc_add_le.
  - by rewrite H0 in Hw.
Qed.

Lemma getXPositionAndWidthOfNote_order_witness :
  exists x w x' w',
    getXPositionAndWidthOfNote new_MidiCustomSettings (JS.Fin (Qc_of_Z 1))
      (JS.Fin (Qc_of_Z 3))
      [mkBPM (JS.ofZ 0) (JS.ofZ 120) None; mkBPM (JS.ofZ 2) (JS.ofZ 60) None]
    = Some (Returns (JS.Fin x, JS.Fin w))
    /\ getXPositionAndWidthOfNote new_MidiCustomSettings (JS.Fin (Qc_of_Z 4))
         (JS.Fin (Qc_of_Z 1))
         [mkBPM (JS.ofZ 0) (JS.ofZ 120) None; mkBPM (JS.ofZ 2) (JS.ofZ 60) None]
       = Some (Returns (JS.Fin x', JS.Fin w'))
    /\ (x <= x')%Qc /\ (0 <= w)%Qc.
Proof.
  apply (getXPositionAndWidthOfNote_order new_MidiCustomSettings
           (Qc_of_Z 128) (Qc_of_Z 192)
           [mkBPM (JS.ofZ 0) (JS.ofZ 120) None; mkBPM (JS.ofZ 2) (JS.ofZ 60) None]
           (Qc_of_Z 0) (Qc_of_Z 120) [(Qc_of_Z 2, Qc_of_Z 60)]).
  - reflexivity.
  - reflexivity.
  - reflexivity.
  - repeat constructor.
  - by vm_compute.
  - by vm_compute.
  - repeat constructor. by vm_compute.
  - repeat constructor. by vm_compute.
  - by vm_compute.
  - by vm_compute.
  - by vm_compute.
Defined.
